(** * QgsTracer: graph construction, splicing and shortest path search

    A shallow embedding of [src/core/qgstracer.cpp].  The graph structure,
    the builder, the locator, the splicer, the solver and the session are
    transcribed function by function.  The geometry classes the file relies
    on ([QgsPoint], [QgsLineString], the geometry engine) and the feature
    feed are not part of that file: they enter as the fields of the
    classes [Geometry] and [Collaborators], and are instantiated on a grid
    of coordinates for the concrete runs. *)

From stdpp Require Import base option list gmap sorting.

Set Default Proof Using "Type".

(** ** Data model *)

(** The geometry classes [qgstracer.cpp] uses but does not define. *)
Class Geometry : Type := mkGeometry {
  (** [QgsPoint].  Equality on [Point] stands for [operator==] and for the
      key identity of [QHash<QgsPoint, int>]. *)
  Point : Type;
  Point_eq_dec :: EqDecision Point;
  Point_countable :: Countable Point;
  (** [double]: distances, weights and the offset. *)
  W : Type;
  W_eq_dec :: EqDecision W;
  (** [QgsPoint()], returned by [startPoint]/[endPoint] of an empty line. *)
  emptyPoint : Point;
  wzero : W;
  (** [std::numeric_limits<double>::max()] *)
  wmax : W;
  wadd : W → W → W;
  (** [a < b] on doubles *)
  wltb : W → W → bool;
  (** [std::fabs( a.x() - b.x() ) < epsilon && std::fabs( a.y() - b.y() ) < epsilon]
      with the default [epsilon = 1e-6] of [point2vertex]. *)
  near : Point → Point → bool;
  (** [QgsPoint::distance] *)
  distance : Point → Point → W;
  (** [QgsLineString::length], the weight of an edge; a line string is the
      sequence of its points. *)
  length_of : list Point → W;
  (** [coords.closestSegment( pt, segmentPt, vertexId, nullptr, epsilon )]
      with the default [epsilon = 1e-6] of [point2edge]: the distance
      returned and [vertexId.vertex]. *)
  closestSegment : list Point → Point → W * nat;
  (** [coords.splitAt( pt, QgsVertexId( 0, 0, after ), out1, out2 )] *)
  splitAt : list Point → Point → nat → list Point * list Point;
  (** [points.deleteVertex( QgsVertexId( 0, 0, i ) )] *)
  deleteVertex : list Point → nat → list Point;
  (** [points.append( &line )] *)
  appendLine : list Point → list Point → list Point
}.

Section Tracer.

Context `{Geometry}.

(** A [QgsLineString]. *)
Definition LineString : Type := list Point.

Definition startPoint (l : LineString) : Point := hd emptyPoint l.
Definition endPoint (l : LineString) : Point := List.last l emptyPoint.
Definition numPoints (l : LineString) : nat := length l.
Definition isEmpty (l : LineString) : bool := bool_decide (l = []).

(** [struct E]: a bidirectional edge. *)
Record E : Type := mkE {
  e_v1 : nat;
  e_v2 : nat;
  e_coords : LineString
}.

(** [struct V] *)
Record V : Type := mkV {
  v_pt : Point;
  v_edges : list nat
}.

(** [struct QgsTracerGraph] *)
Record QgsTracerGraph : Type := mkGraph {
  g_v : list V;
  g_e : list E;
  g_inactiveEdges : gset nat;
  g_joinedVertices : nat
}.

Definition otherVertex (ed : E) (v0 : nat) : nat :=
  if decide (e_v1 ed = v0) then e_v2 ed else e_v1 ed.

Definition weight (ed : E) : W := length_of (e_coords ed).

(** [v.edges << eIdx] *)
Definition addEdgeRef (eIdx : nat) (vx : V) : V :=
  mkV (v_pt vx) (v_edges vx ++ [eIdx]).

(** ** Graph builder *)

(** "get or add vertex": the two symmetric blocks of [makeGraph]. *)
Definition getOrAddVertex (vs : list V) (point2vertex : gmap Point nat) (p : Point)
  : list V * gmap Point nat * nat :=
  match point2vertex !! p with
  | Some i => (vs, point2vertex, i)
  | None =>
      let i := length vs in
      (vs ++ [mkV p []], <[p := i]> point2vertex, i)
  end.

(** One turn of the loop of [makeGraph] over the lines. *)
Definition makeGraph_step (st : QgsTracerGraph * gmap Point nat) (line : LineString)
  : QgsTracerGraph * gmap Point nat :=
  let '(g, m) := st in
  let p1 := startPoint line in
  let p2 := endPoint line in
  let '(vs1, m1, v1) := getOrAddVertex (g_v g) m p1 in
  let '(vs2, m2, v2) := getOrAddVertex vs1 m1 p2 in
  let ed := mkE v1 v2 line in
  let es := g_e g ++ [ed] in
  let eIdx := length es - 1 in
  let vs3 := alter (addEdgeRef eIdx) v1 vs2 in
  let vs4 := alter (addEdgeRef eIdx) v2 vs3 in
  (mkGraph vs4 es (g_inactiveEdges g) (g_joinedVertices g), m2).

Definition emptyGraph : QgsTracerGraph := mkGraph [] [] ∅ 0.

Definition makeGraph_state (edges : list LineString) : QgsTracerGraph * gmap Point nat :=
  foldl makeGraph_step (emptyGraph, ∅) edges.

Definition makeGraph (edges : list LineString) : QgsTracerGraph :=
  fst (makeGraph_state edges).

(** ** Spatial locator *)

Definition vertexMatches (p : Point) (vx : V) : bool :=
  bool_decide (v_pt vx = p) || near (v_pt vx) p.

(** [point2vertex]: [None] is the [-1] of the source. *)
Definition point2vertex (g : QgsTracerGraph) (p : Point) : option nat :=
  fst <$> list_find (λ vx, vertexMatches p vx) (g_v g).

(** The loop of [point2edge] from index [i] on. *)
Fixpoint point2edge_from (inactive : gset nat) (p : Point) (i : nat) (es : list E)
  : option (nat * nat) :=
  match es with
  | [] => None
  | ed :: rest =>
      if decide (i ∈ inactive) then point2edge_from inactive p (S i) rest
      else
        let '(dist, after) := closestSegment (e_coords ed) p in
        if decide (dist = wzero) then Some (i, after)
        else point2edge_from inactive p (S i) rest
  end.

(** [point2edge]: the edge index and [lineVertexAfter]. *)
Definition point2edge (g : QgsTracerGraph) (p : Point) : option (nat * nat) :=
  point2edge_from (g_inactiveEdges g) p 0 (g_e g).

(** ** Graph splicer *)

(** [QVector::indexOf] *)
Definition indexOf (x : nat) (l : list nat) : option nat :=
  fst <$> list_find (λ y, y = x) l.

(** [edges.replace( edges.indexOf( eIdx ), newIdx )].  When [eIdx] is not in
    the list the source calls [replace( -1, ... )], which Qt rejects; the
    list is left as it is here. *)
Definition replaceEdgeRef (eIdx newIdx : nat) (vx : V) : V :=
  match indexOf eIdx (v_edges vx) with
  | Some i => mkV (v_pt vx) (<[i := newIdx]> (v_edges vx))
  | None => vx
  end.

Definition joinVertexToGraph (g : QgsTracerGraph) (p : Point)
  : QgsTracerGraph * option nat :=
  match point2edge g p with
  | None => (g, None)
  | Some (eIdx, lineVertexAfter) =>
      match g_e g !! eIdx with
      | None => (g, None)
      | Some ed =>
          let '(out1, out2) := splitAt (e_coords ed) p lineVertexAfter in
          let vIdx := length (g_v g) in
          let e1Idx := length (g_e g) in
          let e2Idx := e1Idx + 1 in
          let vnew := mkV p [e1Idx; e2Idx] in
          let e1 := mkE (e_v1 ed) vIdx out1 in
          let e2 := mkE vIdx (e_v2 ed) out2 in
          let vs1 := alter (replaceEdgeRef eIdx e1Idx) (e_v1 ed) (g_v g) in
          let vs2 := alter (replaceEdgeRef eIdx e2Idx) (e_v2 ed) vs1 in
          (mkGraph (vs2 ++ [vnew]) (g_e g ++ [e1; e2])
                   ({[eIdx]} ∪ g_inactiveEdges g) (S (g_joinedVertices g)),
           Some vIdx)
      end
  end.

Definition pointInGraph (g : QgsTracerGraph) (p : Point) : QgsTracerGraph * option nat :=
  match point2vertex g p with
  | Some i => (g, Some i)
  | None => joinVertexToGraph g p
  end.

(** The inner loops of [resetGraph]: drop the references to edges at or
    beyond [count], then append [eIdx]. *)
Definition restoreEdgeRef (count eIdx : nat) (vx : V) : V :=
  mkV (v_pt vx) (filter (λ i, i < count) (v_edges vx) ++ [eIdx]).

(** One turn of the loop of [resetGraph] over the inactive edges. *)
Definition resetGraph_step (es : list E) (vs : list V) (eIdx : nat) : list V :=
  if decide (length es ≤ eIdx) then vs
  else
    match es !! eIdx with
    | None => vs
    | Some ed =>
        let vs1 := alter (restoreEdgeRef (length es) eIdx) (e_v1 ed) vs in
        alter (restoreEdgeRef (length es) eIdx) (e_v2 ed) vs1
    end.

Definition resetGraph (g : QgsTracerGraph) : QgsTracerGraph :=
  let vs := take (length (g_v g) - g_joinedVertices g) (g_v g) in
  let es := take (length (g_e g) - g_joinedVertices g * 2) (g_e g) in
  let vs' := foldl (resetGraph_step es) vs (elements (g_inactiveEdges g)) in
  mkGraph vs' es ∅ 0.

(** ** Shortest path solver *)

(** [DijkstraQueueItem]: first = vertex index, second = distance. *)
Definition DijkstraQueueItem : Type := nat * W.

(** [struct comp]: [a.second > b.second]. *)
Definition comp (a b : DijkstraQueueItem) : bool := wltb (snd b) (snd a).

(** [std::priority_queue] over [comp], kept as the sequence of the items
    pushed and not yet popped.  [top] is an item no other item beats under
    [comp]; among several such items the standard leaves the choice open,
    and the earliest pushed one is taken here. *)
Fixpoint topIndex_from (bi : nat) (b : DijkstraQueueItem) (i : nat)
    (q : list DijkstraQueueItem) : nat * DijkstraQueueItem :=
  match q with
  | [] => (bi, b)
  | x :: r => if comp b x then topIndex_from i x (S i) r
              else topIndex_from bi b (S i) r
  end.

(** [Q.top()] together with [Q.pop()]; [None] on an empty queue. *)
Definition popTop (q : list DijkstraQueueItem)
  : option (DijkstraQueueItem * list DijkstraQueueItem) :=
  match q with
  | [] => None
  | x :: r => let '(i, b) := topIndex_from 0 x 1 r in Some (b, delete i q)
  end.

(** [Q.push( item )] *)
Definition push (q : list DijkstraQueueItem) (x : DijkstraQueueItem)
  : list DijkstraQueueItem := q ++ [x].

(** The local variables of [shortestPath]: the queue [Q], the distances
    [D], the processed flags [F], the predecessor edges [S] ([None] is
    [-1]) and the vertex [u] ([None] is its initial [-1]). *)
Record Dijkstra : Type := mkDijkstra {
  d_Q : list DijkstraQueueItem;
  d_D : list W;
  d_F : list bool;
  d_S : list (option nat);
  d_u : option nat
}.

(** Reads of the arrays.  An index out of range is outside the vectors in
    the source; the reads are made total with the initial values. *)
Definition readD (D : list W) (i : nat) : W := default wmax (D !! i).
Definition readF (F : list bool) (i : nat) : bool := default false (F !! i).
Definition readS (S : list (option nat)) (i : nat) : option nat := default None (S !! i).
Definition edgesOf (g : QgsTracerGraph) (u : nat) : list nat :=
  default [] (v_edges <$> g_v g !! u).
Definition ptOf (g : QgsTracerGraph) (u : nat) : Point :=
  default emptyPoint (v_pt <$> g_v g !! u).

(** The body of the [for] loop over [vuEdges]. *)
Definition relaxEdge (g : QgsTracerGraph) (u : nat) (st : Dijkstra) (ei : nat) : Dijkstra :=
  match g_e g !! ei with
  | None => st
  | Some edge =>
      let v := otherVertex edge u in
      let w := weight edge in
      if negb (readF (d_F st) v) && wltb (wadd (readD (d_D st) u) w) (readD (d_D st) v)
      then
        let d := wadd (readD (d_D st) u) w in
        mkDijkstra (push (d_Q st) (v, d)) (<[v := d]> (d_D st)) (d_F st)
                   (<[v := Some ei]> (d_S st)) (d_u st)
      else st
  end.

(** The [while ( !Q.empty() )] loop.  [None]: the turns allowed by [fuel]
    are used up with the queue still not empty. *)
Fixpoint dijkstraLoop (fuel : nat) (g : QgsTracerGraph) (v2 : nat) (st : Dijkstra)
  : option Dijkstra :=
  match popTop (d_Q st) with
  | None => Some st
  | Some ((u, _), Q') =>
      match fuel with
      | 0 => None
      | S fuel' =>
          let st1 := mkDijkstra Q' (d_D st) (d_F st) (d_S st) (Some u) in
          if decide (u = v2) then Some st1
          else if readF (d_F st1) u then dijkstraLoop fuel' g v2 st1
          else
            let st2 := foldl (relaxEdge g u) st1 (edgesOf g u) in
            dijkstraLoop fuel' g v2
              (mkDijkstra (d_Q st2) (d_D st2) (<[u := true]> (d_F st2)) (d_S st2) (d_u st2))
      end
  end.

(** Every push belongs to an adjacency entry of a vertex processed once, so
    this many turns are enough (see [dijkstraLoop_terminates]). *)
Definition dijkstraFuel (g : QgsTracerGraph) : nat :=
  S (sum_list (map (λ vx, length (v_edges vx)) (g_v g))).

(** The [while ( S[u] != -1 )] loop that assembles the points from the
    target back to the source.  [None]: the predecessor chain does not end
    within [fuel] edges. *)
Fixpoint walkBack (fuel : nat) (g : QgsTracerGraph) (S : list (option nat))
    (u : nat) (points : LineString) : option LineString :=
  match readS S u with
  | None => Some points
  | Some ei =>
      match fuel with
      | 0 => None
      | S fuel' =>
          match g_e g !! ei with
          | None => Some points
          | Some ed =>
              let edgePoints :=
                if decide (startPoint (e_coords ed) = ptOf g u) then e_coords ed
                else reverse (e_coords ed) in
              let points1 :=
                if isEmpty points then points
                else deleteVertex points (numPoints points) in
              walkBack fuel' g S (otherVertex ed u) (appendLine points1 edgePoints)
          end
      end
  end.

Definition dijkstraInit (g : QgsTracerGraph) (v1 : nat) : Dijkstra :=
  let n := length (g_v g) in
  mkDijkstra [(v1, wzero)] (<[v1 := wzero]> (replicate n wmax))
             (replicate n false) (replicate n None) None.

(** [shortestPath].  A chain of predecessors longer than the number of
    vertices repeats a vertex, and the source would walk it for ever: that
    is the [None] result. *)
Definition shortestPath (g : QgsTracerGraph) (v1 v2 : option nat) : option LineString :=
  match v1, v2 with
  | Some a, Some b =>
      match dijkstraLoop (dijkstraFuel g) g b (dijkstraInit g a) with
      | None => None
      | Some st =>
          if decide (d_u st = Some b)
          then reverse <$> walkBack (length (g_v g)) g (d_S st) b []
          else Some []
      end
  | _, _ => Some []
  end.

End Tracer.

(** ** Tracer session *)

(** The collaborators of the session: layers and their feature feed, the
    renderer used as a visibility filter, and the geometry engine. *)
Class Collaborators `{Geometry} : Type := mkCollaborators {
  Layer : Type;
  Crs : Type;
  TransformContext : Type;
  RenderContext : Type;
  Extent : Type;
  Feature : Type;
  Layer_eq_dec :: EqDecision Layer;
  Extent_eq_dec :: EqDecision Extent;
  (** [mExtent.isEmpty()] *)
  extentIsEmpty : Extent → bool;
  (** [QgsSettingsRegistryCore::settingsDigitizingSnapInvisibleFeature.value()] *)
  settingsDigitizingSnapInvisibleFeature : bool;
  (** [vl->renderer()] is not null *)
  layerHasRenderer : Layer → bool;
  (** [renderer->capabilities() & QgsFeatureRenderer::Filter] *)
  rendererFilters : Layer → RenderContext → bool;
  (** [renderer->willRenderFeature( f, ctx )] *)
  willRenderFeature : Layer → RenderContext → Feature → bool;
  (** [vl->getFeatures( request )] for the destination CRS and the filter
      rectangle of the request ([None]: no rectangle set). *)
  getFeatures : Layer → Crs → TransformContext → option Extent → list Feature;
  (** [f.hasGeometry()] *)
  hasGeometry : Feature → bool;
  (** [f.geometry().constGet()->segmentize()] read as a multi line string;
      [None] is the null pointer. *)
  segmentize : Feature → option (list LineString);
  (** [linestringEngine->offsetCurve( offset, segments, joinStyle, miterLimit )]
      followed by the cast to [QgsLineString *]; [None]: the cast fails. *)
  offsetCurve : LineString → W → Z → Z → W → option LineString
}.

Section Session.

Context `{Collaborators}.

Inductive PathError : Type :=
  | ErrNone
  | ErrTooManyFeatures
  | ErrPoint1
  | ErrPoint2
  | ErrNoPath.

#[global] Instance PathError_eq_dec : EqDecision PathError.
Proof. solve_decision. Defined.

(** The members of [QgsTracer] the file reads and writes.  [mGraph] is the
    owning pointer: [None] is the null pointer (no cached graph). *)
Record QgsTracer : Type := mkTracer {
  mGraph : option QgsTracerGraph;
  mLayers : list Layer;
  mCRS : Crs;
  mTransformContext : TransformContext;
  mRenderContext : option RenderContext;
  mExtent : Extent;
  mOffset : W;
  mOffsetSegments : Z;
  mOffsetJoinStyle : Z;
  mOffsetMiterLimit : W;
  mMaxFeatureCount : Z;
  mHasTopologyProblem : bool
}.

Definition withGraph (t : QgsTracer) (g : option QgsTracerGraph) : QgsTracer :=
  mkTracer g (mLayers t) (mCRS t) (mTransformContext t) (mRenderContext t) (mExtent t)
           (mOffset t) (mOffsetSegments t) (mOffsetJoinStyle t) (mOffsetMiterLimit t)
           (mMaxFeatureCount t) (mHasTopologyProblem t).

Definition invalidateGraph (t : QgsTracer) : QgsTracer := withGraph t None.

(** The signal connections made and undone by [setLayers] carry no state
    of the session and are left out. *)
Definition setLayers (t : QgsTracer) (layers : list Layer) : QgsTracer :=
  if decide (mLayers t = layers) then t
  else
    invalidateGraph
      (mkTracer (mGraph t) layers (mCRS t) (mTransformContext t) (mRenderContext t)
                (mExtent t) (mOffset t) (mOffsetSegments t) (mOffsetJoinStyle t)
                (mOffsetMiterLimit t) (mMaxFeatureCount t) (mHasTopologyProblem t)).

Definition setDestinationCrs (t : QgsTracer) (crs : Crs) (context : TransformContext)
  : QgsTracer :=
  invalidateGraph
    (mkTracer (mGraph t) (mLayers t) crs context (mRenderContext t)
              (mExtent t) (mOffset t) (mOffsetSegments t) (mOffsetJoinStyle t)
              (mOffsetMiterLimit t) (mMaxFeatureCount t) (mHasTopologyProblem t)).

Definition setRenderContext (t : QgsTracer) (renderContext : RenderContext) : QgsTracer :=
  invalidateGraph
    (mkTracer (mGraph t) (mLayers t) (mCRS t) (mTransformContext t) (Some renderContext)
              (mExtent t) (mOffset t) (mOffsetSegments t) (mOffsetJoinStyle t)
              (mOffsetMiterLimit t) (mMaxFeatureCount t) (mHasTopologyProblem t)).

Definition setExtent (t : QgsTracer) (extent : Extent) : QgsTracer :=
  if decide (mExtent t = extent) then t
  else
    invalidateGraph
      (mkTracer (mGraph t) (mLayers t) (mCRS t) (mTransformContext t) (mRenderContext t)
                extent (mOffset t) (mOffsetSegments t) (mOffsetJoinStyle t)
                (mOffsetMiterLimit t) (mMaxFeatureCount t) (mHasTopologyProblem t)).

Definition setOffset (t : QgsTracer) (offset : W) : QgsTracer :=
  mkTracer (mGraph t) (mLayers t) (mCRS t) (mTransformContext t) (mRenderContext t)
           (mExtent t) offset (mOffsetSegments t) (mOffsetJoinStyle t)
           (mOffsetMiterLimit t) (mMaxFeatureCount t) (mHasTopologyProblem t).

Definition offsetParameters (t : QgsTracer) : Z * Z * W :=
  (mOffsetSegments t, mOffsetJoinStyle t, mOffsetMiterLimit t).

Definition setOffsetParameters (t : QgsTracer) (quadSegments joinStyle : Z) (miterLimit : W)
  : QgsTracer :=
  mkTracer (mGraph t) (mLayers t) (mCRS t) (mTransformContext t) (mRenderContext t)
           (mExtent t) (mOffset t) quadSegments joinStyle miterLimit
           (mMaxFeatureCount t) (mHasTopologyProblem t).

(** [extractLinework] *)
Definition extractLinework (f : Feature) (mpl : list LineString) : list LineString :=
  match segmentize f with
  | None => mpl
  | Some lines => mpl ++ lines
  end.

(** The [while ( fi.nextFeature( f ) )] loop of [initGraph] over the
    features of one layer; the state is the linework and the number of
    features counted so far, [None] once the function has returned
    [false]. *)
Fixpoint initGraph_features (t : QgsTracer) (vl : Layer) (filter : bool)
    (fs : list Feature) (st : list LineString * Z) : option (list LineString * Z) :=
  match fs with
  | [] => Some st
  | f :: rest =>
      if negb (hasGeometry f) then initGraph_features t vl filter rest st
      else if filter &&
              negb (from_option (λ ctx, willRenderFeature vl ctx f) true (mRenderContext t))
      then initGraph_features t vl filter rest st
      else
        let mpl := extractLinework f (fst st) in
        let featuresCounted := (snd st + 1)%Z in
        if negb (bool_decide (mMaxFeatureCount t = 0%Z)) &&
           bool_decide (mMaxFeatureCount t ≤ featuresCounted)%Z
        then None
        else initGraph_features t vl filter rest (mpl, featuresCounted)
  end.

(** The body of the loop of [initGraph] over [mLayers]. *)
Definition initGraph_layer (t : QgsTracer) (st : option (list LineString * Z)) (vl : Layer)
  : option (list LineString * Z) :=
  match st with
  | None => None
  | Some st0 =>
      let filter :=
        match mRenderContext t with
        | Some ctx =>
            if negb settingsDigitizingSnapInvisibleFeature && layerHasRenderer vl
            then rendererFilters vl ctx else false
        | None => false
        end in
      let rect := if extentIsEmpty (mExtent t) then None else Some (mExtent t) in
      initGraph_features t vl filter
        (getFeatures vl (mCRS t) (mTransformContext t) rect) st0
  end.

Definition clearTopologyProblem (t : QgsTracer) : QgsTracer :=
  mkTracer (mGraph t) (mLayers t) (mCRS t) (mTransformContext t) (mRenderContext t)
           (mExtent t) (mOffset t) (mOffsetSegments t) (mOffsetJoinStyle t)
           (mOffsetMiterLimit t) (mMaxFeatureCount t) false.

(** [initGraph].  The noding block is compiled out ([#if 0]). *)
Definition initGraph (t : QgsTracer) : QgsTracer * bool :=
  match mGraph t with
  | Some _ => (t, true)
  | None =>
      let t1 := clearTopologyProblem t in
      match foldl (initGraph_layer t1) (Some ([], 0%Z)) (mLayers t1) with
      | None => (t1, false)
      | Some (mpl, _) => (withGraph t1 (Some (makeGraph mpl)), true)
      end
  end.

(** [init]; [configure()] is the empty hook of the base class. *)
Definition init (t : QgsTracer) : QgsTracer * bool :=
  match mGraph t with
  | Some _ => (t, true)
  | None => initGraph t
  end.

(** The calls [findShortestPath] makes to the solver, the revert and the
    offset engine, in order. *)
Inductive Call : Type :=
  | CallShortestPath (v1 v2 : nat)
  | CallResetGraph
  | CallOffsetCurve (input : LineString).

(** The block of [findShortestPath] that replaces [points] by the offset
    curve. *)
Definition applyOffset (t : QgsTracer) (p1 p2 : Point) (points : LineString) : LineString :=
  match offsetCurve points (mOffset t) (mOffsetSegments t) (mOffsetJoinStyle t)
                    (mOffsetMiterLimit t) with
  | None => points
  | Some ls2 =>
      if bool_decide (2 ≤ numPoints ls2) then
        let res1 := startPoint ls2 in
        let res2 := endPoint ls2 in
        let diffNormal := wadd (distance res1 p1) (distance res2 p2) in
        let diffReversed := wadd (distance res1 p2) (distance res2 p1) in
        if wltb diffReversed diffNormal then reverse ls2 else ls2
      else ls2
  end.

(** What a call of [findShortestPath] leaves behind: the session, the
    line returned, the value written to [*error] and the calls made. *)
Record Outcome : Type := mkOutcome {
  o_tracer : QgsTracer;
  o_points : LineString;
  o_error : PathError;
  o_calls : list Call
}.

(** [findShortestPath].  [None] only when [shortestPath] does not return
    (see there). *)
Definition findShortestPath (t : QgsTracer) (p1 p2 : Point) : option Outcome :=
  let t0 := fst (init t) in
  match mGraph t0 with
  | None => Some (mkOutcome t0 [] ErrTooManyFeatures [])
  | Some g0 =>
      let '(g1, v1) := pointInGraph g0 p1 in
      let '(g2, v2) := pointInGraph g1 p2 in
      match v1, v2 with
      | None, _ => Some (mkOutcome (withGraph t0 (Some g2)) [] ErrPoint1 [])
      | Some _, None => Some (mkOutcome (withGraph t0 (Some g2)) [] ErrPoint2 [])
      | Some a, Some b =>
          match shortestPath g2 v1 v2 with
          | None => None
          | Some points =>
              let t1 := withGraph t0 (Some (resetGraph g2)) in
              let offsetting := negb (isEmpty points) &&
                                negb (bool_decide (mOffset t1 = wzero)) in
              let points' := if offsetting then applyOffset t1 p1 p2 points else points in
              Some (mkOutcome t1 points'
                      (if isEmpty points' then ErrNoPath else ErrNone)
                      ([CallShortestPath a b; CallResetGraph] ++
                       (if offsetting then [CallOffsetCurve points] else [])))
          end
      end
  end.

(** [isPointSnapped] *)
Definition isPointSnapped (t : QgsTracer) (p : Point) : QgsTracer * bool :=
  let t0 := fst (init t) in
  match mGraph t0 with
  | None => (t0, false)
  | Some g =>
      if bool_decide (is_Some (point2vertex g p)) then (t0, true)
      else (t0, bool_decide (is_Some (point2edge g p)))
  end.

End Session.

(** ** An instance on a grid

    Coordinates are integer multiples of [1e-7] map units, distances are
    rounded down to that unit, squared distances to [1e-14].  The runs of
    the functions on concrete linework below are made in this instance. *)

Module Grid.

(** [None] is the empty point [QgsPoint()]. *)
Definition GPoint : Type := option (Z * Z).

Definition scale : Z := 10000000.

(** The point with the whole map coordinates [x], [y]. *)
Definition P (x y : Z) : GPoint := Some (x * scale, y * scale)%Z.

(** [epsilon = 1e-6] in grid units, and as a bound on a squared distance. *)
Definition epsilon : Z := 10.
Definition epsilonSqr : Z := 100000000.

Definition gnear (a b : GPoint) : bool :=
  match a, b with
  | Some (x1, y1), Some (x2, y2) =>
      (Z.abs (x1 - x2) <? epsilon)%Z && (Z.abs (y1 - y2) <? epsilon)%Z
  | _, _ => false
  end.

Definition sqrDist (a b : Z * Z) : Z :=
  ((a.1 - b.1) * (a.1 - b.1) + (a.2 - b.2) * (a.2 - b.2))%Z.

Definition gdistance (a b : GPoint) : Z :=
  match a, b with
  | Some a', Some b' => Z.sqrt (sqrDist a' b')
  | _, _ => 0%Z
  end.

Fixpoint glength (l : list GPoint) : Z :=
  match l with
  | a :: ((b :: _) as rest) => (gdistance a b + glength rest)%Z
  | _ => 0%Z
  end.

(** [QgsGeometryUtils::sqrDistToLine]: the squared distance of [p] to the
    segment from [a] to [b], and [0] when it is below [epsilon]. *)
Definition sqrDistToLine (p a b : Z * Z) : Z :=
  let dx := (b.1 - a.1)%Z in
  let dy := (b.2 - a.2)%Z in
  let len2 := (dx * dx + dy * dy)%Z in
  let dot := ((p.1 - a.1) * dx + (p.2 - a.2) * dy)%Z in
  let cross := ((p.1 - a.1) * dy - (p.2 - a.2) * dx)%Z in
  let d :=
    if (len2 =? 0)%Z then sqrDist p a
    else if (len2 <? dot)%Z then sqrDist p b
    else if (0 <? dot)%Z then (cross * cross / len2)%Z
    else sqrDist p a in
  if (d <? epsilonSqr)%Z then 0%Z else d.

(** The loop of [QgsLineString::closestSegment] over the segments: the
    least distance found so far and the index of the vertex that ends its
    segment. *)
Fixpoint closestSegment_from (p : Z * Z) (i : nat) (prev : Z * Z) (l : list GPoint)
    (best : Z * nat) : Z * nat :=
  match l with
  | Some cur :: rest =>
      let testDist := sqrDistToLine p prev cur in
      closestSegment_from p (S i) cur rest
        (if (testDist <? best.1)%Z then (testDist, i) else best)
  | _ => best
  end.

Definition gwmax : Z := (2 ^ 1024)%Z.

Definition gclosestSegment (l : list GPoint) (p : GPoint) : Z * nat :=
  match p, l with
  | Some p', Some a :: ((_ :: _) as rest) =>
      closestSegment_from p' 1 a rest (gwmax, 0)
  | _, _ => ((-1)%Z, 0)
  end.

(** Modelled from the spec: [QgsLineString::splitAt] is not part of
    [qgstracer.cpp].  It splits "the edge's coordinate sequence at the
    insertion position into two coordinate runs sharing the new point as a
    shared endpoint". *)
Definition gsplitAt (l : list GPoint) (p : GPoint) (after : nat)
  : list GPoint * list GPoint :=
  (take after l ++ [p], p :: drop after l).

(** [QgsLineString::deleteVertex]: refuses a position outside the line, and
    clears a line left with a single point. *)
Definition gdeleteVertex (l : list GPoint) (i : nat) : list GPoint :=
  if decide (length l ≤ i) then l
  else let l' := delete i l in
       if decide (length l' = 1) then [] else l'.

(** [QgsLineString::append]: the end point is not stored twice when the
    appended line starts with it. *)
Definition gappendLine (l line : list GPoint) : list GPoint :=
  match List.last (Some <$> l) None, line with
  | Some q, p :: _ => if decide (q = p) then removelast l ++ line else l ++ line
  | _, _ => l ++ line
  end.

#[export] Instance geometry : Geometry :=
  mkGeometry GPoint _ _ Z _ None 0%Z gwmax Z.add Z.ltb gnear gdistance glength
             gclosestSegment gsplitAt gdeleteVertex gappendLine.

(** A layer is the list of its features, a feature the linework of its
    geometry ([None]: no geometry).  No renderer filters, the extent is a
    rectangle of grid coordinates. *)
Definition GLayer : Type := list (option (list (list GPoint))).

(** All points of the line have the ordinate [y]. *)
Definition horizontal (y : Z) (l : list GPoint) : bool :=
  forallb (λ p, match p with Some (_, y') => (y' =? y)%Z | None => false end) l.

Definition shiftY (d : Z) (p : GPoint) : GPoint :=
  match p with Some (x, y) => Some (x, (y + d)%Z) | None => None end.

(** The offset engine on a horizontal line drawn left to right: the line
    moved by [d] to its left; as the source remarks, the curve comes back
    reversed for a negative offset.  Other input yields no line string. *)
Definition goffsetCurve (l : list GPoint) (d : Z) (_ _ : Z) (_ : Z)
  : option (list GPoint) :=
  match l with
  | Some (x0, y0) :: _ :: _ =>
      if horizontal y0 l &&
         bool_decide (Sorted Z.lt (omap (λ p : GPoint, fst <$> p) l))
      then Some (if (d <? 0)%Z then reverse (shiftY d <$> l) else shiftY d <$> l)
      else None
  | _ => None
  end.

#[export] Instance collaborators : Collaborators :=
  mkCollaborators geometry GLayer unit unit unit (Z * Z * Z * Z) (option (list (list GPoint)))
    _ _ (λ r, bool_decide (r = (0, 0, 0, 0)%Z)) true (λ _, false) (λ _ _, false)
    (λ _ _ _, true) (λ vl _ _ _, vl) (λ f, bool_decide (is_Some f)) (λ f, f) goffsetCurve.

(** A session over the layers [layers] with nothing cached yet. *)
Definition session (layers : list GLayer) (offset : Z) : QgsTracer :=
  mkTracer None layers () () None (0, 0, 0, 0)%Z offset 8 2 2%Z 0 false.

(** A layer with one feature per line. *)
Definition layerOf (lines : list (list GPoint)) : GLayer :=
  (λ l, Some [l]) <$> lines.

(** The session [t] with its graph built. *)
Definition built (t : QgsTracer) : QgsTracer := fst (init t).

(** The session left by a query, the points and the error it returns. *)
Definition after (t : QgsTracer) (p1 p2 : GPoint) : QgsTracer :=
  from_option o_tracer t (findShortestPath t p1 p2).
Definition answer (t : QgsTracer) (p1 p2 : GPoint)
  : option (list GPoint * PathError) :=
  (λ o, (o_points o, o_error o)) <$> findShortestPath t p1 p2.

End Grid.

(** ** Linework and sessions of the concrete runs *)

Module Examples.

Import Grid.

(** A straight line from (0,0) to (10,0), a line from (0,0) up to (0,10)
    that shares its start with it, a line apart from both, and a line of
    three points. *)
Definition lineA : list GPoint := [P 0 0; P 10 0].
Definition lineB : list GPoint := [P 0 0; P 0 10].
Definition lineC : list GPoint := [P 0 5; P 10 5].
Definition lineABC : list GPoint := [P 0 0; P 5 0; P 10 0].

(** A line that starts [1e-7] beside (0,0): within [epsilon] of the start
    of [lineA], but not at it. *)
Definition lineNear : list GPoint := [Some (1, 0)%Z; P 0 10].

(** A closed ring through (0,0), (5,0) and (5,5). *)
Definition lineRing : list GPoint := [P 0 0; P 5 0; P 5 5; P 0 0].

(** A point [0.0009999] above the middle of [lineA], which
    [closestSegment] still puts on the line, and a point [0.00105] above
    [lineA] at the abscissa 4.9, which it does not. *)
Definition pointOnA : GPoint := Some (50000000, 9999)%Z.
Definition pointOffA : GPoint := Some (49000000, 10500)%Z.

(** Collections of lines and the graphs the builder makes of them. *)
Definition linesA : list LineString := [lineA].
Definition linesAB : list LineString := [lineA; lineB].
Definition linesAC : list LineString := [lineA; lineC].
Definition linesABC : list LineString := [lineABC].
Definition linesNear : list LineString := [lineA; lineNear].
Definition linesRing : list LineString := [lineA; lineRing].
Definition graphA : QgsTracerGraph := makeGraph linesA.
Definition graphAB : QgsTracerGraph := makeGraph linesAB.
Definition graphAC : QgsTracerGraph := makeGraph linesAC.

(** A session over [lineA] and [lineC] that is not built yet, and the same
    with at most two features allowed. *)
Definition sessionFresh : QgsTracer := session [layerOf linesAC] 0.
Definition sessionCapped : QgsTracer :=
  mkTracer None [layerOf linesAC] () () None (0, 0, 0, 0)%Z 0%Z 8 2 2%Z 2 false.

(** Sessions over one layer, with their graph built. *)
Definition sessionA : QgsTracer := built (session [layerOf linesA] 0).
Definition sessionAC : QgsTracer := built (session [layerOf linesAC] 0).

(** The same with an offset of one map unit to the left. *)
Definition sessionOffset : QgsTracer := built (session [layerOf linesA] scale).

(** [sessionA] after a query from the middle of [lineA] to a point off the
    linework. *)
Definition sessionA_failed : QgsTracer := after sessionA (P 5 0) (P 5 5).

(** The state in which the loop of the solver ends on [graphAB], from the
    far end of [lineA] (vertex 1) to the far end of [lineB] (vertex 2). *)
Definition solvedAB : Dijkstra :=
  default (dijkstraInit graphAB 1)
          (dijkstraLoop (dijkstraFuel graphAB) graphAB 2 (dijkstraInit graphAB 1)).

End Examples.

(** * Predicates of the statements *)

Section Predicates.

Context `{Geometry}.

(** A point is unresolved in [g]: no vertex matches it and it lies on no
    active edge. *)
Definition unresolved (g : QgsTracerGraph) (p : Point) : Prop :=
  point2vertex g p = None ∧ point2edge g p = None.

(** The start and end points of the lines, in the order the builder meets
    them. *)
Definition endpoints (lines : list LineString) : list Point :=
  lines ≫= λ l, [startPoint l; endPoint l].

Definition points (vs : list V) : list Point := v_pt <$> vs.

(** The hash [point2vertex] of [makeGraph] and the vertices made so far
    from the points [seen]: the hash is the inverse of the vertex
    sequence. *)
Record table_inv (vs : list V) (m : gmap Point nat) (seen : list Point) : Prop := {
  ti_size : length vs = size m;
  ti_lookup : ∀ p i, m !! p = Some i ↔ points vs !! i = Some p;
  ti_dom : dom m = list_to_set seen
}.

(** How often the edge [k] is incident to the vertex [i]: once for each of
    its two ends that is [i]. *)
Definition incidence (g : QgsTracerGraph) (i k : nat) : nat :=
  match g_e g !! k with
  | Some ed => (if decide (e_v1 ed = i) then 1 else 0) +
               (if decide (e_v2 ed = i) then 1 else 0)
  | None => 0
  end.

Definition occurrences (k : nat) (l : list nat) : nat := count_occ Nat.eq_dec l k.

(** The invariant of the cached graph between two queries: the ends of
    every edge are vertices of the graph, and the adjacency list of every
    vertex holds exactly the edges incident to it. *)
Record wf_graph (g : QgsTracerGraph) : Prop := {
  wf_endpoints : ∀ k ed, g_e g !! k = Some ed →
                 e_v1 ed < length (g_v g) ∧ e_v2 ed < length (g_v g);
  wf_adjacency : ∀ i vx k, g_v g !! i = Some vx →
                 occurrences k (v_edges vx) = incidence g i k
}.

(** No splice is pending. *)
Definition clean (g : QgsTracerGraph) : Prop :=
  g_inactiveEdges g = ∅ ∧ g_joinedVertices g = 0.

(** Two vertices at the same place whose adjacency lists hold the same
    edges, each as often, in any order. *)
Definition sameVertex (a b : V) : Prop :=
  v_pt a = v_pt b ∧ v_edges a ≡ₚ v_edges b.

(** The state of the loop of [makeGraph] after the lines [lines]. *)
Record builder_inv (lines : list LineString) (g : QgsTracerGraph)
    (m : gmap Point nat) : Prop := {
  bi_table : table_inv (g_v g) m (endpoints lines);
  bi_edges : Forall2 (λ ed line,
               e_coords ed = line ∧
               points (g_v g) !! e_v1 ed = Some (startPoint line) ∧
               points (g_v g) !! e_v2 ed = Some (endPoint line))
             (g_e g) lines;
  bi_wf : wf_graph g;
  bi_clean : clean g
}.

(** One edge of the graph as the solver follows it: from [u], through an
    entry of its adjacency list, to the other end of that edge. *)
Definition step (g : QgsTracerGraph) (u v : nat) : Prop :=
  ∃ ei ed, ei ∈ edgesOf g u ∧ g_e g !! ei = Some ed ∧ v = otherVertex ed u.

(** There is a path of edges from [a] to [b] (the empty one when they are
    the same vertex). *)
Definition connected (g : QgsTracerGraph) (a b : nat) : Prop := rtc (step g) a b.

(** The adjacency entries of the vertices not yet processed: a bound on
    the pushes still to come. *)
Fixpoint pending (F : list bool) (vs : list V) : nat :=
  match vs with
  | [] => 0
  | vx :: vs' => (if hd false F then 0 else length (v_edges vx)) + pending (tail F) vs'
  end.

Definition turnsLeft (g : QgsTracerGraph) (st : Dijkstra) : nat :=
  length (d_Q st) + pending (d_F st) (g_v g).

(** [g'] is the clean graph [g] with splices pending: the edges and the
    vertices of [g] come first, two edges and one vertex are added for
    each joined vertex, the adjacency lists of the vertices of [g] have
    lost the inactive edges, and a reference to an added edge is found
    only at an end of an inactive edge of [g]. *)
Record spliced (g g' : QgsTracerGraph) : Prop := {
  sp_e : take (length (g_e g)) (g_e g') = g_e g;
  sp_e_len : length (g_e g') = length (g_e g) + g_joinedVertices g' * 2;
  sp_v_len : length (g_v g') = length (g_v g) + g_joinedVertices g';
  sp_pt : ∀ i vx vx', g_v g !! i = Some vx → g_v g' !! i = Some vx' →
          v_pt vx' = v_pt vx;
  sp_adj : ∀ i vx' x, i < length (g_v g) → g_v g' !! i = Some vx' →
           x < length (g_e g) →
           occurrences x (v_edges vx') =
           if decide (x ∈ g_inactiveEdges g') then 0 else incidence g i x;
  sp_touch : ∀ i vx' x, i < length (g_v g) → g_v g' !! i = Some vx' →
             length (g_e g) ≤ x → x ∈ v_edges vx' →
             ∃ k, k ∈ g_inactiveEdges g' ∧ 0 < incidence g i k
}.

(** One of the edges [L] ends at the vertex [i]. *)
Definition touched (g : QgsTracerGraph) (i : nat) (L : list nat) : Prop :=
  Exists (λ k, 0 < incidence g i k) L.

End Predicates.

Section SessionPredicates.

Context `{Collaborators}.

(** Whether [initGraph] asks the renderer about the features of the layer
    [vl]: a render context is set, invisible features are not to be
    snapped to, the layer has a renderer, and the renderer filters. *)
Definition layerFilter (t : QgsTracer) (vl : Layer) : bool :=
  match mRenderContext t with
  | Some ctx =>
      if negb settingsDigitizingSnapInvisibleFeature && layerHasRenderer vl
      then rendererFilters vl ctx else false
  | None => false
  end.

(** The features of a layer [initGraph] takes linework from and counts:
    those with a geometry that the renderer, where it is asked, would
    render. *)
Definition qualifies (t : QgsTracer) (vl : Layer) (f : Feature) : bool :=
  hasGeometry f &&
  negb (layerFilter t vl &&
        negb (from_option (λ ctx, willRenderFeature vl ctx f) true (mRenderContext t))).

Definition layerFeatures (t : QgsTracer) (vl : Layer) : list Feature :=
  filter (λ f, qualifies t vl f)
    (getFeatures vl (mCRS t) (mTransformContext t)
       (if extentIsEmpty (mExtent t) then None else Some (mExtent t))).

Definition countedFeatures (t : QgsTracer) : list Feature :=
  mLayers t ≫= layerFeatures t.

Definition lineworkOf (fs : list Feature) : list LineString :=
  fs ≫= λ f, default [] (segmentize f).

(** The cap on the number of features is set and reached by [n] counted
    features. *)
Definition overCap (t : QgsTracer) (n : nat) : Prop :=
  mMaxFeatureCount t ≠ 0%Z ∧ 0 < n ∧ (mMaxFeatureCount t ≤ Z.of_nat n)%Z.

End SessionPredicates.

Section SolverPredicates.

Context `{Geometry}.

(** [x <= y] on distances: not [y < x]. *)
Definition wle (x y : W) : Prop := wltb y x = false.

(** What the solver needs of the arithmetic of distances: [<] is a strict
    total order, adding a weight is monotone, and adding the length of a
    line never makes a distance smaller. *)
Record ordered_weights : Prop := {
  ow_refl : ∀ x : W, wle x x;
  ow_trans : ∀ x y z : W, wle x y → wle y z → wle x z;
  ow_asym : ∀ x y : W, wltb x y = true → wle x y;
  ow_add_mono : ∀ x y w : W, wle x y → wle (wadd x w) (wadd y w);
  ow_add_nonneg : ∀ (x : W) (l : LineString), wle x (wadd x (length_of l));
  ow_zero_max : wle wzero wmax
}.

(** The edges end at vertices of the graph, and the adjacency lists refer
    to edges of the graph that end at their vertex: what keeps the solver
    inside its arrays. *)
Definition solver_ok (g : QgsTracerGraph) : Prop :=
  (∀ k ed, g_e g !! k = Some ed →
           e_v1 ed < length (g_v g) ∧ e_v2 ed < length (g_v g)) ∧
  (∀ u ei, ei ∈ edgesOf g u →
           ∃ ed, g_e g !! ei = Some ed ∧ (e_v1 ed = u ∨ e_v2 ed = u)).

(** A walk along edges from [a]: the list of the edge indices followed,
    each taken from the adjacency list of the vertex reached before it. *)
Inductive walk (g : QgsTracerGraph) (a : nat) : list nat → nat → Prop :=
  | walk_nil : walk g a [] a
  | walk_snoc es u ei ed :
      walk g a es u → ei ∈ edgesOf g u → g_e g !! ei = Some ed →
      walk g a (es ++ [ei]) (otherVertex ed u).

(** The distance the solver accumulates along a walk: the weights of its
    edges added one after the other, starting from zero. *)
Definition cost (g : QgsTracerGraph) (es : list nat) : W :=
  foldl (λ c ei, wadd c (from_option weight wzero (g_e g !! ei))) wzero es.

(** The vertex [v] is done with: it is marked as processed, or it is the
    vertex [cur] whose edges are being relaxed. *)
Definition closed (cur : option nat) (F : list bool) (v : nat) : Prop :=
  readF F v = true ∨ cur = Some v.

(** The state of the loop of [shortestPath] from the source [a], at the
    head of the loop ([cur = None]) or while the edges of the vertex [u]
    are relaxed ([cur = Some u], the edges [done] already seen).
    [order] lists the processed vertices, the latest first. *)
Record dijkstra_inv (g : QgsTracerGraph) (a : nat) (cur : option nat)
    (done : list nat) (order : list nat) (st : Dijkstra) : Prop := {
  di_len : length (d_D st) = length (g_v g) ∧ length (d_F st) = length (g_v g) ∧
           length (d_S st) = length (g_v g);
  di_Q : ∀ x d, (x, d) ∈ d_Q st →
         x < length (g_v g) ∧ wle (readD (d_D st) x) d ∧ wle d wmax ∧
         (x = a ∨ is_Some (readS (d_S st) x)) ∧
         ∃ es, walk g a es x ∧ readD (d_D st) x = cost g es;
  di_open : ∀ v, v < length (g_v g) → ¬ closed cur (d_F st) v →
            (v, readD (d_D st) v) ∈ d_Q st ∨ readD (d_D st) v = wmax;
  di_max : ∀ v, v < length (g_v g) → wle (readD (d_D st) v) wmax;
  di_src : a < length (g_v g) ∧ readD (d_D st) a = wzero;
  di_reached : ∀ v, v < length (g_v g) → closed cur (d_F st) v →
               v = a ∨ is_Some (readS (d_S st) v);
  di_opt : ∀ u es, u < length (g_v g) → closed cur (d_F st) u → walk g a es u →
           wle (readD (d_D st) u) (cost g es);
  di_edges : ∀ u ei ed, u < length (g_v g) → closed cur (d_F st) u →
             ei ∈ edgesOf g u → (cur = Some u → ei ∈ done) →
             g_e g !! ei = Some ed →
             wle (readD (d_D st) (otherVertex ed u))
                 (wadd (readD (d_D st) u) (weight ed));
  di_closedQ : ∀ v x d, v < length (g_v g) → closed cur (d_F st) v → (x, d) ∈ d_Q st →
               wle (readD (d_D st) v) d;
  di_cur : ∀ u, cur = Some u →
           u < length (g_v g) ∧ readF (d_F st) u = false ∧
           (∃ es, walk g a es u ∧ readD (d_D st) u = cost g es) ∧
           (∀ v, v < length (g_v g) → readF (d_F st) v = true →
                 wle (readD (d_D st) v) (readD (d_D st) u));
  di_pred : ∀ v ei, v < length (g_v g) → readS (d_S st) v = Some ei →
            ∃ ed, g_e g !! ei = Some ed ∧
                  otherVertex ed v < length (g_v g) ∧
                  otherVertex ed v ≠ v ∧
                  closed cur (d_F st) (otherVertex ed v) ∧
                  readD (d_D st) v
                  = wadd (readD (d_D st) (otherVertex ed v)) (weight ed) ∧
                  ei ∈ edgesOf g (otherVertex ed v) ∧
                  otherVertex ed (otherVertex ed v) = v;
  di_srcS : readS (d_S st) a = None;
  di_order : NoDup order ∧
             (∀ v, v ∈ order ↔ v < length (g_v g) ∧ readF (d_F st) v = true) ∧
             (∀ pre v post ei ed, order = pre ++ v :: post →
                readS (d_S st) v = Some ei → g_e g !! ei = Some ed →
                otherVertex ed v ∈ post)
}.

(** The [path] list of [shortestPath]: the edges [S[u]] met by the loop
    that walks back from the target, in that order ([path << S[u]]).
    [None]: the chain does not end within [fuel] edges. *)
Fixpoint walkBackPath (fuel : nat) (g : QgsTracerGraph) (S : list (option nat))
    (u : nat) : option (list nat) :=
  match readS S u with
  | None => Some []
  | Some ei =>
      match fuel with
      | 0 => None
      | S fuel' =>
          match g_e g !! ei with
          | None => Some []
          | Some ed => (λ rest, ei :: rest) <$> walkBackPath fuel' g S (otherVertex ed u)
          end
      end
  end.

End SolverPredicates.

(** * Properties *)

(** ** The session: setters, unresolved points, the trivial query, the offset *)

Section SessionFacts.

Context `{Collaborators}.

Lemma init_offset (t : QgsTracer) :
  mOffset (init t).1 = mOffset t ∧
  mOffsetSegments (init t).1 = mOffsetSegments t ∧
  mOffsetJoinStyle (init t).1 = mOffsetJoinStyle t ∧
  mOffsetMiterLimit (init t).1 = mOffsetMiterLimit t.
Proof.
  unfold init, initGraph. destruct (mGraph t); [done|].
  destruct (foldl _ _ _) as [[mpl n]|]; done.
Qed.

Lemma init_built (t : QgsTracer) (g : QgsTracerGraph) :
  mGraph t = Some g → init t = (t, true).
Proof. unfold init. by intros ->. Qed.

Lemma pointInGraph_unresolved (g : QgsTracerGraph) (p : Point) :
  unresolved g p → pointInGraph g p = (g, None).
Proof.
  intros [Hv He]. unfold pointInGraph, joinVertexToGraph. by rewrite Hv, He.
Qed.

Lemma reverse_short {A} (l : list A) : length l < 2 → reverse l = l.
Proof. destruct l as [|a [|b l]]; simpl; intros; try done. lia. Qed.

Lemma isEmpty_false (l : LineString) : l ≠ [] → isEmpty l = false.
Proof. intros. unfold isEmpty. by rewrite bool_decide_eq_false. Qed.

(** The first turn of the solver when source and target are one vertex:
    the source is popped, found to be the target, and the loop is left. *)
Lemma readS_replicate (n i : nat) : readS (replicate n None) i = None.
Proof.
  unfold readS. destruct (replicate n None !! i) as [x|] eqn:E; [|done].
  apply lookup_replicate in E as [-> _]. done.
Qed.

Lemma walkBack_no_predecessor (fuel : nat) (g : QgsTracerGraph)
    (S : list (option nat)) (u : nat) (points : LineString) :
  readS S u = None → walkBack fuel g S u points = Some points.
Proof. intros E. destruct fuel; simpl; by rewrite E. Qed.

Lemma shortestPath_same (g : QgsTracerGraph) (i : nat) :
  shortestPath g (Some i) (Some i) = Some [].
Proof.
  unfold shortestPath, dijkstraFuel, dijkstraInit. simpl.
  rewrite decide_True by done. simpl.
  rewrite decide_True by done.
  rewrite walkBack_no_predecessor by apply readS_replicate. done.
Qed.

(** C10. The offset setters ([setOffset], [setOffsetParameters]) keep the
    cached graph and only store the values later queries read, while
    [setLayers] and [setExtent] called with a changed value, and
    [setDestinationCrs] and [setRenderContext], discard the cached graph
    (the session is back in its empty state). *)
Theorem setters_and_cached_graph (t : QgsTracer) (offset miterLimit : W)
    (quadSegments joinStyle : Z) (layers : list Layer) (crs : Crs)
    (context : TransformContext) (renderContext : RenderContext) (extent : Extent) :
  layers ≠ mLayers t →
  extent ≠ mExtent t →
  (mGraph (setOffset t offset) = mGraph t ∧
   mOffset (setOffset t offset) = offset) ∧
  (mGraph (setOffsetParameters t quadSegments joinStyle miterLimit) = mGraph t ∧
   offsetParameters (setOffsetParameters t quadSegments joinStyle miterLimit)
     = (quadSegments, joinStyle, miterLimit)) ∧
  mGraph (setLayers t layers) = None ∧
  mGraph (setDestinationCrs t crs context) = None ∧
  mGraph (setRenderContext t renderContext) = None ∧
  mGraph (setExtent t extent) = None.
Proof.
  intros Hl He. unfold setLayers, setExtent.
  rewrite decide_False by done. rewrite decide_False by done.
  repeat split.
Qed.

(** C5, as the code has it.  For every point [p] that resolves to an
    existing vertex of the graph, [findShortestPath p p] returns the empty
    line with the error [ErrNoPath] (not [ErrNone]): the solver is called
    with the vertex as source and target, returns no point, and an empty
    result is always reported as [ErrNoPath]. *)
Theorem findShortestPath_same_point (t : QgsTracer) (g : QgsTracerGraph)
    (p : Point) (i : nat) :
  mGraph (init t).1 = Some g →
  point2vertex g p = Some i →
  findShortestPath t p p
  = Some (mkOutcome (withGraph (init t).1 (Some (resetGraph g))) [] ErrNoPath
                    [CallShortestPath i i; CallResetGraph]).
Proof.
  intros Hg Hv. unfold findShortestPath. rewrite Hg.
  unfold pointInGraph. rewrite Hv. cbv beta iota zeta.
  rewrite Hv. cbv beta iota zeta.
  rewrite shortestPath_same. done.
Qed.

(** C6. When the first query point is unresolved in the cached graph (no
    vertex matches it and it lies on no active edge), [findShortestPath]
    returns the empty line with [ErrPoint1]; when the first point resolves
    and the second is unresolved in the graph it is looked up in, which is
    the graph left by the resolution of the first point, the empty line
    with [ErrPoint2]; in both cases without any call of the solver. *)
Theorem findShortestPath_unresolved (t : QgsTracer) (g : QgsTracerGraph)
    (p1 p2 : Point) :
  mGraph (init t).1 = Some g →
  (unresolved g p1 →
   findShortestPath t p1 p2
   = Some (mkOutcome (withGraph (init t).1 (Some (pointInGraph g p2).1))
                     [] ErrPoint1 [])) ∧
  (∀ g1 a, pointInGraph g p1 = (g1, Some a) → unresolved g1 p2 →
   findShortestPath t p1 p2
   = Some (mkOutcome (withGraph (init t).1 (Some g1)) [] ErrPoint2 [])).
Proof.
  intros Hg. split.
  - intros Hu. unfold findShortestPath. rewrite Hg.
    rewrite (pointInGraph_unresolved _ _ Hu).
    by destruct (pointInGraph g p2) as [g2 v2].
  - intros g1 a H1 Hu. unfold findShortestPath. rewrite Hg, H1.
    by rewrite (pointInGraph_unresolved _ _ Hu).
Qed.

(** C9. When the offset is not zero and the solver found a non-empty raw
    path, that path is handed to the offset operation; when the operation
    yields no line string the raw path is returned unchanged; otherwise its
    output is returned, reversed exactly when the sum of the distances from
    its start to [p2] and from its end to [p1] is less than the sum of the
    distances from its start to [p1] and from its end to [p2]. *)
Theorem findShortestPath_offset (t : QgsTracer) (g g1 g2 : QgsTracerGraph)
    (p1 p2 : Point) (a b : nat) (raw : LineString) :
  mGraph (init t).1 = Some g →
  pointInGraph g p1 = (g1, Some a) →
  pointInGraph g1 p2 = (g2, Some b) →
  shortestPath g2 (Some a) (Some b) = Some raw →
  raw ≠ [] →
  mOffset t ≠ wzero →
  ∃ o, findShortestPath t p1 p2 = Some o ∧
       CallOffsetCurve raw ∈ o_calls o ∧
       match offsetCurve raw (mOffset t) (mOffsetSegments t) (mOffsetJoinStyle t)
                         (mOffsetMiterLimit t) with
       | None => o_points o = raw
       | Some out =>
           o_points o =
           if wltb (wadd (distance (startPoint out) p2) (distance (endPoint out) p1))
                   (wadd (distance (startPoint out) p1) (distance (endPoint out) p2))
           then reverse out else out
       end.
Proof.
  intros Hg H1 H2 Hsp Hraw Hoff.
  destruct (init_offset t) as (Eo & Es & Ej & Em).
  unfold findShortestPath. rewrite Hg, H1, H2, Hsp. simpl.
  rewrite Eo. rewrite (isEmpty_false raw Hraw).
  rewrite (bool_decide_eq_false_2 _ Hoff). simpl.
  eexists. split; [reflexivity|]. simpl. split.
  - set_solver.
  - unfold applyOffset. simpl. rewrite Eo, Es, Ej, Em.
    destruct (offsetCurve raw _ _ _ _) as [out|]; [|done].
    case_bool_decide as Hn; [done|].
    rewrite reverse_short by (unfold numPoints in Hn; lia).
    by destruct (wltb _ _).
Qed.

End SessionFacts.

(** ** The builder: vertices are the distinct end points of the lines *)

Section BuilderFacts.

Context `{Geometry}.

Lemma points_app (vs ws : list V) : points (vs ++ ws) = points vs ++ points ws.
Proof. unfold points. by rewrite fmap_app. Qed.

Lemma points_length (vs : list V) : length (points vs) = length vs.
Proof. unfold points. by rewrite length_fmap. Qed.

Lemma points_addEdgeRef (eIdx i : nat) (vs : list V) :
  points (alter (addEdgeRef eIdx) i vs) = points vs.
Proof.
  unfold points. rewrite (list_fmap_alter v_pt (addEdgeRef eIdx) id).
  - by apply list_alter_id.
  - by apply Forall_forall.
Qed.

Lemma table_inv_empty : table_inv [] ∅ [].
Proof.
  split; simpl.
  - by rewrite map_size_empty.
  - intros p i. rewrite lookup_empty. unfold points. simpl. by rewrite lookup_nil.
  - by rewrite dom_empty_L.
Qed.

Lemma getOrAddVertex_inv (vs vs' : list V) (m m' : gmap Point nat)
    (seen : list Point) (p : Point) (i : nat) :
  table_inv vs m seen →
  getOrAddVertex vs m p = (vs', m', i) →
  table_inv vs' m' (seen ++ [p]) ∧ points vs' !! i = Some p ∧
  (∃ extra, vs' = vs ++ extra ∧ Forall (λ vx, v_edges vx = []) extra).
Proof.
  intros [Hsize Hlook Hdom]. unfold getOrAddVertex.
  destruct (m !! p) as [j|] eqn:Hp; intros [= <- <- <-].
  - split_and!.
    + split; [done..|].
      rewrite list_to_set_app_L, <- Hdom. simpl.
      apply elem_of_dom_2 in Hp. rewrite (right_id_L ∅ (∪)).
      rewrite (comm_L (∪)). symmetry. apply subseteq_union_1_L.
      by apply singleton_subseteq_l.
    + by apply Hlook.
    + exists []. by rewrite app_nil_r.
  - split_and!.
    + split.
      * rewrite length_app, map_size_insert_None by done. simpl. lia.
      * intros q k. rewrite points_app. simpl.
        destruct (decide (q = p)) as [->|Hq].
        -- rewrite lookup_insert_eq. split.
           ++ intros [= <-]. rewrite lookup_app_r by (rewrite points_length; lia).
              by rewrite points_length, Nat.sub_diag.
           ++ intros Hk. apply lookup_app_Some in Hk as [Hk|[Hge Hk]].
              ** apply Hlook in Hk. congruence.
              ** rewrite points_length in Hge, Hk.
                 destruct (k - length vs) as [|d] eqn:Hd; [|done].
                 f_equal. lia.
        -- rewrite lookup_insert_ne by done. rewrite Hlook. split.
           ++ intros Hk. by apply lookup_app_l_Some.
           ++ intros Hk. apply lookup_app_Some in Hk as [Hk|[Hge Hk]]; [done|].
              destruct (k - length (points vs)) as [|d]; simpl in Hk; [|done].
              congruence.
      * rewrite dom_insert_L, list_to_set_app_L, Hdom. simpl.
        rewrite (right_id_L ∅ (∪)). apply (comm_L (∪)).
    + rewrite points_app, lookup_app_r by (rewrite points_length; lia).
      by rewrite points_length, Nat.sub_diag.
    + eexists. split; [done|]. by repeat constructor.
Qed.

End BuilderFacts.

(** ** The splicer: a splice followed by the revert *)

Section SplicerFacts.

Context `{Geometry}.

Lemma occurrences_app (x : nat) (l k : list nat) :
  occurrences x (l ++ k) = occurrences x l + occurrences x k.
Proof. apply count_occ_app. Qed.

Lemma occurrences_filter (P : nat → Prop) `{!∀ x, Decision (P x)} (x : nat) (l : list nat) :
  occurrences x (filter P l) = if decide (P x) then occurrences x l else 0.
Proof.
  unfold occurrences. induction l as [|y l IH]; simpl.
  - by destruct (decide (P x)).
  - rewrite filter_cons. destruct (decide (P y)) as [Hy|Hy]; simpl;
      destruct (Nat.eq_dec y x) as [->|Hne]; rewrite ?IH;
      destruct (decide (P x)); try done.
Qed.

Lemma occurrences_insert (x a b i : nat) (l : list nat) :
  l !! i = Some a →
  occurrences x (<[i := b]> l) + (if decide (a = x) then 1 else 0)
  = occurrences x l + (if decide (b = x) then 1 else 0).
Proof.
  unfold occurrences. revert i. induction l as [|y l IH]; intros [|i] Hi; simplify_eq/=.
  - destruct (Nat.eq_dec b x), (Nat.eq_dec a x), (decide (a = x)), (decide (b = x)); lia.
  - specialize (IH i Hi). destruct (Nat.eq_dec y x); lia.
Qed.

Lemma occurrences_pos (x : nat) (l : list nat) : 0 < occurrences x l ↔ x ∈ l.
Proof.
  unfold occurrences. rewrite list_elem_of_In.
  rewrite (count_occ_In Nat.eq_dec). unfold gt. done.
Qed.

Lemma indexOf_Some (x i : nat) (l : list nat) : indexOf x l = Some i → l !! i = Some x.
Proof.
  unfold indexOf. intros ([j y] & Hf & [= <-])%fmap_Some.
  apply list_find_Some in Hf as (Hl & -> & _). done.
Qed.

Lemma indexOf_None (x : nat) (l : list nat) : indexOf x l = None → x ∉ l.
Proof.
  unfold indexOf. intros Hf%fmap_None.
  apply list_find_None in Hf. rewrite Forall_forall in Hf.
  intros Hx. by apply (Hf x).
Qed.

(** The effect of [replaceEdgeRef] on the number of occurrences, when the
    edge replaced is in the list. *)
Lemma occurrences_replaceEdgeRef (x eIdx newIdx : nat) (vx : V) :
  eIdx ∈ v_edges vx →
  occurrences x (v_edges (replaceEdgeRef eIdx newIdx vx))
    + (if decide (eIdx = x) then 1 else 0)
  = occurrences x (v_edges vx) + (if decide (newIdx = x) then 1 else 0).
Proof.
  intros Hin. unfold replaceEdgeRef.
  destruct (indexOf eIdx (v_edges vx)) as [i|] eqn:Hi.
  - simpl. apply occurrences_insert. by apply indexOf_Some.
  - by apply indexOf_None in Hi.
Qed.

Lemma occurrences_restoreEdgeRef (x count eIdx : nat) (vx : V) :
  occurrences x (v_edges (restoreEdgeRef count eIdx vx))
  = (if decide (x < count) then occurrences x (v_edges vx) else 0)
    + (if decide (eIdx = x) then 1 else 0).
Proof.
  unfold restoreEdgeRef. simpl. rewrite occurrences_app, occurrences_filter.
  by f_equal.
Qed.

Lemma replaceEdgeRef_pt (eIdx newIdx : nat) (vx : V) :
  v_pt (replaceEdgeRef eIdx newIdx vx) = v_pt vx.
Proof. unfold replaceEdgeRef. by destruct (indexOf _ _). Qed.

Lemma point2edge_from_Some (inactive : gset nat) (p : Point) (i k after : nat)
    (es : list E) :
  point2edge_from inactive p i es = Some (k, after) →
  ∃ ed, i ≤ k ∧ es !! (k - i) = Some ed ∧ (k ∉ inactive) ∧
        closestSegment (e_coords ed) p = (wzero, after).
Proof.
  revert i. induction es as [|ed es IH]; intros i; simpl; [done|].
  destruct (decide (i ∈ inactive)) as [Hin|Hin].
  - intros (ed' & Hle & Hl & Hk)%IH. exists ed'. split; [lia|]. split; [|done].
    replace (k - i) with (S (k - S i)) by lia. done.
  - destruct (closestSegment (e_coords ed) p) as [dist a] eqn:Hc.
    destruct (decide (dist = wzero)) as [->|Hd].
    + intros [= <- <-]. exists ed. rewrite Nat.sub_diag. done.
    + intros (ed' & Hle & Hl & Hk)%IH. exists ed'. split; [lia|]. split; [|done].
      replace (k - i) with (S (k - S i)) by lia. done.
Qed.

(** [point2edge] answers with an edge of the graph that is not inactive. *)
Lemma point2edge_Some (g : QgsTracerGraph) (p : Point) (k after : nat) :
  point2edge g p = Some (k, after) →
  ∃ ed, g_e g !! k = Some ed ∧ (k ∉ g_inactiveEdges g) ∧
        closestSegment (e_coords ed) p = (wzero, after).
Proof.
  intros (ed & _ & Hl & Hk)%point2edge_from_Some.
  rewrite Nat.sub_0_r in Hl. by exists ed.
Qed.

Lemma lookup_alter_cases {A} (f : A → A) (j i : nat) (l : list A) :
  alter f j l !! i = (if decide (j = i) then f else id) <$> l !! i.
Proof.
  destruct (decide (j = i)) as [->|Hne].
  - apply list_lookup_alter_eq.
  - rewrite list_lookup_alter_ne by done. by destruct (l !! i).
Qed.

(** In a well-formed graph the adjacency lists refer to edges of the
    graph only. *)
Lemma wf_occurrences_bound (g : QgsTracerGraph) (i x : nat) (vx : V) :
  wf_graph g → g_v g !! i = Some vx → length (g_e g) ≤ x →
  occurrences x (v_edges vx) = 0.
Proof.
  intros Hwf Hi Hx. rewrite (wf_adjacency g Hwf i vx x Hi).
  unfold incidence. by rewrite lookup_ge_None_2.
Qed.

(** What [joinVertexToGraph] builds when [point2edge] finds the edge
    [eIdx]. *)
Lemma joinVertexToGraph_Some (g : QgsTracerGraph) (p : Point) (eIdx after : nat) (ed : E) :
  point2edge g p = Some (eIdx, after) →
  g_e g !! eIdx = Some ed →
  joinVertexToGraph g p =
  (mkGraph
     (alter (replaceEdgeRef eIdx (length (g_e g) + 1)) (e_v2 ed)
        (alter (replaceEdgeRef eIdx (length (g_e g))) (e_v1 ed) (g_v g))
      ++ [mkV p [length (g_e g); length (g_e g) + 1]])
     (g_e g ++ [mkE (e_v1 ed) (length (g_v g)) (splitAt (e_coords ed) p after).1;
                mkE (length (g_v g)) (e_v2 ed) (splitAt (e_coords ed) p after).2])
     ({[eIdx]} ∪ g_inactiveEdges g) (S (g_joinedVertices g)),
   Some (length (g_v g))).
Proof.
  intros Hp He. unfold joinVertexToGraph. rewrite Hp, He.
  by destruct (splitAt (e_coords ed) p after) as [out1 out2].
Qed.



End SplicerFacts.

(** ** The builder keeps its invariant *)

Section BuilderInvariant.

Context `{Geometry}.

Lemma table_inv_points (vs vs' : list V) (m : gmap Point nat) (seen : list Point) :
  points vs' = points vs → table_inv vs m seen → table_inv vs' m seen.
Proof.
  intros Hp [Hsize Hlook Hdom]. split; [|by rewrite Hp|done].
  by rewrite <- points_length, Hp, points_length.
Qed.

Lemma endpoints_snoc (lines : list LineString) (line : LineString) :
  endpoints (lines ++ [line]) = (endpoints lines ++ [startPoint line]) ++ [endPoint line].
Proof.
  unfold endpoints. rewrite bind_app. simpl. by rewrite <- app_assoc.
Qed.

Lemma occurrences_addEdgeRef (x eIdx : nat) (vx : V) :
  occurrences x (v_edges (addEdgeRef eIdx vx))
  = occurrences x (v_edges vx) + (if decide (eIdx = x) then 1 else 0).
Proof. unfold addEdgeRef. simpl. by rewrite occurrences_app. Qed.

Lemma incidence_app_l (g : QgsTracerGraph) (vs : list V) (es : list E)
    (i k : nat) (s : gset nat) (j : nat) :
  k < length (g_e g) →
  incidence (mkGraph vs (g_e g ++ es) s j) i k = incidence g i k.
Proof. intros Hk. unfold incidence. simpl. by rewrite lookup_app_l. Qed.

(** No edge of a well-formed graph ends at an index beyond its vertices. *)
Lemma incidence_beyond (g : QgsTracerGraph) (i k : nat) :
  wf_graph g → length (g_v g) ≤ i → incidence g i k = 0.
Proof.
  intros Hwf Hi. unfold incidence. destruct (g_e g !! k) as [ed|] eqn:He; [|done].
  destruct (wf_endpoints g Hwf k ed He).
  rewrite !decide_False by lia. done.
Qed.

Lemma makeGraph_step_inv (lines : list LineString) (g g' : QgsTracerGraph)
    (m m' : gmap Point nat) (line : LineString) :
  builder_inv lines g m →
  makeGraph_step (g, m) line = (g', m') →
  builder_inv (lines ++ [line]) g' m'.
Proof.
  intros [Htab Hedges Hwf Hclean]. unfold makeGraph_step.
  destruct (getOrAddVertex (g_v g) m (startPoint line)) as [[vs1 m1] v1] eqn:G1.
  destruct (getOrAddVertex vs1 m1 (endPoint line)) as [[vs2 m2] v2] eqn:G2.
  intros [= <- <-].
  destruct (getOrAddVertex_inv _ _ _ _ _ _ _ Htab G1) as (T1 & P1 & extra1 & -> & X1).
  destruct (getOrAddVertex_inv _ _ _ _ _ _ _ T1 G2) as (T2 & P2 & extra2 & -> & X2).
  rewrite length_app. simpl.
  replace (length (g_e g) + 1 - 1) with (length (g_e g)) by lia.
  set (n := length (g_e g)).
  set (vs2 := (g_v g ++ extra1) ++ extra2) in *.
  assert (Hpts : points (alter (addEdgeRef n) v2 (alter (addEdgeRef n) v1 vs2)) = points vs2)
    by (by rewrite !points_addEdgeRef).
  assert (P1' : points vs2 !! v1 = Some (startPoint line)).
  { unfold vs2. rewrite points_app. by apply lookup_app_l_Some. }
  split; simpl.
  - rewrite endpoints_snoc. by apply (table_inv_points vs2).
  - apply Forall2_app.
    + eapply Forall2_impl; [exact Hedges|]. simpl.
      intros ed l (Hc & Hs & He). rewrite Hpts. unfold vs2. rewrite !points_app.
      split_and!; try done; by do 2 apply lookup_app_l_Some.
    + constructor; [|constructor]. simpl. by rewrite Hpts.
  - assert (Hv1 : v1 < length vs2)
      by (rewrite <- points_length; by eapply lookup_lt_Some).
    assert (Hv2 : v2 < length vs2)
      by (rewrite <- points_length; by eapply lookup_lt_Some).
    split; simpl.
    + intros k ed. rewrite !length_alter.
      intros [Hk|[Hge Hk]]%lookup_app_Some.
      * destruct (wf_endpoints g Hwf k ed Hk). unfold vs2. rewrite !length_app. lia.
      * destruct (k - length (g_e g)) as [|d]; simpl in Hk.
        -- injection Hk as <-. simpl. done.
        -- by rewrite lookup_nil in Hk.
    + intros i vx k. rewrite !lookup_alter_cases.
      intros (w & Hw & ->)%fmap_Some. apply fmap_Some in Hw as (y & Hy & ->).
      assert (Hold : occurrences k (v_edges y) = incidence g i k).
      { unfold vs2 in Hy. rewrite <- app_assoc in Hy.
        apply lookup_app_Some in Hy as [Hy|[Hge Hy]].
        - by apply (wf_adjacency g Hwf).
        - rewrite incidence_beyond by done.
          apply list_elem_of_lookup_2 in Hy.
          assert (Hex : Forall (λ vx, v_edges vx = []) (extra1 ++ extra2))
            by (by apply Forall_app).
          rewrite Forall_forall in Hex. by rewrite (Hex y Hy). }
      assert (Hnew : incidence g i n = 0).
      { unfold incidence. by rewrite lookup_ge_None_2. }
      assert (Hinc : incidence
                (mkGraph (alter (addEdgeRef n) v2 (alter (addEdgeRef n) v1 vs2))
                   (g_e g ++ [mkE v1 v2 line]) (g_inactiveEdges g) (g_joinedVertices g)) i k
              = incidence g i k + (if decide (n = k)
                                   then (if decide (v1 = i) then 1 else 0) +
                                        (if decide (v2 = i) then 1 else 0)
                                   else 0)).
      { destruct (decide (k < n)) as [Hlt|Hge].
        - rewrite incidence_app_l by done. rewrite decide_False by lia. lia.
        - unfold incidence at 1 2. simpl.
          rewrite lookup_app_r by (fold n; lia). fold n.
          rewrite (lookup_ge_None_2 (g_e g)) by (fold n; lia).
          destruct (decide (n = k)) as [<-|Hne].
          + by rewrite Nat.sub_diag.
          + destruct (k - n) as [|d] eqn:Hd; [lia|]. done. }
      rewrite Hinc, <- Hold.
      destruct (decide (v1 = i)), (decide (v2 = i)); cbv beta iota; unfold id;
        rewrite ?occurrences_addEdgeRef; repeat case_decide; lia.
  - done.
Qed.

Lemma builder_inv_empty : builder_inv [] emptyGraph ∅.
Proof.
  split; simpl.
  - apply table_inv_empty.
  - constructor.
  - split; simpl.
    + intros k ed. by rewrite lookup_nil.
    + intros i vx k. by rewrite lookup_nil.
  - done.
Qed.

Lemma makeGraph_state_inv (lines : list LineString) :
  builder_inv lines (makeGraph_state lines).1 (makeGraph_state lines).2.
Proof.
  induction lines as [|line lines IH] using rev_ind.
  - apply builder_inv_empty.
  - unfold makeGraph_state in *. rewrite foldl_snoc.
    destruct (foldl _ _ lines) as [g m]. simpl in IH.
    destruct (makeGraph_step (g, m) line) as [g' m'] eqn:Hstep. simpl.
    by eapply makeGraph_step_inv.
Qed.

(** The graph the builder hands over is well-formed and has no splice
    pending. *)
Lemma makeGraph_wf (lines : list LineString) :
  wf_graph (makeGraph lines) ∧ clean (makeGraph lines).
Proof. destruct (makeGraph_state_inv lines). by split. Qed.

(** The builder makes one vertex for each distinct end point and one edge
    for each line. *)
Lemma makeGraph_counts (lines : list LineString) :
  length (g_v (makeGraph lines)) = size (list_to_set (endpoints lines) : gset Point) ∧
  length (g_e (makeGraph lines)) = length lines.
Proof.
  destruct (makeGraph_state_inv lines) as [[Hsize _ Hdom] Hedges _ _]. split.
  - unfold makeGraph. rewrite Hsize, <- Hdom. by rewrite size_dom.
  - unfold makeGraph. by eapply Forall2_length.
Qed.

Lemma endpoints_length (lines : list LineString) :
  length (endpoints lines) = 2 * length lines.
Proof.
  unfold endpoints. induction lines as [|l lines IH]; [done|].
  rewrite bind_cons, length_app, IH. simpl. lia.
Qed.

(** C3, as the code has it.  For every collection of N lines whose 2N end
    points (the start and the end of each line) are pairwise distinct, the
    graph made by the builder has exactly 2N vertices, one for each end
    point whatever the number of points of the lines, and exactly N
    edges. *)
Theorem makeGraph_disjoint_lines (lines : list LineString) :
  NoDup (endpoints lines) →
  length (g_v (makeGraph lines)) = 2 * length lines ∧
  length (g_e (makeGraph lines)) = length lines.
Proof.
  intros Hnd. destruct (makeGraph_counts lines) as [Hv He]. split; [|done].
  rewrite Hv, size_list_to_set by done. apply endpoints_length.
Qed.

(** No two vertices of the graph made by the builder are at the same
    point. *)
Lemma makeGraph_vertices_NoDup (lines : list LineString) :
  NoDup (points (g_v (makeGraph lines))).
Proof.
  destruct (makeGraph_state_inv lines) as [[_ Hlook _] _ _ _].
  apply NoDup_alt. intros i j x Hi Hj.
  apply Hlook in Hi, Hj. congruence.
Qed.

(** The edge made for the line number [i]. *)
Lemma makeGraph_edge (lines : list LineString) (i : nat) (line : LineString) :
  lines !! i = Some line →
  ∃ ed, g_e (makeGraph lines) !! i = Some ed ∧ e_coords ed = line ∧
        points (g_v (makeGraph lines)) !! e_v1 ed = Some (startPoint line) ∧
        points (g_v (makeGraph lines)) !! e_v2 ed = Some (endPoint line).
Proof.
  intros Hl. destruct (makeGraph_state_inv lines) as [_ Hedges _ _].
  destruct (Forall2_lookup_r _ _ _ _ _ Hedges Hl) as (ed & He & Hed).
  by exists ed.
Qed.

Lemma same_vertex_iff (lines : list LineString) (a b : nat) (p q : Point) :
  points (g_v (makeGraph lines)) !! a = Some p →
  points (g_v (makeGraph lines)) !! b = Some q →
  a = b ↔ p = q.
Proof.
  intros Ha Hb. split.
  - intros ->. congruence.
  - intros ->. by eapply (NoDup_lookup _ _ _ _ (makeGraph_vertices_NoDup lines)).
Qed.

(** C4, as the code has it.  For every two input lines, an end of the one
    and an end of the other are attached to one and the same vertex
    exactly when the two end points are identical (equal as keys of the
    hash of the builder); end points that differ, by however little, get
    a vertex each.  No two vertices of the graph are at the same point. *)
Theorem makeGraph_shared_endpoint (lines : list LineString) (i j : nat)
    (li lj : LineString) :
  lines !! i = Some li →
  lines !! j = Some lj →
  ∃ ei ej,
    g_e (makeGraph lines) !! i = Some ei ∧
    g_e (makeGraph lines) !! j = Some ej ∧
    (e_v1 ei = e_v1 ej ↔ startPoint li = startPoint lj) ∧
    (e_v1 ei = e_v2 ej ↔ startPoint li = endPoint lj) ∧
    (e_v2 ei = e_v1 ej ↔ endPoint li = startPoint lj) ∧
    (e_v2 ei = e_v2 ej ↔ endPoint li = endPoint lj) ∧
    NoDup (points (g_v (makeGraph lines))).
Proof.
  intros Hi Hj.
  destruct (makeGraph_edge lines i li Hi) as (ei & Hei & _ & Hi1 & Hi2).
  destruct (makeGraph_edge lines j lj Hj) as (ej & Hej & _ & Hj1 & Hj2).
  exists ei, ej. split_and!; try done; eauto using same_vertex_iff.
  apply makeGraph_vertices_NoDup.
Qed.

End BuilderInvariant.

(** ** The solver: the loop ends, and finds nothing where nothing is connected *)

Section SolverFacts.

Context `{Geometry}.

Lemma topIndex_from_lookup (q r : list DijkstraQueueItem) (bi i j : nat)
    (b x : DijkstraQueueItem) :
  r = drop i q →
  q !! bi = Some b →
  topIndex_from bi b i r = (j, x) →
  q !! j = Some x.
Proof.
  revert bi b i. induction r as [|y r IH]; intros bi b i Hr Hb; simpl.
  - by intros [= <- <-].
  - assert (Hy : q !! i = Some y).
    { pose proof (lookup_drop q i 0) as Hd. rewrite <- Hr, Nat.add_0_r in Hd.
      by rewrite <- Hd. }
    assert (Hr' : r = drop (S i) q).
    { replace (S i) with (i + 1) by lia. by rewrite <- drop_drop, <- Hr. }
    destruct (comp b y); eauto.
Qed.

(** [popTop] takes one of the items of the queue out of it. *)
Lemma popTop_Some (q q' : list DijkstraQueueItem) (x : DijkstraQueueItem) :
  popTop q = Some (x, q') →
  x ∈ q ∧ length q = S (length q') ∧ (∀ P, Forall P q → Forall P q').
Proof.
  destruct q as [|y r]; simpl; [done|].
  destruct (topIndex_from 0 y 1 r) as [j b] eqn:Ht. intros [= <- <-].
  pose proof (topIndex_from_lookup (y :: r) r 0 1 j y b eq_refl eq_refl Ht) as Hj.
  split_and!.
  - by eapply list_elem_of_lookup_2.
  - rewrite length_delete by eauto. simpl.
    apply lookup_lt_Some in Hj. simpl in Hj. lia.
  - intros P HP. by apply Forall_delete.
Qed.

Lemma popTop_None (q : list DijkstraQueueItem) : popTop q = None → q = [].
Proof.
  destruct q as [|y r]; simpl; [done|].
  by destruct (topIndex_from 0 y 1 r).
Qed.

Lemma pending_insert (F : list bool) (vs : list V) (u : nat) :
  length F = length vs →
  readF F u = false →
  pending (<[u := true]> F) vs + length (default [] (v_edges <$> vs !! u))
  = pending F vs.
Proof.
  unfold readF. revert F u. induction vs as [|vx vs IH]; intros F u Hlen Hu.
  - simpl. by destruct u.
  - destruct F as [|f F]; [done|]. destruct u as [|u]; simpl in *.
    + subst f. lia.
    + rewrite <- (IH F u) by auto with lia. lia.
Qed.

Lemma pending_replicate (vs : list V) :
  pending (replicate (length vs) false) vs
  = sum_list (map (λ vx, length (v_edges vx)) vs).
Proof. induction vs as [|vx vs IH]; simpl; [done|]. by rewrite IH. Qed.

(** One turn of the [for] loop over the adjacency entries of [u] leaves
    the flags and [u] alone and pushes at most one item. *)
Lemma relaxEdge_frame (g : QgsTracerGraph) (u ei : nat) (st : Dijkstra) :
  d_F (relaxEdge g u st ei) = d_F st ∧
  d_u (relaxEdge g u st ei) = d_u st ∧
  length (d_Q (relaxEdge g u st ei)) ≤ S (length (d_Q st)).
Proof.
  unfold relaxEdge.
  destruct (g_e g !! ei) as [ed|] eqn:He; [|split_and!; auto].
  destruct (negb _ && _); [|split_and!; auto]. simpl.
  split_and!; try done.
  unfold push. rewrite length_app. simpl. lia.
Qed.

Lemma relax_fold_frame (g : QgsTracerGraph) (u : nat) (edges : list nat) (st : Dijkstra) :
  d_F (foldl (relaxEdge g u) st edges) = d_F st ∧
  d_u (foldl (relaxEdge g u) st edges) = d_u st ∧
  length (d_Q (foldl (relaxEdge g u) st edges)) ≤ length (d_Q st) + length edges.
Proof.
  revert st. induction edges as [|ei edges IH]; intros st; simpl.
  - split_and!; try done. lia.
  - destruct (relaxEdge_frame g u ei st) as (HF1 & Hu1 & Hl1).
    destruct (IH (relaxEdge g u st ei)) as (HF & Hu' & Hlen).
    split_and!; try congruence. lia.
Qed.

(** Every item pushed for an adjacency entry of [u] is one step away from
    [u]. *)
Lemma relaxEdge_connected (g : QgsTracerGraph) (a u ei : nat) (st : Dijkstra) :
  ei ∈ edgesOf g u →
  connected g a u →
  Forall (λ x, connected g a x.1) (d_Q st) →
  Forall (λ x, connected g a x.1) (d_Q (relaxEdge g u st ei)).
Proof.
  intros Hei Hu HQ. unfold relaxEdge.
  destruct (g_e g !! ei) as [ed|] eqn:He; [|done].
  destruct (negb _ && _); [|done]. simpl.
  unfold push. apply Forall_app. split; [done|].
  constructor; [|constructor]. simpl.
  eapply rtc_r; [exact Hu|]. by exists ei, ed.
Qed.

Lemma relax_fold_connected (g : QgsTracerGraph) (a u : nat) (edges : list nat)
    (st : Dijkstra) :
  edges ⊆ edgesOf g u →
  connected g a u →
  Forall (λ x, connected g a x.1) (d_Q st) →
  Forall (λ x, connected g a x.1) (d_Q (foldl (relaxEdge g u) st edges)).
Proof.
  revert st. induction edges as [|ei edges IH]; intros st Hsub Hu HQ; simpl; [done|].
  apply IH; [|done|].
  - intros x Hx. apply Hsub. by right.
  - apply relaxEdge_connected; [|done..]. apply Hsub. left.
Qed.

(** The [while] loop comes to its end within [fuel] turns whenever [fuel]
    covers the items queued and the adjacency entries of the vertices not
    yet processed. *)
Lemma dijkstraLoop_total (fuel : nat) (g : QgsTracerGraph) (v2 : nat) (st : Dijkstra) :
  length (d_F st) = length (g_v g) →
  turnsLeft g st ≤ fuel →
  is_Some (dijkstraLoop fuel g v2 st).
Proof.
  revert st. induction fuel as [|fuel IH]; intros st HF Hm.
  - unfold turnsLeft in Hm. destruct (d_Q st) as [|x q] eqn:HQ; simpl in Hm; [|lia].
    simpl. rewrite HQ. simpl. by eexists.
  - simpl. destruct (popTop (d_Q st)) as [[[u d] Q']|] eqn:Hpop; [|by eexists].
    apply popTop_Some in Hpop as (_ & Hlen & _).
    destruct (decide (u = v2)); [by eexists|]. simpl.
    unfold turnsLeft in Hm.
    destruct (readF (d_F st) u) eqn:Hfu.
    + apply IH; [done|]. unfold turnsLeft. simpl. lia.
    + destruct (relax_fold_frame g u (edgesOf g u)
                  (mkDijkstra Q' (d_D st) (d_F st) (d_S st) (Some u)))
        as (HF' & _ & Hlen').
      simpl in HF', Hlen'.
      apply IH; simpl.
      * by rewrite length_insert, HF'.
      * unfold turnsLeft. simpl. rewrite HF'.
        pose proof (pending_insert (d_F st) (g_v g) u HF Hfu) as Hp.
        unfold edgesOf in *. lia.
Qed.

(** What the loop has reached: every item queued and the vertex popped
    last are connected to the source, and the loop is left either on the
    target or with the queue exhausted. *)
Lemma dijkstraLoop_connected (fuel : nat) (g : QgsTracerGraph) (a v2 : nat)
    (st st' : Dijkstra) :
  Forall (λ x, connected g a x.1) (d_Q st) →
  dijkstraLoop fuel g v2 st = Some st' →
  (d_Q st' = [] ∧ d_u st' = d_u st) ∨
  (∃ u, d_u st' = Some u ∧ connected g a u ∧ (d_Q st' = [] ∨ u = v2)).
Proof.
  revert st. induction fuel as [|fuel IH]; intros st HQ; simpl.
  - destruct (popTop (d_Q st)) as [[[u d] Q']|] eqn:Hpop; [done|].
    intros [= <-]. left. split; [|done]. by apply popTop_None.
  - destruct (popTop (d_Q st)) as [[[u d] Q']|] eqn:Hpop.
    2:{ intros [= <-]. left. split; [|done]. by apply popTop_None. }
    apply popTop_Some in Hpop as (Hin & _ & Hsub).
    assert (Hu : connected g a u).
    { rewrite Forall_forall in HQ. apply (HQ (u, d) Hin). }
    assert (HQ' : Forall (λ x, connected g a x.1) Q') by auto.
    assert (Hstep : ∀ st1, d_u st1 = Some u →
              Forall (λ x, connected g a x.1) (d_Q st1) →
              dijkstraLoop fuel g v2 st1 = Some st' →
              ∃ u', d_u st' = Some u' ∧ connected g a u' ∧ (d_Q st' = [] ∨ u' = v2)).
    { intros st1 Hu1 HQ1 Hrun.
      destruct (IH st1 HQ1 Hrun) as [[Hq Heq]|Hr]; [|done].
      exists u. rewrite Heq, Hu1. auto. }
    destruct (decide (u = v2)) as [->|Hne].
    + intros [= <-]. right. exists v2. simpl. auto.
    + simpl. destruct (readF (d_F st) u).
      * intros Hrun. right. eapply Hstep; [| |exact Hrun]; done.
      * intros Hrun. right. eapply Hstep; [| |exact Hrun]; simpl.
        -- by destruct (relax_fold_frame g u (edgesOf g u)
                          (mkDijkstra Q' (d_D st) (d_F st) (d_S st) (Some u)))
             as (_ & -> & _).
        -- by apply relax_fold_connected.
Qed.

(** The fuel [shortestPath] gives to the loop is enough: the loop of the
    solver always comes to its end. *)
Lemma dijkstraLoop_terminates (g : QgsTracerGraph) (a b : nat) :
  is_Some (dijkstraLoop (dijkstraFuel g) g b (dijkstraInit g a)).
Proof.
  apply dijkstraLoop_total.
  - unfold dijkstraInit. simpl. by rewrite length_replicate.
  - unfold turnsLeft, dijkstraInit, dijkstraFuel. simpl.
    by rewrite pending_replicate.
Qed.

(** Between vertices that no path of edges connects the loop runs until
    the queue is exhausted and never pops the target; [shortestPath]
    returns the empty line. *)
Lemma shortestPath_not_connected (g : QgsTracerGraph) (a b : nat) :
  ¬ connected g a b →
  (∃ st, dijkstraLoop (dijkstraFuel g) g b (dijkstraInit g a) = Some st ∧
         d_Q st = [] ∧ d_u st ≠ Some b) ∧
  shortestPath g (Some a) (Some b) = Some [].
Proof.
  intros Hnc. destruct (dijkstraLoop_terminates g a b) as [st Hst].
  assert (Hend : d_Q st = [] ∧ d_u st ≠ Some b).
  { assert (Hinit : Forall (λ x, connected g a x.1) (d_Q (dijkstraInit g a))).
    { unfold dijkstraInit. simpl. constructor; [|constructor]. simpl. apply rtc_refl. }
    destruct (dijkstraLoop_connected _ g a b _ st Hinit Hst)
      as [[Hq Hu]|(u & Hu & Hc & Hq)].
    - split; [done|]. rewrite Hu. done.
    - assert (u ≠ b) by (by intros ->).
      destruct Hq as [Hq|Hq]; [|done]. split; [done|]. rewrite Hu. congruence. }
  split; [by exists st|].
  unfold shortestPath. rewrite Hst. destruct Hend as [_ Hu].
  by rewrite decide_False.
Qed.

End SolverFacts.

(** ** Queries between vertices that are not connected *)

Section NoPathFacts.

Context `{Collaborators}.

(** C7. For every query whose two points resolve to vertices that no path
    of edges connects, the loop of the solver comes to its end with the
    queue exhausted and without having reached the target, and
    [findShortestPath] returns the empty line with the error [ErrNoPath]. *)
Theorem findShortestPath_no_path (t : QgsTracer) (g g1 g2 : QgsTracerGraph)
    (p1 p2 : Point) (a b : nat) :
  mGraph (init t).1 = Some g →
  pointInGraph g p1 = (g1, Some a) →
  pointInGraph g1 p2 = (g2, Some b) →
  ¬ connected g2 a b →
  (∃ st, dijkstraLoop (dijkstraFuel g2) g2 b (dijkstraInit g2 a) = Some st ∧
         d_Q st = [] ∧ d_u st ≠ Some b) ∧
  findShortestPath t p1 p2
  = Some (mkOutcome (withGraph (init t).1 (Some (resetGraph g2))) [] ErrNoPath
                    [CallShortestPath a b; CallResetGraph]).
Proof.
  intros Hg H1 H2 Hnc.
  destruct (shortestPath_not_connected g2 a b Hnc) as [Hloop Hsp].
  split; [done|].
  unfold findShortestPath. by rewrite Hg, H1, H2, Hsp.
Qed.

End NoPathFacts.

(** ** The revert after the solver has run *)

Section RevertFacts.

Context `{Geometry}.

Lemma incidence_pos_lt (g : QgsTracerGraph) (i k : nat) :
  0 < incidence g i k → k < length (g_e g).
Proof.
  unfold incidence. destruct (g_e g !! k) as [ed|] eqn:He; [|lia].
  intros _. by eapply lookup_lt_Some.
Qed.

Lemma spliced_refl (g : QgsTracerGraph) : wf_graph g → clean g → spliced g g.
Proof.
  intros Hwf [Hin Hj]. split.
  - by rewrite firstn_all.
  - rewrite Hj. lia.
  - rewrite Hj. lia.
  - intros i vx vx' Hi Hi'. congruence.
  - intros i vx' x _ Hi _. rewrite Hin, decide_False by apply not_elem_of_empty.
    by apply (wf_adjacency g Hwf).
  - intros i vx' x _ Hi Hx Hin'. apply occurrences_pos in Hin'.
    rewrite (wf_occurrences_bound g i x vx' Hwf Hi Hx) in Hin'. lia.
Qed.

(** [replaceEdgeRef] and the occurrences of an index that is neither the
    one replaced nor the one put in its place. *)
Lemma occurrences_replaceEdgeRef_other (x eIdx newIdx : nat) (vx : V) :
  x ≠ eIdx → x ≠ newIdx →
  occurrences x (v_edges (replaceEdgeRef eIdx newIdx vx)) = occurrences x (v_edges vx).
Proof.
  intros H1 H2. unfold replaceEdgeRef.
  destruct (indexOf eIdx (v_edges vx)) as [i|] eqn:Hi; [|done]. simpl.
  pose proof (occurrences_insert x eIdx newIdx i (v_edges vx) (indexOf_Some _ _ _ Hi)) as Ho.
  rewrite !decide_False in Ho by done. lia.
Qed.

Lemma elem_of_replaceEdgeRef (x eIdx newIdx : nat) (vx : V) :
  x ∈ v_edges (replaceEdgeRef eIdx newIdx vx) →
  x ∈ v_edges vx ∨ (x = newIdx ∧ eIdx ∈ v_edges vx).
Proof.
  unfold replaceEdgeRef.
  destruct (indexOf eIdx (v_edges vx)) as [i|] eqn:Hi; [|auto]. simpl.
  apply indexOf_Some in Hi.
  intros [j Hj]%list_elem_of_lookup_1.
  destruct (decide (i = j)) as [->|Hne].
  - rewrite list_lookup_insert_eq in Hj by (by eapply lookup_lt_Some).
    injection Hj as <-. right. split; [done|]. by eapply list_elem_of_lookup_2.
  - rewrite list_lookup_insert_ne in Hj by done. left. by eapply list_elem_of_lookup_2.
Qed.

(** A splice made in a spliced state leads to a spliced state. *)
Lemma spliced_join (g g' : QgsTracerGraph) (p : Point) :
  spliced g g' → spliced g (joinVertexToGraph g' p).1.
Proof.
  intros Hsp. unfold joinVertexToGraph.
  destruct (point2edge g' p) as [[k after]|] eqn:Hp; [|done].
  destruct (point2edge_Some g' p k after Hp) as (ed & He & Hact & _).
  rewrite He. destruct (splitAt (e_coords ed) p after) as [out1 out2]. simpl.
  destruct Hsp as [Hse Hel Hvl Hpt Hadj Htouch].
  set (n := length (g_e g)) in *. set (m := length (g_v g)) in *.
  set (e1 := length (g_e g')) in *.
  assert (Hn : n ≤ e1) by lia.
  assert (Hk : k < e1) by (by eapply lookup_lt_Some).
  assert (Hlook : ∀ i, i < m →
            (alter (replaceEdgeRef k (e1 + 1)) (e_v2 ed)
               (alter (replaceEdgeRef k e1) (e_v1 ed) (g_v g')) ++
             [mkV p [e1; e1 + 1]]) !! i =
            (if decide (e_v2 ed = i) then replaceEdgeRef k (e1 + 1) else id) <$>
            ((if decide (e_v1 ed = i) then replaceEdgeRef k e1 else id) <$> g_v g' !! i)).
  { intros i Hi. rewrite lookup_app_l by (rewrite !length_alter; lia).
    by rewrite !lookup_alter_cases. }
  assert (Hold : k < n → g_e g !! k = Some ed).
  { intros Hkn. by rewrite <- Hse, lookup_take_lt. }
  split; simpl.
  - by rewrite take_app_le by lia.
  - rewrite length_app. simpl. lia.
  - rewrite length_app, !length_alter. simpl. lia.
  - intros i vx vx' Hi Hi'. apply lookup_lt_Some in Hi as Hlt.
    rewrite Hlook in Hi' by done.
    apply fmap_Some in Hi' as (w & Hw & ->). apply fmap_Some in Hw as (y & Hy & ->).
    rewrite <- (Hpt i vx y Hi Hy).
    destruct (decide (e_v1 ed = i)), (decide (e_v2 ed = i)); unfold id;
      by rewrite ?replaceEdgeRef_pt.
  - intros i vx' x Hi Hi' Hx. rewrite Hlook in Hi' by done.
    apply fmap_Some in Hi' as (w & Hw & ->). apply fmap_Some in Hw as (y & Hy & ->).
    pose proof (Hadj i y x Hi Hy Hx) as Hox.
    destruct (decide (x = k)) as [->|Hxk].
    + destruct (decide (k ∈ {[k]} ∪ g_inactiveEdges g')) as [_|Hno];
        [|destruct Hno; apply elem_of_union_l; by apply elem_of_singleton].
      rewrite decide_False in Hox by done.
      unfold incidence in Hox. rewrite (Hold Hx) in Hox.
      destruct (decide (e_v1 ed = i)) as [E1|E1], (decide (e_v2 ed = i)) as [E2|E2];
        cbv beta iota in Hox |- *; unfold id.
      * assert (H1 : k ∈ v_edges y) by (apply occurrences_pos; lia).
        pose proof (occurrences_replaceEdgeRef k k e1 y H1) as R1.
        rewrite decide_True in R1 by done. rewrite decide_False in R1 by lia.
        assert (H2 : k ∈ v_edges (replaceEdgeRef k e1 y)) by (apply occurrences_pos; lia).
        pose proof (occurrences_replaceEdgeRef k k (e1 + 1) _ H2) as R2.
        rewrite decide_True in R2 by done. rewrite decide_False in R2 by lia. lia.
      * assert (H1 : k ∈ v_edges y) by (apply occurrences_pos; lia).
        pose proof (occurrences_replaceEdgeRef k k e1 y H1) as R1.
        rewrite decide_True in R1 by done. rewrite decide_False in R1 by lia. lia.
      * assert (H1 : k ∈ v_edges y) by (apply occurrences_pos; lia).
        pose proof (occurrences_replaceEdgeRef k k (e1 + 1) y H1) as R1.
        rewrite decide_True in R1 by done. rewrite decide_False in R1 by lia. lia.
      * lia.
    + assert (Hset : x ∈ {[k]} ∪ g_inactiveEdges g' ↔ x ∈ g_inactiveEdges g').
      { rewrite elem_of_union, elem_of_singleton. tauto. }
      rewrite (decide_ext _ _ _ _ Hset), <- Hox.
      destruct (decide (e_v1 ed = i)), (decide (e_v2 ed = i)); cbv beta iota; unfold id;
        rewrite ?occurrences_replaceEdgeRef_other by lia; done.
  - intros i vx' x Hi Hi' Hx Hin. rewrite Hlook in Hi' by done.
    apply fmap_Some in Hi' as (w & Hw & ->). apply fmap_Some in Hw as (y & Hy & ->).
    assert (Hy_k : k ∈ v_edges y → ∃ k', k' ∈ {[k]} ∪ g_inactiveEdges g' ∧ 0 < incidence g i k').
    { intros Hky. destruct (decide (k < n)) as [Hkn|Hkn].
      - exists k. split; [apply elem_of_union_l; by apply elem_of_singleton|].
        pose proof (Hadj i y k Hi Hy Hkn) as Hok.
        rewrite decide_False in Hok by done.
        apply occurrences_pos in Hky. lia.
      - destruct (Htouch i y k Hi Hy) as (k' & Hk' & Hinc); [lia|done|].
        exists k'. split; [by apply elem_of_union_r|done]. }
    assert (Hy_x : x ∈ v_edges y → ∃ k', k' ∈ {[k]} ∪ g_inactiveEdges g' ∧ 0 < incidence g i k').
    { intros Hxy. destruct (Htouch i y x Hi Hy Hx Hxy) as (k' & Hk' & Hinc).
      exists k'. split; [by apply elem_of_union_r|done]. }
    assert (Hstep : ∀ z new, k < new →
              (z ∈ v_edges (replaceEdgeRef k new y) → z ∈ v_edges y ∨ k ∈ v_edges y)).
    { intros z new _ Hz. apply elem_of_replaceEdgeRef in Hz as [?|[_ ?]]; auto. }
    destruct (decide (e_v1 ed = i)), (decide (e_v2 ed = i)); cbv beta iota in Hin;
      unfold id in Hin.
    + apply elem_of_replaceEdgeRef in Hin as [Hin|[_ Hin]];
        apply (Hstep _ e1 Hk) in Hin as [?|?]; auto.
    + apply (Hstep _ e1 Hk) in Hin as [?|?]; auto.
    + apply (Hstep _ (e1 + 1)) in Hin as [?|?]; auto. lia.
    + auto.
Qed.

Lemma spliced_pointInGraph (g g' : QgsTracerGraph) (p : Point) :
  spliced g g' → spliced g (pointInGraph g' p).1.
Proof.
  intros Hsp. unfold pointInGraph.
  destruct (point2vertex g' p); [done|]. by apply spliced_join.
Qed.

Lemma resetGraph_step_length (es : list E) (vs : list V) (k : nat) :
  length (resetGraph_step es vs k) = length vs.
Proof.
  unfold resetGraph_step. destruct (decide (length es ≤ k)); [done|].
  destruct (es !! k); [|done]. by rewrite !length_alter.
Qed.

Lemma resetGraph_fold_length (es : list E) (vs : list V) (L : list nat) :
  length (foldl (resetGraph_step es) vs L) = length vs.
Proof.
  revert vs. induction L as [|k L IH]; intros vs; simpl; [done|].
  by rewrite IH, resetGraph_step_length.
Qed.

Lemma touched_snoc (g : QgsTracerGraph) (i k : nat) (L : list nat) :
  touched g i (L ++ [k]) ↔ touched g i L ∨ 0 < incidence g i k.
Proof.
  unfold touched. rewrite Exists_app, Exists_cons, Exists_nil. tauto.
Qed.

(** The loop of [resetGraph] over the inactive edges [L], seen from the
    vertex [i]: the edges of [L] are back in its adjacency list as often
    as they are incident to it, the other references to edges of the
    reverted graph are kept, and every reference beyond them is gone once
    an edge of [L] ends at the vertex. *)
Lemma resetGraph_fold (g : QgsTracerGraph) (vs0 : list V) (L : list nat) :
  NoDup L →
  (∀ k i vx0, k ∈ L → k < length (g_e g) → vs0 !! i = Some vx0 →
               occurrences k (v_edges vx0) = 0) →
  ∀ i vx0, vs0 !! i = Some vx0 →
  ∃ vxL, foldl (resetGraph_step (g_e g)) vs0 L !! i = Some vxL ∧
         v_pt vxL = v_pt vx0 ∧
         ∀ x,
           (x < length (g_e g) → x ∈ L →
            occurrences x (v_edges vxL) = incidence g i x) ∧
           (x < length (g_e g) → x ∉ L →
            occurrences x (v_edges vxL) = occurrences x (v_edges vx0)) ∧
           (length (g_e g) ≤ x → touched g i L → occurrences x (v_edges vxL) = 0) ∧
           (length (g_e g) ≤ x → ¬ touched g i L →
            occurrences x (v_edges vxL) = occurrences x (v_edges vx0)).
Proof.
  intros Hnd Hzero i vx0 Hi. induction L as [|k L IH] using rev_ind.
  - exists vx0. simpl. split_and!; try done. intros x. split_and!; try done.
    + intros _ Hx. by apply not_elem_of_nil in Hx.
    + intros _ Ht. by apply Exists_nil in Ht.
  - apply NoDup_app in Hnd as (HndL & Hk & _).
    assert (HkL : k ∉ L) by (intros Hin; apply (Hk k Hin); left).
    destruct IH as (vxL & HvL & Hpt & Hocc); [done| |].
    { intros k' i' vx' Hk'. apply Hzero. apply elem_of_app. by left. }
    rewrite foldl_snoc.
    set (vsL := foldl (resetGraph_step (g_e g)) vs0 L) in *.
    unfold resetGraph_step.
    set (n := length (g_e g)) in *.
    destruct (decide (n ≤ k)) as [Hge|Hlt].
    + assert (Hinc : incidence g i k = 0).
      { unfold incidence. by rewrite lookup_ge_None_2. }
      exists vxL. split_and!; try done. intros x.
      destruct (Hocc x) as (O1 & O2 & O3 & O4). split_and!.
      * intros Hx [Hin|Hin%list_elem_of_singleton]%elem_of_app; [auto|lia].
      * intros Hx Hnin. apply O2; [done|]. intros Hin. apply Hnin.
        apply elem_of_app. by left.
      * intros Hx [Ht|Ht]%touched_snoc; [auto|lia].
      * intros Hx Hnt. apply O4; [done|]. intros Ht. apply Hnt.
        apply touched_snoc. by left.
    + destruct (g_e g !! k) as [ed|] eqn:He;
        [|apply lookup_ge_None in He; fold n in He; lia].
      assert (Hinc : incidence g i k =
                (if decide (e_v1 ed = i) then 1 else 0) +
                (if decide (e_v2 ed = i) then 1 else 0)).
      { unfold incidence. by rewrite He. }
      rewrite !lookup_alter_cases, HvL. simpl. eexists. split; [done|].
      assert (Hk0 : occurrences k (v_edges vxL) = 0).
      { destruct (Hocc k) as (_ & O2 & _). rewrite O2 by (done || lia).
        eapply Hzero; [|lia|done]. apply elem_of_app. right. left. }
      split.
      * rewrite <- Hpt.
        by destruct (decide (e_v1 ed = i)), (decide (e_v2 ed = i)).
      * intros x. destruct (Hocc x) as (O1 & O2 & O3 & O4).
        assert (Hin_snoc : x ∈ L ++ [k] ↔ x ∈ L ∨ x = k).
        { rewrite elem_of_app, list_elem_of_singleton. tauto. }
        assert (Hcalc :
          occurrences x (v_edges
            ((if decide (e_v2 ed = i) then restoreEdgeRef n k else id)
               ((if decide (e_v1 ed = i) then restoreEdgeRef n k else id) vxL)))
          = if decide (0 < incidence g i k)
            then (if decide (x < n)
                  then occurrences x (v_edges vxL) else 0)
                 + (if decide (k = x) then incidence g i k else 0)
            else occurrences x (v_edges vxL)).
        { rewrite Hinc.
          destruct (decide (e_v1 ed = i)), (decide (e_v2 ed = i));
            cbv beta iota; unfold id; rewrite ?occurrences_restoreEdgeRef;
            repeat case_decide; lia. }
        rewrite Hcalc. clear Hcalc. split_and!.
        -- intros Hx [Hin| ->]%Hin_snoc.
           ++ assert (x ≠ k) by (by intros ->).
              rewrite O1 by done. repeat case_decide; lia.
           ++ rewrite Hk0. repeat case_decide; lia.
        -- intros Hx Hnin. assert (x ≠ k) by (intros ->; apply Hnin, Hin_snoc; auto).
           rewrite O2; [repeat case_decide; lia|done|].
           intros Hin. apply Hnin, Hin_snoc. auto.
        -- intros Hx [Ht|Ht]%touched_snoc.
           ++ rewrite O3 by done. repeat case_decide; lia.
           ++ repeat case_decide; lia.
        -- intros Hx Hnt.
           assert (¬ touched g i L) by (intros Ht; apply Hnt, touched_snoc; auto).
           assert (¬ 0 < incidence g i k) by (intros Hc; apply Hnt, touched_snoc; auto).
           rewrite decide_False by done. auto.
Qed.

(** [resetGraph] takes every spliced state back to the graph it was made
    from, up to the order inside the adjacency lists. *)
Lemma resetGraph_spliced (g g' : QgsTracerGraph) :
  wf_graph g → spliced g g' →
  g_e (resetGraph g') = g_e g ∧
  Forall2 sameVertex (g_v (resetGraph g')) (g_v g) ∧
  clean (resetGraph g').
Proof.
  intros Hwf [Hse Hel Hvl Hpt Hadj Htouch]. unfold resetGraph. simpl.
  replace (length (g_v g') - g_joinedVertices g') with (length (g_v g)) by lia.
  replace (length (g_e g') - g_joinedVertices g' * 2) with (length (g_e g)) by lia.
  rewrite Hse. split_and!; [done| |done].
  set (L := elements (g_inactiveEdges g')).
  set (vs0 := take (length (g_v g)) (g_v g')).
  assert (Hlen0 : length vs0 = length (g_v g)) by (unfold vs0; rewrite length_take; lia).
  assert (Hvs0 : ∀ i vx0, vs0 !! i = Some vx0 →
            i < length (g_v g) ∧ g_v g' !! i = Some vx0).
  { intros i vx0 Hi. apply lookup_lt_Some in Hi as Hlt. rewrite Hlen0 in Hlt.
    split; [done|]. unfold vs0 in Hi. by rewrite lookup_take_lt in Hi. }
  apply Forall2_same_length_lookup. split.
  { by rewrite resetGraph_fold_length. }
  intros i x y Hx Hy.
  assert (Hi : is_Some (vs0 !! i)).
  { apply lookup_lt_is_Some. rewrite Hlen0. by eapply lookup_lt_Some. }
  destruct Hi as [vx0 Hi]. destruct (Hvs0 i vx0 Hi) as [Hlt Hi'].
  destruct (resetGraph_fold g vs0 L) with (i := i) (vx0 := vx0)
    as (vxL & HvL & HptL & Hocc); [apply NoDup_elements| |done|].
  { intros k i' vx' Hk Hkn Hi0. destruct (Hvs0 i' vx' Hi0) as [Hlt' Hi0'].
    rewrite (Hadj i' vx' k Hlt' Hi0' Hkn).
    rewrite decide_True; [done|]. by apply elem_of_elements. }
  rewrite HvL in Hx. injection Hx as <-. split.
  - rewrite HptL. by eapply Hpt.
  - apply (Permutation_count_occ Nat.eq_dec). intros z.
    fold (occurrences z (v_edges vxL)). fold (occurrences z (v_edges y)).
    rewrite (wf_adjacency g Hwf i y z Hy).
    destruct (Hocc z) as (O1 & O2 & O3 & O4).
    destruct (decide (z < length (g_e g))) as [Hz|Hz].
    + destruct (decide (z ∈ g_inactiveEdges g')) as [Hin|Hin].
      * apply O1; [done|]. by apply elem_of_elements.
      * rewrite O2; [|done|unfold L; by rewrite elem_of_elements].
        rewrite (Hadj i vx0 z Hlt Hi' Hz). by rewrite decide_False.
    + assert (Hinc : incidence g i z = 0).
      { unfold incidence. by rewrite lookup_ge_None_2 by lia. }
      rewrite Hinc.
      destruct (Exists_dec (λ k, 0 < incidence g i k) L) as [Ht|Hnt].
      * apply O3; [lia|done].
      * rewrite O4; [|lia|done].
        destruct (decide (z ∈ v_edges vx0)) as [Hzin|Hzin].
        -- destruct (Htouch i vx0 z Hlt Hi') as (k & Hk & Hpos); [lia|done|].
           destruct Hnt. apply Exists_exists. exists k. split; [|done].
           by apply elem_of_elements.
        -- destruct (occurrences z (v_edges vx0)) eqn:Ho; [done|].
           destruct Hzin. apply occurrences_pos. lia.
Qed.

(** A graph with the edges of a well-formed graph and the same vertices up
    to the order inside the adjacency lists is well-formed. *)
Lemma sameVertex_wf (g r : QgsTracerGraph) :
  wf_graph g → g_e r = g_e g → Forall2 sameVertex (g_v r) (g_v g) → wf_graph r.
Proof.
  intros [Hend Hadj] He Hsame. split.
  - intros k ed. rewrite He, (Forall2_length _ _ _ Hsame). apply Hend.
  - intros i vx k Hi.
    destruct (Forall2_lookup_l _ _ _ _ _ Hsame Hi) as (y & Hy & _ & Hperm).
    unfold occurrences.
    rewrite (proj1 (Permutation_count_occ Nat.eq_dec _ _) Hperm k).
    fold (occurrences k (v_edges y)). rewrite (Hadj i y k Hy).
    unfold incidence. by rewrite He.
Qed.

End RevertFacts.

(** ** Queries that reach the solver leave the cached graph as it was *)

Section QueryRevert.

Context `{Collaborators}.

(** The graph [init] caches is the one the builder makes: well-formed and
    with no splice pending. *)
Lemma init_wf (t : QgsTracer) (g : QgsTracerGraph) :
  mGraph t = None → mGraph (init t).1 = Some g → wf_graph g ∧ clean g.
Proof.
  intros Hnone. unfold init, initGraph. rewrite Hnone.
  destruct (foldl _ _ _) as [[mpl n]|]; simpl; [|congruence].
  intros [= <-]. apply makeGraph_wf.
Qed.

(** On the paths of [findShortestPath] that call the solver (the result is
    a path or [ErrNoPath]) the splices of the two points are reverted: the
    cached graph is again well-formed with no splice pending, and has the
    edges and the vertices it had before the call, the adjacency lists up
    to their order. *)
Lemma findShortestPath_restores (t : QgsTracer) (g : QgsTracerGraph)
    (p1 p2 : Point) (o : Outcome) :
  mGraph (init t).1 = Some g →
  wf_graph g → clean g →
  findShortestPath t p1 p2 = Some o →
  o_error o = ErrNone ∨ o_error o = ErrNoPath →
  ∃ r, mGraph (o_tracer o) = Some r ∧ wf_graph r ∧ clean r ∧
       g_e r = g_e g ∧ Forall2 sameVertex (g_v r) (g_v g).
Proof.
  intros Hg Hwf Hclean. unfold findShortestPath. rewrite Hg.
  pose proof (spliced_pointInGraph g g p1 (spliced_refl g Hwf Hclean)) as Hs1.
  destruct (pointInGraph g p1) as [g1 v1]. simpl in Hs1.
  pose proof (spliced_pointInGraph g g1 p2 Hs1) as Hs2.
  destruct (pointInGraph g1 p2) as [g2 v2]. simpl in Hs2.
  destruct v1 as [a|]; [|intros [= <-]; simpl; intros [?|?]; done].
  destruct v2 as [b|]; [|intros [= <-]; simpl; intros [?|?]; done].
  destruct (shortestPath g2 (Some a) (Some b)) as [points|]; [|done].
  intros [= <-] _. simpl.
  destruct (resetGraph_spliced g g2 Hwf Hs2) as (He & Hsame & Hcl).
  exists (resetGraph g2). split_and!; try done.
  by apply (sameVertex_wf g).
Qed.

End QueryRevert.

(** * Further properties *)

(** ** The builder *)

Section BuilderMore.

Context `{Geometry}.

(** X1. The graph made by the builder is well-formed for every input: the
    two ends of every edge are vertices of the graph, the adjacency list
    of every vertex holds exactly the edges incident to it (an edge with
    both ends at the vertex twice), no edge is inactive and no joined
    vertex is counted. *)
Theorem makeGraph_well_formed (lines : list LineString) :
  wf_graph (makeGraph lines) ∧ clean (makeGraph lines).
Proof. apply makeGraph_wf. Qed.

(** X2. The builder makes one edge for each line, in the order of the
    lines: the edge number [i] carries all the points of the line number
    [i], and its two ends are the vertices placed at the start and at the
    end of that line.  The number of vertices is the number of distinct
    end points of the lines. *)
Theorem makeGraph_edges_are_lines (lines : list LineString) (i : nat)
    (line : LineString) :
  lines !! i = Some line →
  length (g_e (makeGraph lines)) = length lines ∧
  length (g_v (makeGraph lines)) = size (list_to_set (endpoints lines) : gset Point) ∧
  ∃ ed vx1 vx2,
    g_e (makeGraph lines) !! i = Some ed ∧ e_coords ed = line ∧
    g_v (makeGraph lines) !! e_v1 ed = Some vx1 ∧ v_pt vx1 = startPoint line ∧
    g_v (makeGraph lines) !! e_v2 ed = Some vx2 ∧ v_pt vx2 = endPoint line.
Proof.
  intros Hi. destruct (makeGraph_counts lines) as [Hv He].
  split; [done|]. split; [done|].
  destruct (makeGraph_edge lines i line Hi) as (ed & Hed & Hc & H1 & H2).
  unfold points in H1, H2. rewrite list_lookup_fmap in H1, H2.
  apply fmap_Some in H1 as (vx1 & Hx1 & E1). apply fmap_Some in H2 as (vx2 & Hx2 & E2).
  exists ed, vx1, vx2. by split_and!.
Qed.

(** X3. A line whose start and end are the same point (a closed ring, a
    line of one point, the empty line) is accepted: its edge has both ends
    at one vertex, and the adjacency list of that vertex refers to the
    edge twice. *)
Theorem makeGraph_closed_line (lines : list LineString) (i : nat) (line : LineString) :
  lines !! i = Some line →
  startPoint line = endPoint line →
  ∃ ed vx,
    g_e (makeGraph lines) !! i = Some ed ∧ e_v1 ed = e_v2 ed ∧
    g_v (makeGraph lines) !! e_v1 ed = Some vx ∧ v_pt vx = startPoint line ∧
    occurrences i (v_edges vx) = 2.
Proof.
  intros Hi Hring.
  destruct (makeGraph_edge lines i line Hi) as (ed & Hed & Hc & H1 & H2).
  assert (Heq : e_v1 ed = e_v2 ed).
  { eapply (NoDup_lookup _ _ _ _ (makeGraph_vertices_NoDup lines)); [exact H1|].
    by rewrite Hring. }
  unfold points in H1. rewrite list_lookup_fmap in H1.
  apply fmap_Some in H1 as (vx & Hx & E).
  exists ed, vx. split_and!; try done.
  destruct (makeGraph_wf lines) as [[_ Hadj] _].
  rewrite (Hadj _ vx i Hx). unfold incidence. rewrite Hed.
  rewrite decide_True by done. by rewrite decide_True.
Qed.

End BuilderMore.

(** ** The locator and the splicer *)

Section SplicerMore.

Context `{Geometry}.

Lemma point2edge_from_spec (inactive : gset nat) (p : Point) (i : nat) (es : list E) :
  match point2edge_from inactive p i es with
  | Some (k, after) =>
      ∃ ed, i ≤ k ∧ es !! (k - i) = Some ed ∧ (k ∉ inactive) ∧
            closestSegment (e_coords ed) p = (wzero, after) ∧
            ∀ j ed', j < k - i → es !! j = Some ed' →
                     i + j ∈ inactive ∨ (closestSegment (e_coords ed') p).1 ≠ wzero
  | None =>
      ∀ j ed', es !! j = Some ed' →
               i + j ∈ inactive ∨ (closestSegment (e_coords ed') p).1 ≠ wzero
  end.
Proof.
  revert i. induction es as [|ed es IH]; intros i; simpl.
  - intros j ed'. by rewrite lookup_nil.
  - assert (Hskip :
      i ∈ inactive ∨ (closestSegment (e_coords ed) p).1 ≠ wzero →
      match point2edge_from inactive p (S i) es with
      | Some (k, after) =>
          ∃ ed0, i ≤ k ∧ (ed :: es) !! (k - i) = Some ed0 ∧ (k ∉ inactive) ∧
                 closestSegment (e_coords ed0) p = (wzero, after) ∧
                 ∀ j ed', j < k - i → (ed :: es) !! j = Some ed' →
                          i + j ∈ inactive ∨ (closestSegment (e_coords ed') p).1 ≠ wzero
      | None =>
          ∀ j ed', (ed :: es) !! j = Some ed' →
                   i + j ∈ inactive ∨ (closestSegment (e_coords ed') p).1 ≠ wzero
      end).
    { intros Hhead. specialize (IH (S i)).
      destruct (point2edge_from inactive p (S i) es) as [[k after]|].
      - destruct IH as (ed0 & Hle & Hl & Hk & Hc & Hfirst).
        exists ed0. split; [lia|].
        replace (k - i) with (S (k - S i)) by lia. split; [done|].
        split; [done|]. split; [done|].
        intros [|j] ed' Hj Hl'; simpl in Hl'.
        + injection Hl' as <-. by rewrite Nat.add_0_r.
        + replace (i + S j) with (S i + j) by lia. apply (Hfirst j ed'); [lia|done].
      - intros [|j] ed' Hl'; simpl in Hl'.
        + injection Hl' as <-. by rewrite Nat.add_0_r.
        + replace (i + S j) with (S i + j) by lia. by apply (IH j ed'). }
    destruct (decide (i ∈ inactive)) as [Hin|Hin]; [by apply Hskip; left|].
    destruct (closestSegment (e_coords ed) p) as [dist a] eqn:Hc.
    destruct (decide (dist = wzero)) as [->|Hd]; [|by apply Hskip; right].
    exists ed. rewrite Nat.sub_diag. split_and!; try done. intros j ed' Hj. lia.
Qed.

(** X4. [point2edge] answers with the first edge of the graph that is not
    inactive and on whose line [closestSegment] reports the distance zero,
    together with the position reported there; it answers "not found"
    exactly when every edge is inactive or at a distance other than
    zero. *)
Theorem point2edge_first_active (g : QgsTracerGraph) (p : Point) :
  match point2edge g p with
  | Some (k, after) =>
      ∃ ed, g_e g !! k = Some ed ∧ (k ∉ g_inactiveEdges g) ∧
            closestSegment (e_coords ed) p = (wzero, after) ∧
            ∀ j ed', j < k → g_e g !! j = Some ed' →
                     j ∈ g_inactiveEdges g ∨ (closestSegment (e_coords ed') p).1 ≠ wzero
  | None =>
      ∀ j ed', g_e g !! j = Some ed' →
               j ∈ g_inactiveEdges g ∨ (closestSegment (e_coords ed') p).1 ≠ wzero
  end.
Proof.
  unfold point2edge.
  pose proof (point2edge_from_spec (g_inactiveEdges g) p 0 (g_e g)) as Hs.
  destruct (point2edge_from _ p 0 (g_e g)) as [[k after]|].
  - destruct Hs as (ed & _ & Hl & Hk & Hc & Hfirst). rewrite Nat.sub_0_r in Hl, Hfirst.
    exists ed. split_and!; try done.
  - exact Hs.
Qed.

Lemma joinVertexToGraph_None (g : QgsTracerGraph) (p : Point) :
  (joinVertexToGraph g p).2 = None ↔ point2edge g p = None.
Proof.
  unfold joinVertexToGraph. destruct (point2edge g p) as [[k after]|] eqn:Hp; [|done].
  destruct (point2edge_Some g p k after Hp) as (ed & He & _).
  rewrite He. by destruct (splitAt (e_coords ed) p after).
Qed.

Lemma vertexMatches_self (p : Point) (edges : list nat) :
  vertexMatches p (mkV p edges) = true.
Proof. unfold vertexMatches. simpl. by rewrite bool_decide_eq_true_2. Qed.

(** X5. [pointInGraph] returns "not found" exactly for a point that is
    unresolved: it matches no vertex and lies on no active edge; the graph
    is then left as it was.  Otherwise it returns an index inside the
    vertex sequence of the graph it leaves, of a vertex that matches the
    point (equal to it or within the tolerance of [point2vertex]). *)
Theorem pointInGraph_resolves (g : QgsTracerGraph) (p : Point) :
  ((pointInGraph g p).2 = None ↔ unresolved g p) ∧
  match (pointInGraph g p).2 with
  | Some v => ∃ vx, g_v (pointInGraph g p).1 !! v = Some vx ∧ vertexMatches p vx = true
  | None => unresolved g p ∧ (pointInGraph g p).1 = g
  end.
Proof.
  unfold pointInGraph, unresolved, point2vertex.
  destruct (list_find _ (g_v g)) as [[i vx]|] eqn:Hf; simpl.
  - split; [split; [done|by intros [? _]]|].
    apply list_find_Some in Hf as (Hl & Hm & _). exists vx. split; [done|].
    by apply Is_true_true.
  - pose proof (joinVertexToGraph_None g p) as Hn.
    split; [rewrite Hn; split; [done|by intros [_ ?]]|].
    destruct (point2edge g p) as [[k after]|] eqn:Hp.
    + destruct (point2edge_Some g p k after Hp) as (ed & He & _).
      rewrite (joinVertexToGraph_Some g p k after ed Hp He). simpl.
      eexists. rewrite lookup_app_r by (rewrite !length_alter; lia).
      rewrite !length_alter, Nat.sub_diag. split; [done|].
      apply vertexMatches_self.
    + unfold joinVertexToGraph. rewrite Hp. done.
Qed.

Lemma alter_replaceEdgeRef_points (k new i : nat) (vs : list V) :
  points (alter (replaceEdgeRef k new) i vs) = points vs.
Proof.
  unfold points. rewrite (list_fmap_alter v_pt (replaceEdgeRef k new) id).
  - by apply list_alter_id.
  - apply Forall_forall. intros x _. apply replaceEdgeRef_pt.
Qed.

(** X6. Resolving the same point a second time makes no second splice: the
    graph left by a successful [pointInGraph] gives, for the same point,
    the same vertex and is left unchanged (the vertex joined for a point
    is found by [point2vertex] from then on). *)
Theorem pointInGraph_again (g g' : QgsTracerGraph) (p : Point) (v : nat) :
  pointInGraph g p = (g', Some v) →
  pointInGraph g' p = (g', Some v).
Proof.
  unfold pointInGraph at 1.
  destruct (point2vertex g p) as [i|] eqn:Hv.
  - intros [= <- <-]. unfold pointInGraph. by rewrite Hv.
  - destruct (point2edge g p) as [[k after]|] eqn:Hp;
      [|unfold joinVertexToGraph; by rewrite Hp].
    destruct (point2edge_Some g p k after Hp) as (ed & He & _).
    rewrite (joinVertexToGraph_Some g p k after ed Hp He).
    intros [= <- <-]. unfold pointInGraph.
    assert (Hfind : point2vertex
              (mkGraph
                 (alter (replaceEdgeRef k (length (g_e g) + 1)) (e_v2 ed)
                    (alter (replaceEdgeRef k (length (g_e g))) (e_v1 ed) (g_v g)) ++
                  [mkV p [length (g_e g); length (g_e g) + 1]])
                 (g_e g ++
                  [mkE (e_v1 ed) (length (g_v g)) (splitAt (e_coords ed) p after).1;
                   mkE (length (g_v g)) (e_v2 ed) (splitAt (e_coords ed) p after).2])
                 ({[k]} ∪ g_inactiveEdges g) (S (g_joinedVertices g))) p
            = Some (length (g_v g))); [|by rewrite Hfind].
    unfold point2vertex in *. simpl.
    apply fmap_None in Hv. rewrite list_find_None in Hv.
    apply fmap_Some.
    exists (length (g_v g), mkV p [length (g_e g); length (g_e g) + 1]).
    split; [|done].
    apply list_find_Some. split_and!.
    + rewrite lookup_app_r by (rewrite !length_alter; lia).
      by rewrite !length_alter, Nat.sub_diag.
    + apply Is_true_true, vertexMatches_self.
    + intros j y Hj Hlt.
      rewrite lookup_app_l in Hj by (rewrite !length_alter; lia).
      assert (Hpt : points (g_v g) !! j = Some (v_pt y)).
      { rewrite <- (alter_replaceEdgeRef_points k (length (g_e g)) (e_v1 ed)).
        rewrite <- (alter_replaceEdgeRef_points k (length (g_e g) + 1) (e_v2 ed)).
        unfold points. by rewrite list_lookup_fmap, Hj. }
      unfold points in Hpt. rewrite list_lookup_fmap in Hpt.
      apply fmap_Some in Hpt as (y0 & Hy0 & Heq).
      rewrite Forall_forall in Hv. specialize (Hv y0 (list_elem_of_lookup_2 _ _ _ Hy0)).
      unfold vertexMatches in *. by rewrite Heq.
Qed.

(** What one call of [pointInGraph] adds to the graph. *)
Lemma pointInGraph_grows (g : QgsTracerGraph) (p : Point) :
  (pointInGraph g p).1 = g ∨
  (g_joinedVertices (pointInGraph g p).1 = S (g_joinedVertices g) ∧
   length (g_v (pointInGraph g p).1) = S (length (g_v g)) ∧
   size (g_inactiveEdges (pointInGraph g p).1) = S (size (g_inactiveEdges g)) ∧
   ∃ e1 e2, g_e (pointInGraph g p).1 = g_e g ++ [e1; e2]).
Proof.
  unfold pointInGraph. destruct (point2vertex g p); [by left|].
  destruct (point2edge g p) as [[k after]|] eqn:Hp;
    [|left; unfold joinVertexToGraph; by rewrite Hp].
  destruct (point2edge_Some g p k after Hp) as (ed & He & Hk & _).
  rewrite (joinVertexToGraph_Some g p k after ed Hp He). simpl. right.
  split_and!; [done| | |by eexists _, _].
  - rewrite length_app, !length_alter. simpl. lia.
  - rewrite size_union by (by apply disjoint_singleton_l).
    by rewrite size_singleton.
Qed.

(** X7. The two calls of [pointInGraph] a query makes on a graph with no
    splice pending join at most two vertices; the graph they leave has the
    edges of the graph before them as the first part of its edge sequence,
    and for each joined vertex exactly one vertex more, two edges more and
    one inactive edge more: the counts [resetGraph] truncates by. *)
Theorem query_splices_bounded (g : QgsTracerGraph) (p1 p2 : Point) :
  clean g →
  let g2 := (pointInGraph (pointInGraph g p1).1 p2).1 in
  g_joinedVertices g2 ≤ 2 ∧
  length (g_v g2) = length (g_v g) + g_joinedVertices g2 ∧
  length (g_e g2) = length (g_e g) + g_joinedVertices g2 * 2 ∧
  size (g_inactiveEdges g2) = g_joinedVertices g2 ∧
  take (length (g_e g)) (g_e g2) = g_e g.
Proof.
  intros [Hin Hj] g2. subst g2.
  pose proof (pointInGraph_grows g p1) as H1.
  pose proof (pointInGraph_grows (pointInGraph g p1).1 p2) as H2.
  set (g1 := (pointInGraph g p1).1) in *.
  set (g2 := (pointInGraph g1 p2).1) in *.
  assert (Hs0 : size (g_inactiveEdges g) = 0) by (by rewrite Hin, size_empty).
  destruct H1 as [E1|(J1 & V1 & S1 & a1 & b1 & E1)];
    destruct H2 as [E2|(J2 & V2 & S2 & a2 & b2 & E2)];
    rewrite ?E2, ?J2, ?V2, ?S2, ?E1, ?J1, ?V1, ?S1, ?Hj, ?Hs0, ?E2, ?E1, ?length_app;
    simpl; split_and!; try lia.
  - by rewrite firstn_all.
  - by rewrite take_app_length.
  - by rewrite take_app_length.
  - by rewrite <- app_assoc, take_app_length.
Qed.

(** X8. [resetGraph] does nothing to a graph with no splice pending (no
    inactive edge, no joined vertex counted). *)
Theorem resetGraph_clean (g : QgsTracerGraph) :
  clean g → resetGraph g = g.
Proof.
  destruct g as [vs es inactive joined]. intros [Hin Hj]. simpl in *. subst.
  unfold resetGraph. simpl.
  rewrite !Nat.sub_0_r, !firstn_all, elements_empty. done.
Qed.

(** X9. The revert after the two resolutions of a query.  For every
    well-formed graph with no splice pending and every two points,
    whatever [pointInGraph] did for them (nothing, one splice, two
    splices, the second one possibly inside an edge made by the first),
    [resetGraph] gives back a well-formed graph with no splice pending,
    with the same edge sequence, the same vertices at the same places, and
    adjacency lists that hold the same edges up to their order. *)
Theorem two_splices_then_revert (g : QgsTracerGraph) (p1 p2 : Point) :
  wf_graph g →
  clean g →
  let r := resetGraph (pointInGraph (pointInGraph g p1).1 p2).1 in
  g_e r = g_e g ∧ Forall2 sameVertex (g_v r) (g_v g) ∧ clean r ∧ wf_graph r.
Proof.
  intros Hwf Hclean r. subst r.
  pose proof (spliced_pointInGraph g _ p2
                (spliced_pointInGraph g g p1 (spliced_refl g Hwf Hclean))) as Hs.
  destruct (resetGraph_spliced g _ Hwf Hs) as (He & Hsame & Hcl).
  split_and!; try done. by apply (sameVertex_wf g).
Qed.

End SplicerMore.

(** ** The solver *)

Section SolverMore.

Context `{Geometry}.

(** X13. The loop of [shortestPath] comes to its end for every graph and
    every source and target, whatever the weights are, within one turn
    more than the graph has adjacency entries; when it ends, it has just
    popped the target or the queue is exhausted. *)
Theorem shortestPath_loop_ends (g : QgsTracerGraph) (a b : nat) :
  ∃ st, dijkstraLoop (S (sum_list (map (λ vx, length (v_edges vx)) (g_v g))))
          g b (dijkstraInit g a) = Some st ∧
        (d_u st = Some b ∨ d_Q st = []).
Proof.
  destruct (dijkstraLoop_terminates g a b) as [st Hst]. exists st.
  split; [exact Hst|].
  assert (Hinit : Forall (λ x, connected g a x.1) (d_Q (dijkstraInit g a))).
  { unfold dijkstraInit. simpl. constructor; [|constructor]. simpl. apply rtc_refl. }
  destruct (dijkstraLoop_connected _ g a b _ st Hinit Hst)
    as [[Hq _]|(u & Hu & _ & [Hq| ->])]; auto.
Qed.

End SolverMore.

(** ** The session *)

Section SessionMore.

Context `{Collaborators}.

Lemma pointInGraph_None_iff (g : QgsTracerGraph) (p : Point) :
  (pointInGraph g p).2 = None ↔ unresolved g p.
Proof.
  unfold pointInGraph, unresolved.
  destruct (point2vertex g p) as [i|]; simpl.
  - split; [done|]. by intros [? _].
  - rewrite joinVertexToGraph_None. split; [done|]. by intros [_ ?].
Qed.

Lemma isEmpty_true (l : LineString) : isEmpty l = true ↔ l = [].
Proof. unfold isEmpty. apply bool_decide_eq_true. Qed.

(** X11. The error code of [findShortestPath], case by case.  It is
    [ErrNone] exactly when the line returned is not empty (every other
    code comes with the empty line); [ErrTooManyFeatures] exactly when
    [init] leaves no graph; [ErrPoint1] exactly when the first point is
    unresolved; [ErrPoint2] exactly when the first point resolves and the
    second is unresolved in the graph the first resolution leaves. *)
Theorem findShortestPath_errors (t : QgsTracer) (p1 p2 : Point) (o : Outcome) :
  findShortestPath t p1 p2 = Some o →
  (o_error o = ErrNone ↔ o_points o ≠ []) ∧
  (o_error o = ErrTooManyFeatures ↔ mGraph (init t).1 = None) ∧
  (∀ g, mGraph (init t).1 = Some g →
        (o_error o = ErrPoint1 ↔ unresolved g p1) ∧
        (o_error o = ErrPoint2 ↔
           ¬ unresolved g p1 ∧ unresolved (pointInGraph g p1).1 p2)).
Proof.
  unfold findShortestPath.
  destruct (mGraph (init t).1) as [g|] eqn:Hg.
  2:{ intros [= <-]. simpl. split_and!; try done. }
  pose proof (pointInGraph_None_iff g p1) as N1.
  pose proof (pointInGraph_None_iff (pointInGraph g p1).1 p2) as N2.
  destruct (pointInGraph g p1) as [g1 v1] eqn:E1. simpl in N1, N2.
  destruct (pointInGraph g1 p2) as [g2 v2]. simpl in N2.
  destruct v1 as [a|].
  2:{ intros [= <-]. simpl. split_and!; try done.
      intros g0 [= <-]. rewrite E1. simpl. split.
      - split; [intros _; by apply N1|done].
      - split; [done|]. intros [Hr _]. destruct Hr. by apply N1. }
  assert (R1 : ¬ unresolved g p1) by (intros Hu; by apply N1 in Hu).
  destruct v2 as [b|].
  2:{ intros [= <-]. simpl. split_and!; try done.
      intros g0 [= <-]. rewrite E1. simpl. split.
      - split; [done|]. intros Hu. by destruct R1.
      - split; [intros _; split; [done|by apply N2]|done]. }
  assert (R2 : ¬ unresolved g1 p2) by (intros Hu; by apply N2 in Hu).
  destruct (shortestPath g2 (Some a) (Some b)) as [points|]; [|done].
  intros [= <-]. simpl.
  match goal with |- (_ ↔ ?x ≠ []) ∧ _ => set (points' := x) end.
  split_and!.
  - destruct (isEmpty points') eqn:He.
    + apply isEmpty_true in He. split; [done|]. intros Hne. by destruct Hne.
    + split; [|done]. intros _ Hnil. apply isEmpty_true in Hnil. congruence.
  - by destruct (isEmpty points').
  - intros g0 [= <-]. rewrite E1. simpl. split.
    + split; [by destruct (isEmpty points')|]. intros Hu. by destruct R1.
    + split; [by destruct (isEmpty points')|]. intros [_ Hu]. by destruct R2.
Qed.

(** X14. [isPointSnapped] says yes exactly for the points that
    [pointInGraph], and so [findShortestPath], can resolve in the cached
    graph, and unlike them it never splices: the session it leaves is the
    one [init] leaves. *)
Theorem isPointSnapped_resolves (t : QgsTracer) (p : Point) :
  (isPointSnapped t p).1 = (init t).1 ∧
  ((isPointSnapped t p).2 = true ↔
   ∃ g, mGraph (init t).1 = Some g ∧ is_Some (pointInGraph g p).2).
Proof.
  unfold isPointSnapped.
  destruct (mGraph (init t).1) as [g|] eqn:Hg; simpl.
  2:{ split; [done|]. split; [done|]. by intros (g & ? & _). }
  assert (Hres : is_Some (pointInGraph g p).2 ↔
                 is_Some (point2vertex g p) ∨ is_Some (point2edge g p)).
  { rewrite <- not_eq_None_Some, pointInGraph_None_iff. unfold unresolved.
    rewrite <- !not_eq_None_Some.
    destruct (point2vertex g p), (point2edge g p); intuition congruence. }
  case_bool_decide as Hv; simpl.
  - split; [done|]. split; [|done]. intros _. exists g. split; [done|].
    apply Hres. by left.
  - split; [done|]. rewrite bool_decide_eq_true. split.
    + intros He. exists g. split; [done|]. apply Hres. by right.
    + intros (g0 & [= <-] & Hs). apply Hres in Hs as [?|?]; done.
Qed.

Lemma restored_spliced (g r : QgsTracerGraph) :
  wf_graph g → g_e r = g_e g → Forall2 sameVertex (g_v r) (g_v g) → clean r →
  spliced g r.
Proof.
  intros Hwf He Hsame [Hin Hj].
  assert (Hocc : ∀ i vx' x, g_v r !! i = Some vx' →
            occurrences x (v_edges vx') = incidence g i x).
  { intros i vx' x Hi.
    destruct (Forall2_lookup_l _ _ _ _ _ Hsame Hi) as (y & Hy & _ & Hperm).
    unfold occurrences.
    rewrite (proj1 (Permutation_count_occ Nat.eq_dec _ _) Hperm x).
    by apply (wf_adjacency g Hwf). }
  split.
  - by rewrite He, firstn_all.
  - rewrite He, Hj. lia.
  - rewrite (Forall2_length _ _ _ Hsame), Hj. lia.
  - intros i vx vx' Hi Hi'.
    destruct (Forall2_lookup_l _ _ _ _ _ Hsame Hi') as (y & Hy & Hpt & _). congruence.
  - intros i vx' x _ Hi _. rewrite Hin.
    rewrite decide_False by apply not_elem_of_empty. by apply Hocc.
  - intros i vx' x _ Hi Hx Hel. apply occurrences_pos in Hel.
    rewrite (Hocc i vx' x Hi) in Hel. apply incidence_pos_lt in Hel. lia.
Qed.

(** X10. The cached graph is at all times the graph the builder made with
    some splices pending, whatever queries have been made and however
    they ended: a query keeps it so even when it returns early with
    [ErrPoint1] or [ErrPoint2].  A query that reaches the solver (a path
    or [ErrNoPath]) removes every pending splice, also those earlier
    queries have left: the graph it leaves is well-formed, has no splice
    pending, and has the edges and vertices of the graph the builder made,
    the adjacency lists up to their order. *)
Theorem findShortestPath_keeps_base (t : QgsTracer) (g g' : QgsTracerGraph)
    (p1 p2 : Point) (o : Outcome) :
  wf_graph g →
  spliced g g' →
  mGraph (init t).1 = Some g' →
  findShortestPath t p1 p2 = Some o →
  ∃ r, mGraph (o_tracer o) = Some r ∧ spliced g r ∧
       (o_error o = ErrNone ∨ o_error o = ErrNoPath →
        wf_graph r ∧ clean r ∧ g_e r = g_e g ∧ Forall2 sameVertex (g_v r) (g_v g)).
Proof.
  intros Hwf Hsp Hg. unfold findShortestPath. rewrite Hg.
  pose proof (spliced_pointInGraph g g' p1 Hsp) as Hs1.
  destruct (pointInGraph g' p1) as [g1 v1]. simpl in Hs1.
  pose proof (spliced_pointInGraph g g1 p2 Hs1) as Hs2.
  destruct (pointInGraph g1 p2) as [g2 v2]. simpl in Hs2.
  destruct v1 as [a|].
  2:{ intros [= <-]. simpl. exists g2. split_and!; try done. by intros [?|?]. }
  destruct v2 as [b|].
  2:{ intros [= <-]. simpl. exists g2. split_and!; try done. by intros [?|?]. }
  destruct (shortestPath g2 (Some a) (Some b)) as [points|]; [|done].
  intros [= <-]. simpl.
  destruct (resetGraph_spliced g g2 Hwf Hs2) as (He & Hsame & Hcl).
  exists (resetGraph g2). split; [done|].
  split; [by apply restored_spliced|].
  intros _. split_and!; try done. by apply (sameVertex_wf g).
Qed.

Lemma extractLinework_app (f : Feature) (mpl : list LineString) :
  extractLinework f mpl = mpl ++ default [] (segmentize f).
Proof.
  unfold extractLinework. destruct (segmentize f); simpl; [done|].
  by rewrite app_nil_r.
Qed.

Lemma lineworkOf_cons (f : Feature) (fs : list Feature) :
  lineworkOf (f :: fs) = default [] (segmentize f) ++ lineworkOf fs.
Proof. done. Qed.

Lemma lineworkOf_app (fs gs : list Feature) :
  lineworkOf (fs ++ gs) = lineworkOf fs ++ lineworkOf gs.
Proof. unfold lineworkOf. apply bind_app. Qed.

#[local] Arguments lineworkOf : simpl never.
#[local] Arguments extractLinework : simpl never.

(** The loop over the features of one layer, as a whole: it gives up when
    the cap is set and reached by the features it counts, and otherwise
    has added the linework of all of them. *)
Lemma initGraph_features_spec (t : QgsTracer) (vl : Layer) (fs : list Feature)
    (mpl : list LineString) (c : Z) :
  initGraph_features t vl (layerFilter t vl) fs (mpl, c) =
  if decide (mMaxFeatureCount t ≠ 0%Z ∧ filter (λ f, qualifies t vl f) fs ≠ [] ∧
             (mMaxFeatureCount t
              ≤ c + Z.of_nat (length (filter (λ f, qualifies t vl f) fs)))%Z)
  then None
  else Some (mpl ++ lineworkOf (filter (λ f, qualifies t vl f) fs),
             (c + Z.of_nat (length (filter (λ f, qualifies t vl f) fs)))%Z).
Proof.
  revert mpl c. induction fs as [|f fs IH]; intros mpl c.
  - simpl. rewrite decide_False by (by intros (_ & ? & _)).
    unfold lineworkOf. simpl. by rewrite app_nil_r, Z.add_0_r.
  - destruct (qualifies t vl f) eqn:Hq.
    + rewrite filter_cons_True by (by rewrite Hq).
      set (q := filter (λ f, qualifies t vl f) fs) in *.
      unfold qualifies in Hq. apply andb_true_iff in Hq as [Hg Hr].
      apply negb_true_iff in Hr. rewrite lineworkOf_cons.
      simpl. rewrite Hg, Hr. simpl. rewrite extractLinework_app.
      case_bool_decide as Hz; case_bool_decide as Hc; simpl.
      * rewrite IH. fold q.
        destruct (decide (mMaxFeatureCount t ≠ 0%Z ∧ q ≠ [] ∧ _)) as [(D & _)|D1];
          [done|].
        rewrite decide_False by (by intros (? & _)).
        rewrite <- app_assoc. f_equal. f_equal. lia.
      * rewrite IH. fold q.
        destruct (decide (mMaxFeatureCount t ≠ 0%Z ∧ q ≠ [] ∧ _)) as [(D & _)|D1];
          [done|].
        rewrite decide_False by (by intros (? & _)).
        rewrite <- app_assoc. f_equal. f_equal. lia.
      * rewrite decide_True; [done|]. split_and!; [done|done|lia].
      * rewrite IH. fold q. rewrite <- app_assoc.
        destruct (decide (mMaxFeatureCount t ≠ 0%Z ∧ q ≠ [] ∧ _)) as [(D1 & D2 & D3)|D].
        -- rewrite decide_True; [done|]. split_and!; [done|done|lia].
        -- rewrite decide_False; [f_equal; f_equal; lia|].
           intros (E1 & _ & E3). apply D. split; [done|].
           destruct q as [|f' q']; simpl in *; [lia|]. split; [done|lia].
    + rewrite filter_cons_False by (rewrite Hq; by intros []).
      rewrite <- IH. simpl. unfold qualifies in Hq.
      destruct (hasGeometry f); simpl in *; [|done].
      apply negb_false_iff in Hq. by rewrite Hq.
Qed.

Lemma initGraph_layers_None (t : QgsTracer) (layers : list Layer) :
  foldl (initGraph_layer t) None layers = None.
Proof. induction layers as [|vl layers IH]; simpl; [done|exact IH]. Qed.

Lemma initGraph_layers_spec (t : QgsTracer) (layers : list Layer)
    (mpl : list LineString) (c : Z) :
  foldl (initGraph_layer t) (Some (mpl, c)) layers =
  if decide (mMaxFeatureCount t ≠ 0%Z ∧ layers ≫= layerFeatures t ≠ [] ∧
             (mMaxFeatureCount t
              ≤ c + Z.of_nat (length (layers ≫= layerFeatures t)))%Z)
  then None
  else Some (mpl ++ lineworkOf (layers ≫= layerFeatures t),
             (c + Z.of_nat (length (layers ≫= layerFeatures t)))%Z).
Proof.
  revert mpl c. induction layers as [|vl layers IH]; intros mpl c.
  - simpl. rewrite decide_False by (by intros (_ & ? & _)).
    unfold lineworkOf. simpl. by rewrite app_nil_r, Z.add_0_r.
  - rewrite bind_cons. simpl foldl.
    change (initGraph_layer t (Some (mpl, c)) vl) with
      (initGraph_features t vl (layerFilter t vl)
         (getFeatures vl (mCRS t) (mTransformContext t)
            (if extentIsEmpty (mExtent t) then None else Some (mExtent t))) (mpl, c)).
    rewrite initGraph_features_spec. fold (layerFeatures t vl).
    set (q := layerFeatures t vl). set (Q := layers ≫= layerFeatures t) in *.
    rewrite lineworkOf_app, length_app.
    destruct (decide (mMaxFeatureCount t ≠ 0%Z ∧ q ≠ [] ∧ _)) as [(D1 & D2 & D3)|D].
    + rewrite initGraph_layers_None. rewrite decide_True; [done|].
      split_and!; [done| |lia]. by destruct q.
    + rewrite IH. fold Q.
      destruct (decide (mMaxFeatureCount t ≠ 0%Z ∧ Q ≠ [] ∧ _)) as [(D1 & D2 & D3)|D'].
      * rewrite decide_True; [done|]. split_and!; [done| |lia].
        intros [_ ?]%app_eq_nil. done.
      * rewrite decide_False; [rewrite <- app_assoc; f_equal; f_equal; lia|].
        intros (E1 & E2 & E3). destruct Q as [|f Q'].
        -- apply D. rewrite app_nil_r in E2. simpl in E3. split_and!; [done|done|lia].
        -- apply D'. split_and!; [done|done|lia].
Qed.

(** X15. The build, as a whole.  [init] on a session without a graph
    counts, over all layers, the features that have a geometry and that
    the renderer, where it is asked, would render.  When the cap on the
    number of features is set (not zero) and that number reaches it, the
    build gives up, no graph is cached and [findShortestPath] returns the
    empty line with [ErrTooManyFeatures]; a count equal to the cap is
    already too many.  Otherwise the graph cached is the one the builder
    makes of the linework of exactly these features, in the order of the
    layers and of their features. *)
Theorem init_feature_cap (t : QgsTracer) (p1 p2 : Point) :
  mGraph t = None →
  (overCap t (length (countedFeatures t)) →
   mGraph (init t).1 = None ∧ (init t).2 = false ∧
   findShortestPath t p1 p2
   = Some (mkOutcome (init t).1 [] ErrTooManyFeatures [])) ∧
  (¬ overCap t (length (countedFeatures t)) →
   mGraph (init t).1 = Some (makeGraph (lineworkOf (countedFeatures t))) ∧
   (init t).2 = true).
Proof.
  intros Hnone.
  assert (Hinit : init t =
            if decide (overCap t (length (countedFeatures t)))
            then (clearTopologyProblem t, false)
            else (withGraph (clearTopologyProblem t)
                    (Some (makeGraph (lineworkOf (countedFeatures t)))), true)).
  { unfold init, initGraph. rewrite Hnone.
    rewrite (initGraph_layers_spec (clearTopologyProblem t)). simpl.
    fold (countedFeatures t). unfold overCap.
    change (mLayers t ≫= layerFeatures (clearTopologyProblem t))
      with (countedFeatures t).
    destruct (decide (mMaxFeatureCount t ≠ 0%Z ∧ countedFeatures t ≠ [] ∧ _))
      as [(D1 & D2 & D3)|D].
    - rewrite decide_True; [done|]. split_and!; [done| |lia].
      destruct (countedFeatures t); simpl; [done|lia].
    - rewrite decide_False; [done|]. intros (E1 & E2 & E3). apply D.
      split_and!; [done| |lia]. intros Hnil. rewrite Hnil in E2. simpl in E2. lia. }
  split.
  - intros Hover. unfold findShortestPath. rewrite Hinit, decide_True by done.
    simpl. by rewrite Hnone.
  - intros Hcap. rewrite Hinit, decide_False by done. done.
Qed.

End SessionMore.

(** ** The solver finds a walk of least accumulated weight *)

Section SolverOptimal.

Context `{Geometry}.
Context (Hw : ordered_weights).

#[local] Set Default Proof Using "Hw".

Lemma readD_insert (D : list W) (v x : nat) (d : W) :
  v < length D →
  readD (<[v := d]> D) x = if decide (x = v) then d else readD D x.
Proof using Type.
  intros Hv. unfold readD. destruct (decide (x = v)) as [->|Hne].
  - by rewrite list_lookup_insert_eq.
  - by rewrite list_lookup_insert_ne.
Qed.

Lemma readS_insert (S : list (option nat)) (v x : nat) (o : option nat) :
  v < length S →
  readS (<[v := o]> S) x = if decide (x = v) then o else readS S x.
Proof using Type.
  intros Hv. unfold readS. destruct (decide (x = v)) as [->|Hne].
  - by rewrite list_lookup_insert_eq.
  - by rewrite list_lookup_insert_ne.
Qed.

Lemma readF_insert (F : list bool) (v x : nat) (b : bool) :
  v < length F →
  readF (<[v := b]> F) x = if decide (x = v) then b else readF F x.
Proof using Type.
  intros Hv. unfold readF. destruct (decide (x = v)) as [->|Hne].
  - by rewrite list_lookup_insert_eq.
  - by rewrite list_lookup_insert_ne.
Qed.

Lemma cost_snoc (g : QgsTracerGraph) (es : list nat) (ei : nat) (ed : E) :
  g_e g !! ei = Some ed → cost g (es ++ [ei]) = wadd (cost g es) (weight ed).
Proof. intros He. unfold cost. rewrite foldl_snoc, He. done. Qed.

Lemma wle_add (x : W) (ed : E) : wle x (wadd x (weight ed)).
Proof. apply (ow_add_nonneg Hw). Qed.

Lemma walk_cost_nonneg (g : QgsTracerGraph) (a v : nat) (es : list nat) :
  walk g a es v → wle wzero (cost g es).
Proof.
  induction 1 as [|es u ei ed Hwalk IH Hin He].
  - apply (ow_refl Hw).
  - rewrite (cost_snoc g es ei ed He).
    eapply (ow_trans Hw); [exact IH|apply wle_add].
Qed.

Lemma solver_ok_edge (g : QgsTracerGraph) (u ei : nat) :
  solver_ok g → ei ∈ edgesOf g u →
  ∃ ed, g_e g !! ei = Some ed ∧ (e_v1 ed = u ∨ e_v2 ed = u) ∧
        e_v1 ed < length (g_v g) ∧ e_v2 ed < length (g_v g).
Proof using Type.
  intros [Hends Hadj] Hin. destruct (Hadj u ei Hin) as (ed & He & Hu).
  exists ed. destruct (Hends ei ed He). done.
Qed.

Lemma walk_in_range (g : QgsTracerGraph) (a v : nat) (es : list nat) :
  solver_ok g → a < length (g_v g) → walk g a es v → v < length (g_v g).
Proof.
  intros Hok Ha Hwalk0. induction Hwalk0 as [|es u ei ed Hwalk IH Hin He]; [done|].
  destruct (solver_ok_edge g u ei Hok Hin) as (ed' & He' & _ & H1 & H2).
  rewrite He in He'. injection He' as <-.
  unfold otherVertex. by destruct (decide (e_v1 ed = u)).
Qed.

Lemma otherVertex_back (ed : E) (u : nat) :
  e_v1 ed = u ∨ e_v2 ed = u → otherVertex ed (otherVertex ed u) = u ∨ e_v1 ed = e_v2 ed.
Proof using Type.
  unfold otherVertex. intros Hu.
  destruct (decide (e_v1 ed = u)) as [E1|E1].
  - destruct (decide (e_v1 ed = e_v2 ed)); [by right|by left].
  - destruct Hu as [?|E2]; [done|]. rewrite decide_True by done. by left.
Qed.

(** [top] is an item of least distance. *)
Lemma topIndex_from_min (q r : list DijkstraQueueItem) (bi i j : nat)
    (b x : DijkstraQueueItem) :
  r = drop i q →
  (∀ y, y ∈ take i q → wle b.2 y.2) →
  topIndex_from bi b i r = (j, x) →
  ∀ y, y ∈ q → wle x.2 y.2.
Proof.
  revert bi b i. induction r as [|z r IH]; intros bi b i Hr Hseen; simpl.
  - intros [= <- <-] y Hy. apply Hseen.
    assert (Hlen : length q ≤ i).
    { destruct (decide (length q ≤ i)); [done|].
      assert (Hd : length (drop i q) = 0) by (by rewrite <- Hr).
      rewrite length_drop in Hd. lia. }
    by rewrite take_ge.
  - assert (Hz : q !! i = Some z).
    { pose proof (lookup_drop q i 0) as Hd. rewrite <- Hr, Nat.add_0_r in Hd.
      by rewrite <- Hd. }
    assert (Hr' : r = drop (S i) q).
    { replace (S i) with (i + 1) by lia. by rewrite <- drop_drop, <- Hr. }
    assert (Htake : take (S i) q = take i q ++ [z]) by (by apply take_S_r).
    destruct (comp b z) eqn:Hc.
    + apply IH; [done|]. intros y. rewrite Htake.
      intros [Hy| ->%list_elem_of_singleton]%elem_of_app; [|apply (ow_refl Hw)].
      eapply (ow_trans Hw); [|by apply Hseen]. by apply (ow_asym Hw).
    + apply IH; [done|]. intros y. rewrite Htake.
      intros [Hy| ->%list_elem_of_singleton]%elem_of_app; [by apply Hseen|].
      exact Hc.
Qed.

Lemma popTop_min (q q' : list DijkstraQueueItem) (x : DijkstraQueueItem) :
  popTop q = Some (x, q') →
  x ∈ q ∧ (∀ y, y ∈ q → wle x.2 y.2) ∧ (∀ y, y ∈ q' → y ∈ q) ∧
  (∀ y, y ∈ q → y ∈ q' ∨ y = x).
Proof.
  destruct q as [|z r]; simpl; [done|].
  destruct (topIndex_from 0 z 1 r) as [j b] eqn:Ht. intros [= <- <-].
  pose proof (topIndex_from_lookup (z :: r) r 0 1 j z b eq_refl eq_refl Ht) as Hj.
  split_and!.
  - by eapply list_elem_of_lookup_2.
  - eapply (topIndex_from_min (z :: r) r 0 1 j z b); [done| |done].
    simpl. intros y ->%list_elem_of_singleton. apply (ow_refl Hw).
  - intros y Hy. by eapply list_elem_of_delete_inv.
  - intros y Hy. rewrite delete_take_drop.
    rewrite <- (take_drop_middle (z :: r) j b Hj) in Hy.
    apply elem_of_app in Hy as [Hy|Hy]; [left; apply elem_of_app; by left|].
    apply elem_of_cons in Hy as [->|Hy]; [by right|].
    left. apply elem_of_app. by right.
Qed.

Section Loop.

Variables (g : QgsTracerGraph) (a : nat).
Hypothesis Hok : solver_ok g.
Hypothesis Ha : a < length (g_v g).

#[local] Set Default Proof Using "Hw Hok Ha".

Local Abbreviation n := (length (g_v g)).

Lemma dijkstra_inv_init : dijkstra_inv g a None [] [] (dijkstraInit g a).
Proof.
  assert (HF : ∀ v, readF (replicate n false) v = false).
  { intros v. unfold readF. destruct (replicate n false !! v) eqn:E; [|done].
    by apply lookup_replicate in E as [-> _]. }
  assert (HD : ∀ v, v ≠ a → readD (<[a := wzero]> (replicate n wmax)) v = wmax).
  { intros v Hv. rewrite readD_insert by (by rewrite length_replicate).
    rewrite decide_False by done. unfold readD.
    destruct (replicate n wmax !! v) eqn:E; [|done].
    by apply lookup_replicate in E as [-> _]. }
  assert (HDa : readD (<[a := wzero]> (replicate n wmax)) a = wzero).
  { rewrite readD_insert by (by rewrite length_replicate). by rewrite decide_True. }
  assert (Hnc : ∀ v, ¬ closed None (replicate n false) v).
  { intros v [Hc|Hc]; [by rewrite HF in Hc|done]. }
  unfold dijkstraInit. split; simpl.
  - by rewrite length_insert, !length_replicate.
  - intros x d Hx. apply list_elem_of_singleton in Hx. injection Hx as -> ->.
    rewrite HDa. split_and!; [done|apply (ow_refl Hw)|apply (ow_zero_max Hw)|by left|].
    exists []. split; [constructor|done].
  - intros v Hv _. destruct (decide (v = a)) as [->|Hne].
    + left. rewrite HDa. by apply list_elem_of_singleton.
    + right. by apply HD.
  - intros v Hv. destruct (decide (v = a)) as [->|Hne].
    + rewrite HDa. apply (ow_zero_max Hw).
    + rewrite HD by done. apply (ow_refl Hw).
  - done.
  - intros v _ Hc. by destruct (Hnc v).
  - intros u es _ Hc. by destruct (Hnc u).
  - intros u ei ed _ Hc. by destruct (Hnc u).
  - intros v x d _ Hc. by destruct (Hnc v).
  - done.
  - intros v ei _. by rewrite readS_replicate.
  - apply readS_replicate.
  - split_and!.
    + constructor.
    + intros v. rewrite HF. split; [by intros ?%elem_of_nil|by intros [_ ?]].
    + intros pre v post ei ed Heq. by destruct pre.
Qed.

(** At the head of the loop, with [dmin] below every distance queued: a
    walk from the source either ends at a processed vertex, whose distance
    it does not beat, or accumulates at least [dmin]. *)
Lemma walk_bound (order : list nat) (st : Dijkstra) (dmin : W) :
  dijkstra_inv g a None [] order st →
  (∀ x d, (x, d) ∈ d_Q st → wle dmin d) →
  wle dmin wmax →
  ∀ es v, walk g a es v →
    (readF (d_F st) v = true ∧ wle (readD (d_D st) v) (cost g es)) ∨
    wle dmin (cost g es).
Proof.
  intros Hinv Hmin Hmax es v Hwalk.
  induction Hwalk as [|es u ei ed Hwalk IH Hin He].
  - destruct (readF (d_F st) a) eqn:HFa.
    + left. split; [done|]. apply (di_opt _ _ _ _ _ _ Hinv); [done|by left|constructor].
    + right. destruct (di_src _ _ _ _ _ _ Hinv) as [_ HDa].
      destruct (di_open _ _ _ _ _ _ Hinv a Ha) as [HQ|HQ].
      * intros [Hc|Hc]; [congruence|done].
      * rewrite HDa in HQ. by apply (Hmin a).
      * change (cost g []) with wzero. rewrite <- HDa, HQ. done.
  - assert (Hv : otherVertex ed u < n).
    { apply (walk_in_range g a _ (es ++ [ei])); [done|done|by econstructor]. }
    rewrite (cost_snoc g es ei ed He).
    destruct IH as [[HFu Hle]|Hle].
    + assert (Hu : u < n) by (by apply (walk_in_range g a u es)).
      assert (Hedge : wle (readD (d_D st) (otherVertex ed u))
                          (wadd (cost g es) (weight ed))).
      { eapply (ow_trans Hw).
        - apply (di_edges _ _ _ _ _ _ Hinv u ei ed); [done|by left|done|done|done].
        - by apply (ow_add_mono Hw). }
      destruct (readF (d_F st) (otherVertex ed u)) eqn:HFv; [by left|].
      right. destruct (di_open _ _ _ _ _ _ Hinv _ Hv) as [HQ|HQ].
      * intros [Hc|Hc]; [congruence|done].
      * eapply (ow_trans Hw); [|exact Hedge]. by eapply Hmin.
      * rewrite HQ in Hedge. eapply (ow_trans Hw); [exact Hmax|exact Hedge].
    + right. eapply (ow_trans Hw); [exact Hle|]. apply wle_add.
Qed.

(** Taking an item of a processed vertex out of the queue. *)
Lemma inv_pop_stale (order : list nat) (st : Dijkstra) (u : nat) (d : W)
    (Q' : list DijkstraQueueItem) (uo : option nat) :
  dijkstra_inv g a None [] order st →
  (∀ y, y ∈ Q' → y ∈ d_Q st) →
  (∀ y, y ∈ d_Q st → y ∈ Q' ∨ y = (u, d)) →
  readF (d_F st) u = true →
  dijkstra_inv g a None [] order (mkDijkstra Q' (d_D st) (d_F st) (d_S st) uo).
Proof.
  intros Hinv Hsub Hrest HFu.
  destruct Hinv as [Hlen HQ Hopen Hmax Hsrc Hreach Hopt Hedges HcQ Hcur Hpred HsrcS Hord].
  split; simpl; try done.
  - intros x d' Hx. apply HQ. by apply Hsub.
  - intros v Hv Hnc. destruct (Hopen v Hv Hnc) as [Hin|Hin]; [|by right].
    left. destruct (Hrest _ Hin) as [?|[= -> _]]; [done|].
    destruct Hnc. by left.
  - intros v x d' Hv Hc Hx. apply (HcQ v x d'); [done|done|by apply Hsub].
Qed.

(** Taking the item of a vertex [u] not processed yet out of the queue,
    when no queued distance is below its own: the distance of [u] is
    final. *)
Lemma inv_pop_fresh (order : list nat) (st : Dijkstra) (u : nat) (d : W)
    (Q' : list DijkstraQueueItem) :
  dijkstra_inv g a None [] order st →
  (u, d) ∈ d_Q st →
  (∀ y, y ∈ d_Q st → wle d y.2) →
  (∀ y, y ∈ Q' → y ∈ d_Q st) →
  (∀ y, y ∈ d_Q st → y ∈ Q' ∨ y = (u, d)) →
  readF (d_F st) u = false →
  dijkstra_inv g a (Some u) [] order
    (mkDijkstra Q' (d_D st) (d_F st) (d_S st) (Some u)).
Proof.
  intros Hinv Hin Hmin Hsub Hrest HFu.
  pose proof (walk_bound order st d Hinv (λ x d' Hx, Hmin (x, d') Hx)) as Hbound.
  destruct Hinv as [Hlen HQ Hopen Hmax Hsrc Hreach Hopt Hedges HcQ Hcur Hpred HsrcS Hord].
  destruct (HQ u d Hin) as (Hu & HDu & Hdmax & Hru & Hwu).
  specialize (Hbound Hdmax).
  assert (Hcl : ∀ v, closed (Some u) (d_F st) v → closed None (d_F st) v ∨ v = u).
  { intros v [Hc|[= ->]]; [left; by left|by right]. }
  split; simpl; try done.
  - intros x d' Hx. apply HQ. by apply Hsub.
  - intros v Hv Hnc.
    destruct (Hopen v Hv) as [HinQ|HinQ]; [|  |by right].
    + intros [Hc|Hc]; [|done]. apply Hnc. by left.
    + left. destruct (Hrest _ HinQ) as [?|[= -> _]]; [done|].
      destruct Hnc. by right.
  - intros v Hv [Hc| ->]%Hcl; [by apply Hreach|done].
  - intros v es Hv [Hc| ->]%Hcl Hwalk; [by apply Hopt|].
    destruct (Hbound es u Hwalk) as [[HF _]|Hle]; [congruence|].
    by eapply (ow_trans Hw).
  - intros v ei ed Hv [Hc| ->]%Hcl Hei Hdone He.
    + apply (Hedges v ei ed); [done|done|done|done|done].
    + specialize (Hdone eq_refl). by apply elem_of_nil in Hdone.
  - intros v x d' Hv [Hc| ->]%Hcl Hx; [eapply HcQ; [done|done|by apply Hsub]|].
    eapply (ow_trans Hw); [exact HDu|]. apply (Hmin (x, d')). by apply Hsub.
  - intros ? [= <-]. split_and!; [done|done|done|].
    intros v Hv HFv.
    destruct (Hopen u Hu) as [HinQ|HinQ].
    + intros [Hc|Hc]; [congruence|done].
    + apply (HcQ v u _); [done|by left|done].
    + rewrite HinQ. by apply Hmax.
  - intros v ei Hv HS.
    destruct (Hpred v ei Hv HS) as (ed & He & H1 & H2 & H3 & H4 & H5 & H6).
    exists ed. split_and!; try done. destruct H3 as [H3|H3]; [by left|done].
Qed.

(** One turn of the [for] loop over the edges of [u]. *)
Lemma inv_relax (order done : list nat) (st : Dijkstra) (u ei : nat) :
  dijkstra_inv g a (Some u) done order st →
  ei ∈ edgesOf g u →
  dijkstra_inv g a (Some u) (done ++ [ei]) order (relaxEdge g u st ei).
Proof.
  intros Hinv Hei.
  destruct (solver_ok_edge g u ei Hok Hei) as (ed & He & Hends & Hv1 & Hv2).
  assert (Hv : otherVertex ed u < n).
  { unfold otherVertex. by destruct (decide (e_v1 ed = u)). }
  destruct Hinv as [Hlen HQ Hopen Hmax Hsrc Hreach Hopt Hedges HcQ Hcur Hpred HsrcS Hord].
  destruct Hlen as (HlD & HlF & HlS).
  destruct (Hcur u eq_refl) as (Hu & HFu & (esu & Hwu & HDu) & Hfin).
  unfold relaxEdge. rewrite He. cbv zeta.
  set (v := otherVertex ed u) in *.
  set (d := wadd (readD (d_D st) u) (weight ed)).
  assert (Hclosed_le : ∀ x, x < n → closed (Some u) (d_F st) x →
                            wle (readD (d_D st) x) d).
  { intros x Hx [Hc|[= ->]].
    - eapply (ow_trans Hw); [by apply Hfin|apply wle_add].
    - apply wle_add. }
  destruct (negb (readF (d_F st) v) && wltb d (readD (d_D st) v)) eqn:Hcond.
  2:{ assert (Hle : wle (readD (d_D st) v) d).
      { apply andb_false_iff in Hcond as [Hc|Hc].
        - apply negb_false_iff in Hc. apply Hclosed_le; [done|by left].
        - exact Hc. }
      split; try done.
      intros u' ei' ed' Hu' Hc' Hei' Hdone He'.
      destruct (decide (u' = u)) as [->|Hne].
      - specialize (Hdone eq_refl).
        apply elem_of_app in Hdone as [Hd|Hd%list_elem_of_singleton].
        + by apply (Hedges u ei' ed').
        + subst ei'. rewrite He in He'. injection He' as <-. exact Hle.
      - apply (Hedges u' ei' ed'); try done. by intros [= ?]. }
  apply andb_true_iff in Hcond as [HFv%negb_true_iff Hlt].
  assert (Hdv : wle d (readD (d_D st) v)) by (by apply (ow_asym Hw)).
  assert (Hvu : v ≠ u).
  { intros Heq. rewrite Heq in Hlt.
    pose proof (wle_add (readD (d_D st) u) ed) as Hc. unfold wle in Hc.
    fold d in Hc. congruence. }
  assert (Hva : v ≠ a).
  { intros Heq. rewrite Heq, (proj2 Hsrc) in Hlt.
    assert (Hz : wle wzero d).
    { eapply (ow_trans Hw); [|apply wle_add]. rewrite HDu.
      by eapply walk_cost_nonneg. }
    unfold wle in Hz. congruence. }
  assert (Hvc : ¬ closed (Some u) (d_F st) v).
  { intros [Hc|[= Hc]]; congruence. }
  assert (HD' : ∀ x, readD (<[v:=d]> (d_D st)) x
                     = if decide (x = v) then d else readD (d_D st) x).
  { intros x. apply readD_insert. lia. }
  assert (HS' : ∀ x, readS (<[v:=Some ei]> (d_S st)) x
                     = if decide (x = v) then Some ei else readS (d_S st) x).
  { intros x. apply readS_insert. lia. }
  assert (HDle : ∀ x, wle (readD (<[v:=d]> (d_D st)) x) (readD (d_D st) x)).
  { intros x. rewrite HD'. destruct (decide (x = v)) as [->|]; [done|apply (ow_refl Hw)]. }
  assert (HDc : ∀ x, closed (Some u) (d_F st) x →
                     readD (<[v:=d]> (d_D st)) x = readD (d_D st) x).
  { intros x Hc. rewrite HD'. destruct (decide (x = v)) as [->|]; [by destruct Hvc|done]. }
  assert (Hwv : walk g a (esu ++ [ei]) v ∧ d = cost g (esu ++ [ei])).
  { split; [by apply (walk_snoc g a esu u ei ed)|].
    rewrite (cost_snoc g esu ei ed He). unfold d. by rewrite HDu. }
  split; simpl.
  - by rewrite !length_insert.
  - intros x d' [Hx|Hx%list_elem_of_singleton]%elem_of_app.
    + destruct (HQ x d' Hx) as (H1 & H2 & H3 & H4 & es & H5 & H6).
      split_and!; [done|eapply (ow_trans Hw); [apply HDle|done]|done| |].
      * rewrite HS'. destruct (decide (x = v)); [right; by eexists|done].
      * rewrite HD'. destruct (decide (x = v)) as [->|]; [|by exists es].
        by exists (esu ++ [ei]).
    + injection Hx as -> ->. split_and!.
      * done.
      * rewrite HD', decide_True by done. apply (ow_refl Hw).
      * eapply (ow_trans Hw); [exact Hdv|by apply Hmax].
      * right. rewrite HS', decide_True by done. by eexists.
      * rewrite HD', decide_True by done. by exists (esu ++ [ei]).
  - intros x Hx Hnc. rewrite HD'. destruct (decide (x = v)) as [->|Hne].
    + left. apply elem_of_app. right. by apply list_elem_of_singleton.
    + destruct (Hopen x Hx Hnc) as [?|?]; [left; apply elem_of_app; by left|by right].
  - intros x Hx. eapply (ow_trans Hw); [apply HDle|by apply Hmax].
  - split; [done|]. rewrite HD', decide_False by done. apply Hsrc.
  - intros x Hx Hc. rewrite HS'.
    destruct (decide (x = v)); [right; by eexists|by apply Hreach].
  - intros x es Hx Hc Hwalk. rewrite HDc by done. by apply Hopt.
  - intros u' ei' ed' Hu' Hc' Hei' Hdone He'. rewrite (HDc u') by done.
    assert (Hcase : wle (readD (d_D st) (otherVertex ed' u'))
                        (wadd (readD (d_D st) u') (weight ed'))
                    ∨ (u' = u ∧ ed' = ed)).
    { destruct (decide (u' = u)) as [->|Hne].
      - specialize (Hdone eq_refl).
        apply elem_of_app in Hdone as [Hd|Hd%list_elem_of_singleton].
        + left. by apply (Hedges u ei' ed').
        + subst ei'. right. split; [done|congruence].
      - left. apply (Hedges u' ei' ed'); try done. by intros [= ?]. }
    destruct Hcase as [Hold|[-> ->]].
    + eapply (ow_trans Hw); [apply HDle|done].
    + fold v. rewrite HD', decide_True by done. apply (ow_refl Hw).
  - intros x y d' Hx Hc [Hy|Hy%list_elem_of_singleton]%elem_of_app.
    + rewrite HDc by done. by eapply HcQ.
    + injection Hy as -> ->. rewrite HDc by done. by apply Hclosed_le.
  - intros ? [= <-]. split_and!; [done|done| |].
    + exists esu. split; [done|]. rewrite HDc; [done|by right].
    + intros x Hx HFx. rewrite !HDc; [by apply Hfin|by right|by left].
  - intros x ei' Hx. rewrite HS'. destruct (decide (x = v)) as [->|Hne].
    + intros [= <-]. exists ed.
      assert (Hback : otherVertex ed v = u).
      { destruct (otherVertex_back ed u Hends) as [Hb|Hloop]; [done|].
        exfalso. apply Hvu. unfold v, otherVertex.
        destruct Hends; destruct (decide (e_v1 ed = u)); congruence. }
      rewrite Hback. split_and!; [done|done|done|by right| |done|done].
      rewrite HD', decide_True by done. rewrite HDc; [done|by right].
    + intros HS. destruct (Hpred x ei' Hx HS) as (ed' & He' & H1 & H2 & H3 & H4 & H5 & H6).
      exists ed'. split_and!; try done.
      rewrite HD', decide_False by done. by rewrite HDc.
  - rewrite HS', decide_False by done. done.
  - destruct Hord as (Hnd & Hmem & Hpost). split_and!; [done|done|].
    intros pre x post ei' ed' Heq. rewrite HS'. destruct (decide (x = v)) as [->|Hne].
    + exfalso. assert (Hin : v ∈ order).
      { rewrite Heq. apply elem_of_app. right. by left. }
      apply Hmem in Hin as [_ ?]. congruence.
    + by apply (Hpost pre x post ei' ed').
Qed.

(** The whole [for] loop over the edges of [u]. *)
Lemma inv_relax_fold (order : list nat) (u : nat) (es done : list nat) (st : Dijkstra) :
  dijkstra_inv g a (Some u) done order st →
  (∀ ei, ei ∈ es → ei ∈ edgesOf g u) →
  dijkstra_inv g a (Some u) (done ++ es) order (foldl (relaxEdge g u) st es).
Proof.
  revert done st. induction es as [|ei es IH]; intros done st Hinv Hes; simpl.
  - by rewrite app_nil_r.
  - replace (done ++ ei :: es) with ((done ++ [ei]) ++ es) by (by rewrite <- app_assoc).
    apply IH.
    + apply inv_relax; [done|]. apply Hes. by left.
    + intros ei' Hin. apply Hes. by right.
Qed.

(** [F[u] = true] after the edges of [u]. *)
Lemma inv_finalise (order : list nat) (st : Dijkstra) (u : nat) :
  dijkstra_inv g a (Some u) (edgesOf g u) order st →
  dijkstra_inv g a None [] (u :: order)
    (mkDijkstra (d_Q st) (d_D st) (<[u := true]> (d_F st)) (d_S st) (d_u st)).
Proof.
  intros Hinv.
  destruct Hinv as [Hlen HQ Hopen Hmax Hsrc Hreach Hopt Hedges HcQ Hcur Hpred HsrcS Hord].
  destruct Hlen as (HlD & HlF & HlS).
  destruct (Hcur u eq_refl) as (Hu & HFu & _ & _).
  assert (HF' : ∀ x, readF (<[u:=true]> (d_F st)) x
                     = if decide (x = u) then true else readF (d_F st) x).
  { intros x. apply readF_insert. lia. }
  assert (Hcl : ∀ x, closed None (<[u:=true]> (d_F st)) x ↔ closed (Some u) (d_F st) x).
  { intros x. unfold closed. rewrite HF'. destruct (decide (x = u)) as [->|Hne].
    - split; [by right|by left].
    - split; (intros [?|Hc]; [by left|]); [done|]. injection Hc as ->. done. }
  split; simpl.
  - by rewrite length_insert.
  - done.
  - intros v Hv Hnc. apply Hopen; [done|]. by rewrite <- Hcl.
  - done.
  - done.
  - intros v Hv Hc%Hcl. by apply Hreach.
  - intros v es Hv Hc%Hcl. by apply Hopt.
  - intros v ei ed Hv Hc%Hcl Hei _ He. apply (Hedges v ei ed); try done.
    by intros [= ->].
  - intros v x d Hv Hc%Hcl. by apply HcQ.
  - done.
  - intros v ei Hv HS. destruct (Hpred v ei Hv HS) as (ed & He & H1 & H2 & H3 & H4 & H5 & H6).
    exists ed. split_and!; try done. by apply Hcl.
  - done.
  - destruct Hord as (Hnd & Hmem & Hpost).
    assert (Hnin : u ∉ order).
    { intros Hin%Hmem. destruct Hin. congruence. }
    split_and!.
    + by constructor.
    + intros v. rewrite elem_of_cons, HF', Hmem.
      destruct (decide (v = u)) as [->|Hne]; [by split; [|left]|].
      split; [by intros [?|?]|by right].
    + intros pre v post ei ed Heq HS He. destruct pre as [|p pre]; simpl in Heq.
      * injection Heq as <- <-.
        destruct (Hpred u ei Hu HS) as (ed' & He' & H1 & H2 & H3 & _).
        rewrite He in He'. injection He' as <-.
        apply Hmem. split; [done|]. destruct H3 as [?|[= ?]]; [done|]. congruence.
      * injection Heq as <- Heq. by apply (Hpost pre v post ei ed).
Qed.

(** The predecessor edges lead from a processed vertex back to the
    source, along a walk of the accumulated weight recorded for it. *)
Lemma chain_final (order : list nat) (st : Dijkstra) :
  dijkstra_inv g a None [] order st →
  ∀ k pre v post fuel,
    length post ≤ k → order = pre ++ v :: post → length post ≤ fuel →
    ∃ path, walkBackPath fuel g (d_S st) v = Some path ∧
            walk g a (reverse path) v ∧
            cost g (reverse path) = readD (d_D st) v.
Proof.
  intros Hinv.
  destruct Hinv as [Hlen HQ Hopen Hmax Hsrc Hreach Hopt Hedges HcQ Hcur Hpred HsrcS Hord].
  destruct Hord as (Hnd & Hmem & Hpost).
  induction k as [|k IH]; intros pre v post fuel Hk Heq Hfuel.
  all: assert (Hv : v ∈ order) by (rewrite Heq; apply elem_of_app; right; by left).
  all: apply Hmem in Hv as [Hv HFv].
  all: destruct (readS (d_S st) v) as [ei|] eqn:HS.
  all: try (destruct (Hreach v Hv) as [->|[? Hs]]; [by left| |congruence];
            exists []; destruct fuel; simpl; rewrite HsrcS;
            (split_and!; [done|constructor|symmetry; apply Hsrc])).
  all: destruct (Hpred v ei Hv HS) as (ed & He & H1 & H2 & H3 & H4 & H5 & H6).
  all: pose proof (Hpost pre v post ei ed Heq HS He) as Hin.
  - destruct post; [by apply elem_of_nil in Hin|simpl in Hk; lia].
  - apply list_elem_of_split in Hin as (pre' & post' & ->).
    rewrite length_app in Hk, Hfuel. simpl in Hk, Hfuel.
    destruct fuel as [|fuel]; [lia|].
    destruct (IH (pre ++ v :: pre') (otherVertex ed v) post' fuel) as (rest & Hrest & Hwalk & Hcost).
    + lia.
    + rewrite Heq. by rewrite <- app_assoc.
    + lia.
    + exists (ei :: rest). simpl. rewrite HS, He, Hrest. simpl.
      rewrite reverse_cons. split_and!; [done| |].
      * pose proof (walk_snoc g a _ _ ei ed Hwalk H5 He) as Hstep.
        by rewrite H6 in Hstep.
      * rewrite (cost_snoc g _ ei ed He), Hcost. by rewrite <- H4.
Qed.

(** The processed vertices are distinct vertices of the graph. *)
Lemma order_length (order : list nat) (st : Dijkstra) :
  dijkstra_inv g a None [] order st → length order ≤ n.
Proof.
  intros Hinv. destruct (di_order _ _ _ _ _ _ Hinv) as (Hnd & Hmem & _).
  transitivity (length (seq 0 n)); [|by rewrite length_seq].
  apply submseteq_length, NoDup_submseteq; [done|].
  intros x Hx%Hmem. apply elem_of_seq. lia.
Qed.

(** The loop ends either on the target, popped with a least distance from
    a state at the head of the loop, or with the queue exhausted. *)
Lemma loop_end (fuel b : nat) (order : list nat) (st st' : Dijkstra) :
  dijkstra_inv g a None [] order st →
  d_u st ≠ Some b → readF (d_F st) b = false →
  dijkstraLoop fuel g b st = Some st' →
  ∃ order' st0,
    dijkstra_inv g a None [] order' st0 ∧ readF (d_F st0) b = false ∧
    d_D st' = d_D st0 ∧ d_S st' = d_S st0 ∧
    ((d_u st' = Some b ∧ ∃ d, (b, d) ∈ d_Q st0 ∧ ∀ y, y ∈ d_Q st0 → wle d y.2)
     ∨ (d_u st' ≠ Some b ∧ d_Q st0 = [])).
Proof.
  revert order st. induction fuel as [|fuel IH]; intros order st Hinv Hu HFb; simpl.
  - destruct (popTop (d_Q st)) as [[[u d] Q']|] eqn:Hpop; [done|].
    intros [= <-]. exists order, st. split_and!; try done.
    right. split; [done|]. by apply popTop_None.
  - destruct (popTop (d_Q st)) as [[[u d] Q']|] eqn:Hpop.
    2:{ intros [= <-]. exists order, st. split_and!; try done.
        right. split; [done|]. by apply popTop_None. }
    apply popTop_min in Hpop as (Hin & Hmin & Hsub & Hrest).
    destruct (decide (u = b)) as [->|Hub].
    { intros [= <-]. exists order, st. split_and!; try done.
      left. split; [done|]. by exists d. }
    simpl. destruct (readF (d_F st) u) eqn:HFu.
    + apply (IH order); [|simpl; congruence|done].
      by apply (inv_pop_stale order st u d).
    + set (st1 := mkDijkstra Q' (d_D st) (d_F st) (d_S st) (Some u)).
      destruct (relax_fold_frame g u (edgesOf g u) st1) as (HF2 & Hu2 & _).
      apply (IH (u :: order)).
      * apply inv_finalise.
        apply (inv_relax_fold order u (edgesOf g u) [] st1); [|done].
        by apply (inv_pop_fresh order st u d).
      * simpl. rewrite Hu2. simpl. congruence.
      * simpl. rewrite HF2. simpl. rewrite readF_insert.
        -- by rewrite decide_False by done.
        -- destruct (di_Q _ _ _ _ _ _ Hinv u d Hin) as (Hlt & _).
           destruct (di_len _ _ _ _ _ _ Hinv) as (_ & -> & _). done.
Qed.

End Loop.

(** The two loops that walk back along [S] take the same turns. *)
Lemma walkBack_of_path (fuel : nat) (g : QgsTracerGraph) (S : list (option nat))
    (u : nat) (points : LineString) :
  is_Some (walkBackPath fuel g S u) → is_Some (walkBack fuel g S u points).
Proof using Type.
  revert u points. induction fuel as [|fuel IH]; intros u points; simpl.
  - by destruct (readS S u).
  - destruct (readS S u) as [ei|]; [|done].
    destruct (g_e g !! ei) as [ed|]; [|done].
    intros Hp. apply IH. by apply fmap_is_Some in Hp.
Qed.

Lemma readF_init (g : QgsTracerGraph) (a b : nat) :
  readF (d_F (dijkstraInit g a)) b = false.
Proof using Type.
  unfold dijkstraInit, readF. simpl.
  destruct (replicate (length (g_v g)) false !! b) eqn:E; [|done].
  by apply lookup_replicate in E as [-> _].
Qed.

(** The result of the solver once the loop has ended on the target. *)
Lemma solver_break (g : QgsTracerGraph) (a b : nat) (st : Dijkstra) :
  solver_ok g → a < length (g_v g) →
  dijkstraLoop (dijkstraFuel g) g b (dijkstraInit g a) = Some st →
  d_u st = Some b →
  ∃ path, walkBackPath (length (g_v g)) g (d_S st) b = Some path ∧
          walk g a (reverse path) b ∧
          cost g (reverse path) = readD (d_D st) b ∧
          ∀ es, walk g a es b → wle (readD (d_D st) b) (cost g es).
Proof.
  intros Hok Ha Hloop Hub.
  destruct (loop_end g a Hok Ha (dijkstraFuel g) b [] (dijkstraInit g a) st
              (dijkstra_inv_init g a Hok Ha))
    as (order & st0 & Hinv & HFb & HD & HS & [[_ (d & Hin & Hmin)]|[Hne _]]);
    [done|apply readF_init|done|  |by destruct Hne].
  rewrite HD, HS.
  destruct (di_Q _ _ _ _ _ _ Hinv b d Hin) as (Hb & HDb & Hdmax & Hrb & _).
  assert (Hopt : ∀ es, walk g a es b → wle (readD (d_D st0) b) (cost g es)).
  { intros es Hwalk.
    destruct (walk_bound g a Hok Ha order st0 d Hinv (λ x d' Hx, Hmin (x, d') Hx)
                Hdmax es b Hwalk) as [[HF _]|Hle]; [congruence|].
    by eapply (ow_trans Hw). }
  destruct (readS (d_S st0) b) as [ei|] eqn:HSb.
  - destruct (di_pred _ _ _ _ _ _ Hinv b ei Hb HSb)
      as (ed & He & H1 & H2 & H3 & H4 & H5 & H6).
    assert (Hin' : otherVertex ed b ∈ order).
    { apply (di_order _ _ _ _ _ _ Hinv). split; [done|]. by destruct H3. }
    apply list_elem_of_split in Hin' as (pre & post & Horder).
    pose proof (order_length g a Hok Ha order st0 Hinv) as Hlen.
    rewrite Horder, length_app in Hlen. simpl in Hlen.
    assert (Hfuel : ∃ fuel, length (g_v g) = S fuel ∧ length post ≤ fuel).
    { exists (length (g_v g) - 1). lia. }
    destruct Hfuel as (fuel & Hn & Hfuel). rewrite Hn.
    destruct (chain_final g a Hok Ha order st0 Hinv (length post) pre (otherVertex ed b)
                post fuel) as (rest & Hrest & Hwalk & Hcost); [done|done|lia|].
    exists (ei :: rest). simpl. rewrite HSb, He, Hrest. simpl.
    rewrite reverse_cons, (cost_snoc g _ ei ed He), Hcost.
    split_and!; [done| |by rewrite <- H4|done].
    pose proof (walk_snoc g a _ _ ei ed Hwalk H5 He) as Hstep.
    by rewrite H6 in Hstep.
  - destruct Hrb as [->|[? ?]]; [|congruence].
    exists []. destruct (length (g_v g)); simpl; rewrite HSb.
    all: split_and!; [done|constructor|symmetry; apply (di_src _ _ _ _ _ _ Hinv)|done].
Qed.

(** Once the loop has ended on the target, the loop that walks back from
    it along the predecessor edges comes to an end. *)
Lemma walkBack_ends (g : QgsTracerGraph) (a b : nat) (st : Dijkstra) :
  solver_ok g → a < length (g_v g) →
  dijkstraLoop (dijkstraFuel g) g b (dijkstraInit g a) = Some st →
  d_u st = Some b →
  is_Some (walkBack (length (g_v g)) g (d_S st) b []).
Proof.
  intros Hok Ha Hst Hub.
  destruct (solver_break g a b st Hok Ha Hst Hub) as (path & Hp & _).
  apply walkBack_of_path. by rewrite Hp.
Qed.

End SolverOptimal.

(** ** What the solver returns *)

Section SolverResults.

Context `{Geometry}.

(** X16 (shortestPath): when the loop of the solver ends on the target,
    the edges collected in [path] while walking back, reversed as the
    source reverses them, are a walk from the source to the target, and no
    walk between the two accumulates a smaller weight. *)
Theorem shortestPath_least_walk (g : QgsTracerGraph) (a b : nat) (st : Dijkstra) :
  ordered_weights → solver_ok g → a < length (g_v g) →
  dijkstraLoop (dijkstraFuel g) g b (dijkstraInit g a) = Some st →
  d_u st = Some b →
  ∃ path, walkBackPath (length (g_v g)) g (d_S st) b = Some path ∧
          walk g a (reverse path) b ∧
          ∀ es, walk g a es b → wle (cost g (reverse path)) (cost g es).
Proof.
  intros Hw Hok Ha Hloop Hub.
  destruct (solver_break Hw g a b st Hok Ha Hloop Hub) as (path & Hp & Hwalk & Hcost & Hopt).
  exists path. split_and!; [done|done|]. rewrite Hcost. exact Hopt.
Qed.

(** X17 (shortestPath): the solver returns, whatever the target: its
    first loop ends, and so does the loop that walks back from the target
    along the predecessor edges. *)
Theorem shortestPath_returns (g : QgsTracerGraph) (a b : nat) :
  ordered_weights → solver_ok g → a < length (g_v g) →
  is_Some (shortestPath g (Some a) (Some b)).
Proof.
  intros Hw Hok Ha. unfold shortestPath.
  destruct (dijkstraLoop_terminates g a b) as [st Hst]. rewrite Hst.
  destruct (decide (d_u st = Some b)) as [Hub|]; [|done].
  by apply fmap_is_Some, (walkBack_ends Hw g a b st).
Qed.

(** X18 (shortestPath): when some walk from the source to the target
    accumulates less than the largest weight, the loop of the solver ends
    on the target and not with its queue exhausted. *)
Theorem shortestPath_reaches (g : QgsTracerGraph) (a b : nat) (es : list nat) :
  ordered_weights → solver_ok g → a < length (g_v g) →
  walk g a es b → wltb (cost g es) wmax = true →
  ∃ st, dijkstraLoop (dijkstraFuel g) g b (dijkstraInit g a) = Some st ∧
        d_u st = Some b.
Proof.
  intros Hw Hok Ha Hwalk Hlt.
  destruct (dijkstraLoop_terminates g a b) as [st Hst]. exists st. split; [done|].
  destruct (loop_end Hw g a Hok Ha (dijkstraFuel g) b [] (dijkstraInit g a) st
              (dijkstra_inv_init Hw g a Hok Ha))
    as (order & st0 & Hinv & HFb & _ & _ & [[Hub _]|[_ HQ]]);
    [done|apply readF_init|done|done|].
  destruct (walk_bound Hw g a Hok Ha order st0 wmax Hinv) with (es := es) (v := b)
    as [[HF _]|Hle]; [|apply (ow_refl Hw)|done|congruence|].
  - intros x d Hx. rewrite HQ in Hx. by apply elem_of_nil in Hx.
  - unfold wle in Hle. congruence.
Qed.

End SolverResults.

(** ** The graphs handed to the solver *)

Section SolverInput.

Context `{Geometry}.

Lemma edgesOf_lookup (g : QgsTracerGraph) (u ei : nat) :
  ei ∈ edgesOf g u ↔ ∃ vx, g_v g !! u = Some vx ∧ ei ∈ v_edges vx.
Proof.
  unfold edgesOf. destruct (g_v g !! u) as [vx|]; simpl.
  - split; [by exists vx|by intros (? & [= <-] & ?)].
  - split; [by intros ?%elem_of_nil|by intros (? & ? & _)].
Qed.

(** A graph whose adjacency lists hold exactly the incident edges is one
    the solver can run on. *)
Lemma wf_graph_solver_ok (g : QgsTracerGraph) : wf_graph g → solver_ok g.
Proof.
  intros [Hends Hadj]. split; [done|].
  intros u ei (vx & Hvx & Hin)%edgesOf_lookup.
  specialize (Hadj u vx ei Hvx). unfold occurrences, incidence in Hadj.
  apply list_elem_of_In, (count_occ_In Nat.eq_dec) in Hin.
  destruct (g_e g !! ei) as [ed|]; [|lia].
  exists ed. split; [done|].
  destruct (decide (e_v1 ed = u)); [by left|].
  destruct (decide (e_v2 ed = u)); [by right|lia].
Qed.

(** A splice keeps the graph one the solver can run on: the two edges it
    appends end at vertices of the graph, and every adjacency entry, the
    replaced ones and those of the joined vertex included, is an edge that
    ends at its vertex. *)
Lemma pointInGraph_keeps_ok (g : QgsTracerGraph) (p : Point) :
  solver_ok g → solver_ok (pointInGraph g p).1.
Proof.
  intros [Hends Hadj]. unfold pointInGraph.
  destruct (point2vertex g p); [done|].
  destruct (point2edge g p) as [[k after]|] eqn:Hp;
    [|unfold joinVertexToGraph; by rewrite Hp].
  destruct (point2edge_Some g p k after Hp) as (ed & He & _).
  rewrite (joinVertexToGraph_Some g p k after ed Hp He). simpl.
  destruct (Hends k ed He) as [Hv1 Hv2].
  set (e1 := mkE (e_v1 ed) (length (g_v g)) (splitAt (e_coords ed) p after).1).
  set (e2 := mkE (length (g_v g)) (e_v2 ed) (splitAt (e_coords ed) p after).2).
  assert (Hl1 : (g_e g ++ [e1; e2]) !! length (g_e g) = Some e1).
  { rewrite lookup_app_r by lia. by rewrite Nat.sub_diag. }
  assert (Hl2 : (g_e g ++ [e1; e2]) !! (length (g_e g) + 1) = Some e2).
  { rewrite lookup_app_r by lia.
    by replace (length (g_e g) + 1 - length (g_e g)) with 1 by lia. }
  split; simpl.
  - intros i ed' Hi. rewrite length_app, !length_alter. simpl.
    apply lookup_app_Some in Hi as [Hi|[_ Hi]].
    + destruct (Hends i ed' Hi). lia.
    + destruct (i - length (g_e g)) as [|[|?]]; simpl in Hi; [| |done].
      all: injection Hi as <-; simpl; lia.
  - intros u ei (vx & Hvx & Hin)%edgesOf_lookup. simpl in Hvx.
    apply lookup_app_Some in Hvx as [Hvx|[Hlen Hvx]].
    + assert (Hold : ei ∈ edgesOf g u ∨ (ei = length (g_e g) ∧ u = e_v1 ed)
                     ∨ (ei = length (g_e g) + 1 ∧ u = e_v2 ed)).
      { destruct (decide (u = e_v2 ed)) as [->|Hn2].
        - rewrite list_lookup_alter_eq in Hvx.
          apply fmap_Some in Hvx as (vy & Hvy & ->).
          apply elem_of_replaceEdgeRef in Hin as [Hin|[Hin _]]; [|right; by right].
          destruct (decide (e_v2 ed = e_v1 ed)) as [Heq|Hn1].
          + rewrite Heq, list_lookup_alter_eq in Hvy.
            apply fmap_Some in Hvy as (vz & Hvz & ->).
            apply elem_of_replaceEdgeRef in Hin as [Hin|[Hin _]]; [|right; left; by rewrite Heq].
            left. apply edgesOf_lookup. exists vz. by rewrite Heq.
          + rewrite list_lookup_alter_ne in Hvy by done.
            left. apply edgesOf_lookup. by exists vy.
        - rewrite list_lookup_alter_ne in Hvx by done.
          destruct (decide (u = e_v1 ed)) as [->|Hn1].
          + rewrite list_lookup_alter_eq in Hvx.
            apply fmap_Some in Hvx as (vy & Hvy & ->).
            apply elem_of_replaceEdgeRef in Hin as [Hin|[Hin _]]; [|right; by left].
            left. apply edgesOf_lookup. by exists vy.
          + rewrite list_lookup_alter_ne in Hvx by done.
            left. apply edgesOf_lookup. by exists vx. }
      destruct Hold as [Hold|[[-> ->]|[-> ->]]].
      * destruct (Hadj u ei Hold) as (ed' & He' & Hu). exists ed'. split; [|done].
        by apply lookup_app_l_Some.
      * exists e1. split; [done|by left].
      * exists e2. split; [done|by right].
    + rewrite !length_alter in Hlen, Hvx.
      destruct (u - length (g_v g)) as [|?] eqn:Hu; simpl in Hvx; [|done].
      injection Hvx as <-. simpl in Hin.
      assert (u = length (g_v g)) as -> by lia.
      apply elem_of_cons in Hin as [->|Hin].
      * exists e1. split; [done|by right].
      * apply list_elem_of_singleton in Hin as ->. exists e2. split; [done|by left].
Qed.

Lemma pointInGraph_in_range (g : QgsTracerGraph) (p : Point) (v : nat) :
  (pointInGraph g p).2 = Some v → v < length (g_v (pointInGraph g p).1).
Proof.
  unfold pointInGraph, point2vertex.
  destruct (list_find _ (g_v g)) as [[i vx]|] eqn:Hf; simpl.
  - intros [= <-]. apply list_find_Some in Hf as (Hl & _). by eapply lookup_lt_Some.
  - destruct (point2edge g p) as [[k after]|] eqn:Hp;
      [|unfold joinVertexToGraph; by rewrite Hp].
    destruct (point2edge_Some g p k after Hp) as (ed & He & _).
    rewrite (joinVertexToGraph_Some g p k after ed Hp He). simpl.
    intros [= <-]. rewrite length_app, !length_alter. simpl. lia.
Qed.

(** X12 (findShortestPath, pointInGraph, joinVertexToGraph): what a query
    hands to the solver stays inside the arrays of the solver: after the
    two points are resolved the edges end at vertices of the graph, the
    adjacency entries are edges of the graph that end at their vertex, and
    the two vertices found are vertices of the graph. *)
Theorem query_solver_input (g : QgsTracerGraph) (p1 p2 : Point) :
  solver_ok g →
  let r1 := pointInGraph g p1 in
  let r2 := pointInGraph r1.1 p2 in
  solver_ok r2.1 ∧
  (∀ v, r1.2 = Some v → v < length (g_v r2.1)) ∧
  (∀ v, r2.2 = Some v → v < length (g_v r2.1)).
Proof.
  intros Hok r1 r2. subst r1 r2. split_and!.
  - by apply pointInGraph_keeps_ok, pointInGraph_keeps_ok.
  - intros v Hv%pointInGraph_in_range.
    destruct (pointInGraph_grows (pointInGraph g p1).1 p2) as [Heq|(_ & Hlen & _)].
    + by rewrite Heq.
    + rewrite Hlen. lia.
  - intros v Hv. by apply pointInGraph_in_range.
Qed.

End SolverInput.

(** ** A query returns *)

Section SessionSolver.

Context `{Collaborators}.

Lemma init_solver_ok (t : QgsTracer) (g : QgsTracerGraph) :
  (∀ g0, mGraph t = Some g0 → solver_ok g0) →
  mGraph (init t).1 = Some g → solver_ok g.
Proof.
  intros Hc. destruct (mGraph t) as [g0|] eqn:Ht.
  - unfold init. rewrite Ht. simpl. rewrite Ht. intros [= <-]. by apply Hc.
  - intros Hg. apply wf_graph_solver_ok. by eapply (init_wf t g).
Qed.

(** X19 (findShortestPath): a query returns.  Whatever the two points,
    on a session whose cached graph, if it has one, is one the solver can
    run on, neither loop of the solver runs for ever. *)
Theorem findShortestPath_returns (t : QgsTracer) (p1 p2 : Point) :
  ordered_weights →
  (∀ g, mGraph t = Some g → solver_ok g) →
  is_Some (findShortestPath t p1 p2).
Proof.
  intros Hw Hc. unfold findShortestPath.
  destruct (mGraph (init t).1) as [g0|] eqn:Hg0; [|done].
  pose proof (init_solver_ok t g0 Hc Hg0) as Hok0.
  pose proof (pointInGraph_keeps_ok g0 p1 Hok0) as Hok1.
  pose proof (pointInGraph_in_range g0 p1) as Hr1.
  destruct (pointInGraph g0 p1) as [g1 v1]. simpl in *.
  pose proof (pointInGraph_keeps_ok g1 p2 Hok1) as Hok2.
  pose proof (pointInGraph_grows g1 p2) as Hgr.
  destruct (pointInGraph g1 p2) as [g2 v2]. simpl in *.
  destruct v1 as [a|]; [|done]. destruct v2 as [b|]; [|done].
  specialize (Hr1 a eq_refl).
  assert (Ha : a < length (g_v g2)).
  { destruct Hgr as [->|(_ & -> & _)]; lia. }
  unfold shortestPath.
  destruct (dijkstraLoop_terminates g2 a b) as [st Hst]. rewrite Hst.
  destruct (decide (d_u st = Some b)) as [Hub|]; [|done].
  destruct (walkBack_ends Hw g2 a b st Hok2 Ha Hst Hub) as [pts ->]. done.
Qed.

End SessionSolver.

(** * Concrete runs *)

Section Runs.

Import Grid Examples.

(** C10 on [sessionA]: a changed layer list and a changed extent discard
    the graph, the offset setters keep it. *)
Lemma setters_and_cached_graph_witness :
  [] ≠ mLayers sessionA ∧ (1, 1, 1, 1)%Z ≠ mExtent sessionA ∧
  mGraph (setOffset sessionA 5%Z) = mGraph sessionA ∧
  mGraph (setOffsetParameters sessionA 4%Z 1%Z 3%Z) = mGraph sessionA ∧
  mGraph (setLayers sessionA []) = None ∧
  mGraph (setExtent sessionA (1, 1, 1, 1)%Z) = None.
Proof.
  assert (Hl : [] ≠ mLayers sessionA) by (vm_compute; discriminate).
  assert (He : (1, 1, 1, 1)%Z ≠ mExtent sessionA) by (vm_compute; discriminate).
  destruct (setters_and_cached_graph sessionA 5%Z 3%Z 4%Z 1%Z [] () () ()
              (1, 1, 1, 1)%Z Hl He)
    as ((Ho & _) & (Hp & _) & Hlay & _ & _ & Hext).
  repeat split; assumption.
Defined.

(** C5 as stated fails: (0,0) is the vertex 0 of the graph of [sessionA],
    and the query from it to itself reports [ErrNoPath], not [ErrNone]. *)
Lemma same_point_is_not_ErrNone :
  (∃ g, mGraph sessionA = Some g ∧ point2vertex g (P 0 0) = Some 0) ∧
  answer sessionA (P 0 0) (P 0 0) = Some ([], ErrNoPath) ∧
  ¬ (∃ points, answer sessionA (P 0 0) (P 0 0) = Some (points, ErrNone)).
Proof.
  split; [exists graphA; split; reflexivity|].
  split; [vm_compute; reflexivity|].
  intros [points Hp]. vm_compute in Hp. discriminate.
Qed.

Lemma findShortestPath_same_point_witness :
  ∃ g, mGraph (init sessionA).1 = Some g ∧ point2vertex g (P 0 0) = Some 0 ∧
       findShortestPath sessionA (P 0 0) (P 0 0)
       = Some (mkOutcome (withGraph (init sessionA).1 (Some (resetGraph g))) []
                         ErrNoPath [CallShortestPath 0 0; CallResetGraph]).
Proof.
  exists graphA.
  assert (Hg : mGraph (init sessionA).1 = Some graphA)
    by reflexivity.
  assert (Hv : point2vertex graphA (P 0 0) = Some 0)
    by reflexivity.
  split; [exact Hg|]. split; [exact Hv|].
  exact (findShortestPath_same_point sessionA graphA (P 0 0) 0 Hg Hv).
Defined.

(** C6 on [sessionA]: (5,5) is off the linework. *)
Lemma findShortestPath_unresolved_witness :
  mGraph (init sessionA).1 = Some graphA ∧
  unresolved graphA (P 5 5) ∧
  o_error <$> findShortestPath sessionA (P 5 5) (P 0 0) = Some ErrPoint1 ∧
  o_calls <$> findShortestPath sessionA (P 5 5) (P 0 0) = Some [] ∧
  o_error <$> findShortestPath sessionA (P 0 0) (P 5 5) = Some ErrPoint2 ∧
  o_calls <$> findShortestPath sessionA (P 0 0) (P 5 5) = Some [].
Proof.
  assert (Hg : mGraph (init sessionA).1 = Some graphA)
    by reflexivity.
  assert (Hu : unresolved graphA (P 5 5))
    by (split; reflexivity).
  assert (H1 : pointInGraph graphA (P 0 0) = (makeGraph [lineA], Some 0))
    by reflexivity.
  split; [exact Hg|]. split; [exact Hu|].
  destruct (findShortestPath_unresolved sessionA graphA (P 5 5) (P 0 0) Hg)
    as [Ha _].
  destruct (findShortestPath_unresolved sessionA graphA (P 0 0) (P 5 5) Hg)
    as [_ Hb].
  rewrite (Ha Hu), (Hb _ _ H1 Hu). repeat split.
Defined.

(** C6 as stated fails for a second point that has no representation in
    the cached graph but has one once the first point is spliced in.
    [pointOnA] is joined to [lineA] as the vertex 2; [pointOffA] matches no
    vertex of the cached graph and lies on none of its edges, yet it lies
    on the edge from (0,0) to the joined vertex.  The query runs the
    solver and returns a path with [ErrNone], not [ErrPoint2]. *)
Lemma second_point_resolves_after_splice :
  mGraph (init sessionA).1 = Some graphA ∧
  unresolved graphA pointOffA ∧
  (∃ g1, pointInGraph graphA pointOnA = (g1, Some 2) ∧ ¬ unresolved g1 pointOffA) ∧
  o_error <$> findShortestPath sessionA pointOnA pointOffA = Some ErrNone ∧
  o_points <$> findShortestPath sessionA pointOnA pointOffA = Some [pointOnA; pointOffA] ∧
  o_calls <$> findShortestPath sessionA pointOnA pointOffA
  = Some [CallShortestPath 2 3; CallResetGraph].
Proof.
  split; [reflexivity|]. split; [split; reflexivity|].
  split.
  - eexists. split; [reflexivity|]. intros [_ He]. discriminate He.
  - split; [reflexivity|]. split; reflexivity.
Qed.



(** C3 as stated fails: the single line [lineABC] has three points, and
    the graph made of it has two vertices. *)
Lemma three_points_two_vertices :
  NoDup (endpoints linesABC) ∧
  sum_list (numPoints <$> linesABC) = 3 ∧
  length (g_v (makeGraph linesABC)) = 2 ∧
  length (g_e (makeGraph linesABC)) = 1.
Proof.
  split; [refine (bool_decide_unpack _ _); vm_compute; exact I|].
  repeat split; reflexivity.
Qed.

Lemma makeGraph_disjoint_lines_witness :
  NoDup (endpoints linesAC) ∧
  length (g_v (makeGraph linesAC)) = 2 * length linesAC ∧
  length (g_e (makeGraph linesAC)) = length linesAC.
Proof.
  assert (Hnd : NoDup (endpoints linesAC))
    by (refine (bool_decide_unpack _ _); vm_compute; exact I).
  split; [exact Hnd|]. exact (makeGraph_disjoint_lines linesAC Hnd).
Defined.

(** C4 as stated fails: the start of [lineNear] is within [epsilon] of the
    start of [lineA], and the builder makes a vertex for each of them. *)
Lemma near_endpoints_two_vertices :
  near (startPoint lineA) (startPoint lineNear) = true ∧
  startPoint lineA ≠ startPoint lineNear ∧
  length (g_v (makeGraph linesNear)) = 4 ∧
  e_v1 <$> g_e (makeGraph linesNear) = [0; 2].
Proof.
  split; [reflexivity|]. split; [discriminate|].
  split; reflexivity.
Qed.

Lemma makeGraph_shared_endpoint_witness :
  linesAB !! 0 = Some lineA ∧ linesAB !! 1 = Some lineB ∧
  ∃ ei ej, g_e (makeGraph linesAB) !! 0 = Some ei ∧
           g_e (makeGraph linesAB) !! 1 = Some ej ∧
           e_v1 ei = e_v1 ej.
Proof.
  assert (H0 : linesAB !! 0 = Some lineA) by reflexivity.
  assert (H1 : linesAB !! 1 = Some lineB) by reflexivity.
  split; [exact H0|]. split; [exact H1|].
  destruct (makeGraph_shared_endpoint linesAB 0 1 lineA lineB H0 H1)
    as (ei & ej & Hi & Hj & Hss & _).
  exists ei, ej. split; [exact Hi|]. split; [exact Hj|].
  apply Hss. reflexivity.
Defined.

(** In the graph of [lineA] and [lineC] the two ends of [lineA] are
    connected to each other only. *)
Lemma graphAC_apart : ¬ connected graphAC 0 3.
Proof.
  assert (Hinv : ∀ v, connected graphAC 0 v → v < 2).
  { intros v Hc. unfold connected in Hc.
    apply (rtc_ind_r (R:=step graphAC) (λ v, v < 2) 0); [lia| |exact Hc].
    intros y z _ (ei & ed & Hin & He & ->) Hy.
    destruct y as [|[|y]]; [| |lia].
    - assert (E : edgesOf graphAC 0 = [0]) by reflexivity.
      rewrite E in Hin. apply list_elem_of_singleton in Hin as ->.
      assert (E' : g_e graphAC !! 0 = Some (mkE 0 1 lineA)) by reflexivity.
      rewrite E' in He. injection He as <-. vm_compute. lia.
    - assert (E : edgesOf graphAC 1 = [0]) by reflexivity.
      rewrite E in Hin. apply list_elem_of_singleton in Hin as ->.
      assert (E' : g_e graphAC !! 0 = Some (mkE 0 1 lineA)) by reflexivity.
      rewrite E' in He. injection He as <-. vm_compute. lia. }
  intros Hc. apply Hinv in Hc. lia.
Qed.

(** C7 on [sessionAC]: from an end of [lineA] to an end of [lineC]. *)
Lemma findShortestPath_no_path_witness :
  mGraph (init sessionAC).1 = Some graphAC ∧
  pointInGraph graphAC (P 0 0) = (graphAC, Some 0) ∧
  pointInGraph graphAC (P 10 5) = (graphAC, Some 3) ∧
  ¬ connected graphAC 0 3 ∧
  (∃ st, dijkstraLoop (dijkstraFuel graphAC) graphAC 3 (dijkstraInit graphAC 0) = Some st ∧
         d_Q st = [] ∧ d_u st ≠ Some 3) ∧
  answer sessionAC (P 0 0) (P 10 5) = Some ([], ErrNoPath).
Proof.
  assert (Hg : mGraph (init sessionAC).1 = Some graphAC) by reflexivity.
  assert (H1 : pointInGraph graphAC (P 0 0) = (graphAC, Some 0)) by reflexivity.
  assert (H2 : pointInGraph graphAC (P 10 5) = (graphAC, Some 3)) by reflexivity.
  split; [exact Hg|]. split; [exact H1|]. split; [exact H2|].
  split; [exact graphAC_apart|].
  destruct (findShortestPath_no_path sessionAC graphAC graphAC graphAC (P 0 0) (P 10 5)
              0 3 Hg H1 H2 graphAC_apart) as [Hloop Hres].
  split; [exact Hloop|]. unfold answer. rewrite Hres. reflexivity.
Defined.

(** C9 on [sessionOffset]: the path along [lineA] is handed to the offset
    engine and comes back moved by one unit, in the direction of the
    query. *)
Lemma findShortestPath_offset_witness :
  mGraph (init sessionOffset).1 = Some graphA ∧
  pointInGraph graphA (P 0 0) = (graphA, Some 0) ∧
  pointInGraph graphA (P 10 0) = (graphA, Some 1) ∧
  shortestPath graphA (Some 0) (Some 1) = Some lineA ∧
  lineA ≠ [] ∧
  mOffset sessionOffset ≠ wzero ∧
  ∃ o, findShortestPath sessionOffset (P 0 0) (P 10 0) = Some o ∧
       CallOffsetCurve lineA ∈ o_calls o ∧
       o_points o = [P 0 1; P 10 1].
Proof.
  assert (Hg : mGraph (init sessionOffset).1 = Some graphA) by reflexivity.
  assert (H1 : pointInGraph graphA (P 0 0) = (graphA, Some 0)) by reflexivity.
  assert (H2 : pointInGraph graphA (P 10 0) = (graphA, Some 1)) by reflexivity.
  assert (Hsp : shortestPath graphA (Some 0) (Some 1) = Some lineA)
    by (vm_compute; reflexivity).
  assert (Hne : lineA ≠ []) by discriminate.
  assert (Hoff : mOffset sessionOffset ≠ wzero) by (vm_compute; discriminate).
  split; [exact Hg|]. split; [exact H1|]. split; [exact H2|].
  split; [exact Hsp|]. split; [exact Hne|]. split; [exact Hoff|].
  destruct (findShortestPath_offset sessionOffset graphA graphA graphA (P 0 0) (P 10 0)
              0 1 lineA Hg H1 H2 Hsp Hne Hoff) as (o & Ho & Hcall & Hpts).
  exists o. split; [exact Ho|]. split; [exact Hcall|]. exact Hpts.
Defined.

(** C1 on [sessionA]: the query from the middle of [lineA] to a point off
    the linework returns [ErrPoint2] and leaves the splice of its first
    point in the cached graph: three vertices and three edges where there
    were two and one, the edge 0 inactive, one joined vertex counted.  The
    next query, between the two ends of [lineA], passes through the
    vertex left behind. *)
Lemma unresolved_second_point_leaves_splice :
  answer sessionA (P 5 0) (P 5 5) = Some ([], ErrPoint2) ∧
  g_v <$> mGraph sessionA = Some [mkV (P 0 0) [0]; mkV (P 10 0) [0]] ∧
  g_v <$> mGraph sessionA_failed
    = Some [mkV (P 0 0) [1]; mkV (P 10 0) [2]; mkV (P 5 0) [1; 2]] ∧
  (λ g, length (g_e g)) <$> mGraph sessionA_failed = Some 3 ∧
  (λ g, elements (g_inactiveEdges g)) <$> mGraph sessionA_failed = Some [0] ∧
  g_joinedVertices <$> mGraph sessionA_failed = Some 1 ∧
  mGraph sessionA_failed ≠ mGraph sessionA ∧
  answer sessionA (P 0 0) (P 10 0) = Some ([P 0 0; P 10 0], ErrNone) ∧
  answer sessionA_failed (P 0 0) (P 10 0) = Some ([P 0 0; P 5 0; P 10 0], ErrNone).
Proof.
  split; [vm_compute; reflexivity|].
  split; [reflexivity|]. split; [reflexivity|].
  split; [vm_compute; reflexivity|]. split; [vm_compute; reflexivity|].
  split; [vm_compute; reflexivity|].
  split; [|split; vm_compute; reflexivity].
  intros Heq. apply (f_equal (fmap g_joinedVertices)) in Heq. discriminate Heq.
Qed.

(** C8 on [sessionA_failed], the state a query with an unresolved second
    point leaves: the same query made twice in a row returns two different
    lines, the first through the vertex left behind, the second not. *)
Lemma repeated_query_differs :
  answer sessionA_failed (P 0 0) (P 10 0)
    = Some ([P 0 0; P 5 0; P 10 0], ErrNone) ∧
  answer (after sessionA_failed (P 0 0) (P 10 0)) (P 0 0) (P 10 0)
    = Some ([P 0 0; P 10 0], ErrNone) ∧
  answer sessionA_failed (P 0 0) (P 10 0)
    ≠ answer (after sessionA_failed (P 0 0) (P 10 0)) (P 0 0) (P 10 0).
Proof.
  split; [vm_compute; reflexivity|]. split; [vm_compute; reflexivity|].
  vm_compute. discriminate.
Qed.

End Runs.

(** ** Runs of the further properties *)

Section RunsMore.

Import Grid Examples.

Lemma makeGraph_edges_are_lines_witness :
  linesAB !! 1 = Some lineB ∧
  length (g_e (makeGraph linesAB)) = length linesAB ∧
  ∃ ed vx1 vx2,
    g_e (makeGraph linesAB) !! 1 = Some ed ∧ e_coords ed = lineB ∧
    g_v (makeGraph linesAB) !! e_v1 ed = Some vx1 ∧ v_pt vx1 = startPoint lineB ∧
    g_v (makeGraph linesAB) !! e_v2 ed = Some vx2 ∧ v_pt vx2 = endPoint lineB.
Proof.
  assert (H1 : linesAB !! 1 = Some lineB) by reflexivity.
  destruct (makeGraph_edges_are_lines linesAB 1 lineB H1) as (He & _ & Hed).
  split; [exact H1|]. split; [exact He|exact Hed].
Defined.

(** The ring of [lineRing] starts and ends at (0,0), the vertex 0, whose
    adjacency list then names [lineA] once and the ring twice. *)
Lemma makeGraph_closed_line_witness :
  linesRing !! 1 = Some lineRing ∧
  startPoint lineRing = endPoint lineRing ∧
  ∃ ed vx,
    g_e (makeGraph linesRing) !! 1 = Some ed ∧ e_v1 ed = e_v2 ed ∧
    g_v (makeGraph linesRing) !! e_v1 ed = Some vx ∧ v_pt vx = startPoint lineRing ∧
    occurrences 1 (v_edges vx) = 2.
Proof.
  assert (H1 : linesRing !! 1 = Some lineRing) by reflexivity.
  assert (H2 : startPoint lineRing = endPoint lineRing) by reflexivity.
  split; [exact H1|]. split; [exact H2|].
  exact (makeGraph_closed_line linesRing 1 lineRing H1 H2).
Defined.

Lemma pointInGraph_again_witness :
  pointInGraph graphA (P 5 0) = ((pointInGraph graphA (P 5 0)).1, Some 2) ∧
  pointInGraph (pointInGraph graphA (P 5 0)).1 (P 5 0)
  = ((pointInGraph graphA (P 5 0)).1, Some 2).
Proof.
  assert (H1 : pointInGraph graphA (P 5 0) = ((pointInGraph graphA (P 5 0)).1, Some 2))
    by reflexivity.
  split; [exact H1|].
  exact (pointInGraph_again graphA _ (P 5 0) 2 H1).
Defined.

(** Two splices, the second one at (2,0) inside the edge from (0,0) to
    (5,0) that the first one made. *)
Lemma query_splices_bounded_witness :
  clean graphA ∧
  g_joinedVertices (pointInGraph (pointInGraph graphA (P 5 0)).1 (P 2 0)).1 ≤ 2 ∧
  length (g_v (pointInGraph (pointInGraph graphA (P 5 0)).1 (P 2 0)).1)
  = length (g_v graphA)
    + g_joinedVertices (pointInGraph (pointInGraph graphA (P 5 0)).1 (P 2 0)).1 ∧
  g_joinedVertices (pointInGraph (pointInGraph graphA (P 5 0)).1 (P 2 0)).1 = 2.
Proof.
  destruct (makeGraph_wf linesA) as [_ Hclean].
  destruct (query_splices_bounded graphA (P 5 0) (P 2 0) Hclean) as (Hj & Hv & _).
  split; [exact Hclean|]. split; [exact Hj|]. split; [exact Hv|]. reflexivity.
Defined.

Lemma resetGraph_clean_witness : clean graphA ∧ resetGraph graphA = graphA.
Proof.
  destruct (makeGraph_wf linesA) as [_ Hclean].
  split; [exact Hclean|]. exact (resetGraph_clean graphA Hclean).
Defined.

Lemma two_splices_then_revert_witness :
  wf_graph graphA ∧ clean graphA ∧
  g_e (resetGraph (pointInGraph (pointInGraph graphA (P 5 0)).1 (P 2 0)).1) = g_e graphA ∧
  Forall2 sameVertex
    (g_v (resetGraph (pointInGraph (pointInGraph graphA (P 5 0)).1 (P 2 0)).1))
    (g_v graphA).
Proof.
  destruct (makeGraph_wf linesA) as [Hwf Hclean].
  destruct (two_splices_then_revert graphA (P 5 0) (P 2 0) Hwf Hclean)
    as (He & Hsame & _).
  split; [exact Hwf|]. split; [exact Hclean|]. split; [exact He|exact Hsame].
Defined.

(** The query between the ends of [lineA] on [sessionA_failed], where an
    earlier query has left the splice of (5,0). *)
Lemma findShortestPath_keeps_base_witness :
  wf_graph graphA ∧
  spliced graphA (pointInGraph graphA (P 5 0)).1 ∧
  mGraph (init sessionA_failed).1 = Some (pointInGraph graphA (P 5 0)).1 ∧
  ∃ o r, findShortestPath sessionA_failed (P 0 0) (P 10 0) = Some o ∧
         o_error o = ErrNone ∧
         mGraph (o_tracer o) = Some r ∧ clean r ∧ g_e r = g_e graphA.
Proof.
  destruct (makeGraph_wf linesA) as [Hwf Hclean].
  assert (Hsp : spliced graphA (pointInGraph graphA (P 5 0)).1)
    by exact (spliced_pointInGraph graphA graphA (P 5 0)
                (spliced_refl graphA Hwf Hclean)).
  assert (Hg : mGraph (init sessionA_failed).1 = Some (pointInGraph graphA (P 5 0)).1)
    by reflexivity.
  split; [exact Hwf|]. split; [exact Hsp|]. split; [exact Hg|].
  assert (Ha : answer sessionA_failed (P 0 0) (P 10 0)
               = Some ([P 0 0; P 5 0; P 10 0], ErrNone)) by (vm_compute; reflexivity).
  unfold answer in Ha.
  destruct (findShortestPath sessionA_failed (P 0 0) (P 10 0)) as [o|] eqn:Ho;
    [|discriminate Ha].
  simpl in Ha. injection Ha as _ Herr.
  destruct (findShortestPath_keeps_base sessionA_failed graphA _ (P 0 0) (P 10 0) o
              Hwf Hsp Hg Ho) as (r & Hr & _ & Hrest).
  destruct (Hrest (or_introl Herr)) as (_ & Hcl & He & _).
  exists o, r. split; [reflexivity|]. split; [exact Herr|].
  split; [exact Hr|]. split; [exact Hcl|exact He].
Defined.

Lemma findShortestPath_errors_witness :
  ∃ o, findShortestPath sessionA (P 5 5) (P 0 0) = Some o ∧
       (o_error o = ErrNone ↔ o_points o ≠ []) ∧
       (o_error o = ErrPoint1 ↔ unresolved graphA (P 5 5)).
Proof.
  assert (Ha : answer sessionA (P 5 5) (P 0 0) = Some ([], ErrPoint1))
    by (vm_compute; reflexivity).
  unfold answer in Ha.
  destruct (findShortestPath sessionA (P 5 5) (P 0 0)) as [o|] eqn:Ho;
    [|discriminate Ha].
  destruct (findShortestPath_errors sessionA (P 5 5) (P 0 0) o Ho) as (H1 & _ & H3).
  assert (Hg : mGraph (init sessionA).1 = Some graphA) by reflexivity.
  exists o. split; [reflexivity|]. split; [exact H1|]. exact (proj1 (H3 graphA Hg)).
Defined.

(** [sessionCapped] allows two features and its layer has two: the build
    gives up.  [sessionFresh] has no cap: the graph is made of both
    lines. *)
Lemma init_feature_cap_witness :
  mGraph sessionCapped = None ∧
  overCap sessionCapped (length (countedFeatures sessionCapped)) ∧
  findShortestPath sessionCapped (P 0 0) (P 10 0)
  = Some (mkOutcome (init sessionCapped).1 [] ErrTooManyFeatures []) ∧
  mGraph sessionFresh = None ∧
  ¬ overCap sessionFresh (length (countedFeatures sessionFresh)) ∧
  mGraph (init sessionFresh).1 = Some (makeGraph (lineworkOf (countedFeatures sessionFresh))).
Proof.
  assert (Hn : mGraph sessionCapped = None) by reflexivity.
  assert (Ho : overCap sessionCapped (length (countedFeatures sessionCapped))).
  { split_and!; [vm_compute; discriminate|vm_compute; lia|vm_compute; discriminate]. }
  assert (Hn' : mGraph sessionFresh = None) by reflexivity.
  assert (Ho' : ¬ overCap sessionFresh (length (countedFeatures sessionFresh))).
  { intros (Hz & _). apply Hz. reflexivity. }
  destruct (init_feature_cap sessionCapped (P 0 0) (P 10 0) Hn) as [Hover _].
  destruct (init_feature_cap sessionFresh (P 0 0) (P 10 0) Hn') as [_ Hunder].
  destruct (Hover Ho) as (_ & _ & Hres). destruct (Hunder Ho') as (Hgr & _).
  split; [exact Hn|]. split; [exact Ho|]. split; [exact Hres|].
  split; [exact Hn'|]. split; [exact Ho'|exact Hgr].
Defined.

End RunsMore.

(** ** Runs of the solver *)

Section GridFacts.

Import Grid.

Lemma glength_nonneg (l : list GPoint) : (0 ≤ glength l)%Z.
Proof.
  induction l as [|a [|b rest] IH]; simpl; [lia|lia|].
  assert (0 ≤ gdistance a b)%Z.
  { unfold gdistance. destruct a, b; try lia. apply Z.sqrt_nonneg. }
  simpl in IH. lia.
Qed.

(** The weights of the grid are ordered as the solver needs them. *)
Lemma grid_ordered_weights : ordered_weights.
Proof.
  split; unfold wle; simpl.
  - intros x. apply Z.ltb_irrefl.
  - intros x y z H1%Z.ltb_ge H2%Z.ltb_ge. apply Z.ltb_ge. lia.
  - intros x y H1%Z.ltb_lt. apply Z.ltb_ge. lia.
  - intros x y w H1%Z.ltb_ge. apply Z.ltb_ge. lia.
  - intros x l. apply Z.ltb_ge. pose proof (glength_nonneg l). lia.
  - reflexivity.
Qed.

End GridFacts.

Section RunsSolver.

Import Grid Examples.

Lemma graphAB_solver_ok : solver_ok graphAB.
Proof. apply wf_graph_solver_ok, makeGraph_wf. Qed.

Lemma graphA_solver_ok : solver_ok graphA.
Proof. apply wf_graph_solver_ok, makeGraph_wf. Qed.

Lemma shortestPath_least_walk_witness :
  dijkstraLoop (dijkstraFuel graphAB) graphAB 2 (dijkstraInit graphAB 1) = Some solvedAB ∧
  d_u solvedAB = Some 2 ∧
  ∃ path, walkBackPath (length (g_v graphAB)) graphAB (d_S solvedAB) 2 = Some path ∧
          walk graphAB 1 (reverse path) 2 ∧
          ∀ es, walk graphAB 1 es 2 → wle (cost graphAB (reverse path)) (cost graphAB es).
Proof.
  assert (H1 : dijkstraLoop (dijkstraFuel graphAB) graphAB 2 (dijkstraInit graphAB 1)
               = Some solvedAB) by reflexivity.
  assert (H2 : d_u solvedAB = Some 2) by reflexivity.
  assert (H3 : 1 < length (g_v graphAB)).
  { assert (Hl : length (g_v graphAB) = 3) by reflexivity. rewrite Hl. lia. }
  split; [exact H1|]. split; [exact H2|].
  exact (shortestPath_least_walk graphAB 1 2 solvedAB grid_ordered_weights
           graphAB_solver_ok H3 H1 H2).
Defined.

Lemma shortestPath_returns_witness :
  1 < length (g_v graphAB) ∧ is_Some (shortestPath graphAB (Some 1) (Some 2)).
Proof.
  assert (H3 : 1 < length (g_v graphAB)).
  { assert (Hl : length (g_v graphAB) = 3) by reflexivity. rewrite Hl. lia. }
  split; [exact H3|].
  exact (shortestPath_returns graphAB 1 2 grid_ordered_weights graphAB_solver_ok H3).
Defined.

Lemma walk_graphAB : walk graphAB 1 [0; 1] 2.
Proof.
  refine (walk_snoc graphAB 1 [0] 0 1 (mkE 0 2 lineB) _ _ _).
  - refine (walk_snoc graphAB 1 [] 1 0 (mkE 0 1 lineA) _ _ _).
    + constructor.
    + refine (bool_decide_unpack _ _). reflexivity.
    + reflexivity.
  - refine (bool_decide_unpack _ _). reflexivity.
  - reflexivity.
Qed.

Lemma shortestPath_reaches_witness :
  walk graphAB 1 [0; 1] 2 ∧ wltb (cost graphAB [0; 1]) wmax = true ∧
  ∃ st, dijkstraLoop (dijkstraFuel graphAB) graphAB 2 (dijkstraInit graphAB 1) = Some st ∧
        d_u st = Some 2.
Proof.
  assert (H3 : 1 < length (g_v graphAB)).
  { assert (Hl : length (g_v graphAB) = 3) by reflexivity. rewrite Hl. lia. }
  assert (H4 : wltb (cost graphAB [0; 1]) wmax = true) by reflexivity.
  split; [exact walk_graphAB|]. split; [exact H4|].
  exact (shortestPath_reaches graphAB 1 2 [0; 1] grid_ordered_weights
           graphAB_solver_ok H3 walk_graphAB H4).
Defined.

Lemma query_solver_input_witness :
  solver_ok (pointInGraph (pointInGraph graphA (P 5 0)).1 (P 10 0)).1 ∧
  (pointInGraph graphA (P 5 0)).2 = Some 2 ∧
  2 < length (g_v (pointInGraph (pointInGraph graphA (P 5 0)).1 (P 10 0)).1).
Proof.
  destruct (query_solver_input graphA (P 5 0) (P 10 0) graphA_solver_ok) as (Hok & Hv1 & _).
  assert (H1 : (pointInGraph graphA (P 5 0)).2 = Some 2) by reflexivity.
  split; [exact Hok|]. split; [exact H1|]. exact (Hv1 2 H1).
Defined.

Lemma findShortestPath_returns_witness :
  mGraph sessionA = Some graphA ∧
  is_Some (findShortestPath sessionA (P 0 0) (P 5 0)).
Proof.
  assert (H1 : mGraph sessionA = Some graphA) by reflexivity.
  split; [exact H1|].
  apply (findShortestPath_returns sessionA (P 0 0) (P 5 0) grid_ordered_weights).
  intros g Hg. rewrite H1 in Hg. injection Hg as <-. exact graphA_solver_ok.
Defined.

End RunsSolver.
